(** * cinnamon-ping-indicator: the supervisor of the [ping] subprocess

    A shallow embedding of [applet.js]: the line parser (the regular
    expression applied to every output line of [ping]), the label rendering,
    the finalizer of the [ping] async generator with its two-tier
    termination protocol, and the applet's start/stop state handling on top
    of the ECMAScript async-generator request queue. *)

From Stdlib Require Import NArith String Ascii Bool Lia.
From stdpp Require Import base option list.

Local Open Scope N_scope.
Local Open Scope list_scope.

(** ** JavaScript strings

    A JS string is a sequence of UTF-16 code units.  A regular expression
    without the [u] flag works on code units, one at a time. *)

Module JS.

Definition codeunit := N.
Definition jsstring := list codeunit.

(** The code units of an ASCII literal. *)
Definition lit (s : string) : jsstring :=
  List.map N_of_ascii (list_ascii_of_string s).

(** [\d] is [0-9]. *)
Definition is_digit (c : codeunit) : bool := (48 <=? c) && (c <=? 57).

(** [\w] is [A-Za-z0-9_]. *)
Definition is_word (c : codeunit) : bool :=
  ((65 <=? c) && (c <=? 90)) || ((97 <=? c) && (c <=? 122))
  || is_digit c || (c =? 95).

(** [\s] is the ECMAScript WhiteSpace and LineTerminator code points. *)
Definition is_space (c : codeunit) : bool :=
  ((9 <=? c) && (c <=? 13)) || (c =? 32) || (c =? 160) || (c =? 5760)
  || ((8192 <=? c) && (c <=? 8202)) || (c =? 8232) || (c =? 8233)
  || (c =? 8239) || (c =? 8287) || (c =? 12288) || (c =? 65279).

(** The word-character test [\b] applies on both sides of a position; the
    start and the end of the input count as non-word. *)
Definition is_word_opt (c : option codeunit) : bool :=
  match c with Some x => is_word x | None => false end.

End JS.

Import JS.

(** ** A backtracking matcher for the regular expressions of the applet *)

Module Regex.

Inductive regex : Type :=
| Assert_b                               (* \b *)
| Lit (l : jsstring)                     (* literal characters *)
| Plus_cls (p : codeunit -> bool)        (* C+  for a character class C *)
| Star_cls (p : codeunit -> bool)        (* C*  for a character class C *)
| Seq (r1 r2 : regex)                    (* r1 r2 *)
| Group (r : regex)                      (* ( r ), capturing *)
| NGroup (r : regex).                    (* (?: r ) *)

(** The matcher state: the code unit before the current position, the rest
    of the input, and the captures so far. *)
Definition captures := list jsstring.
Definition cont := option codeunit -> jsstring -> captures -> option captures.

(** Consume the literal [l]; the result carries the new previous unit. *)
Fixpoint eat (l : jsstring) (prev : option codeunit) (s : jsstring)
  : option (option codeunit * jsstring) :=
  match l with
  | [] => Some (prev, s)
  | a :: l' =>
      match s with
      | c :: s' => if a =? c then eat l' (Some c) s' else None
      | [] => None
      end
  end.

(** Greedy [C*]: take one more unit when possible, and fall back to the
    continuation at this position when the longer attempt fails. *)
Fixpoint star_cls (p : codeunit -> bool) (prev : option codeunit)
    (s : jsstring) (caps : captures) (k : cont) : option captures :=
  match s with
  | c :: s' =>
      if p c then
        match star_cls p (Some c) s' caps k with
        | Some r => Some r
        | None => k prev s caps
        end
      else k prev s caps
  | [] => k prev s caps
  end.

Fixpoint rmatch (r : regex) (prev : option codeunit) (s : jsstring)
    (caps : captures) (k : cont) : option captures :=
  match r with
  | Assert_b =>
      if xorb (is_word_opt prev) (is_word_opt (head s))
      then k prev s caps else None
  | Lit l =>
      match eat l prev s with
      | Some (prev', s') => k prev' s' caps
      | None => None
      end
  | Plus_cls p =>
      match s with
      | c :: s' => if p c then star_cls p (Some c) s' caps k else None
      | [] => None
      end
  | Star_cls p => star_cls p prev s caps k
  | Seq r1 r2 =>
      rmatch r1 prev s caps (fun prev' s' caps' => rmatch r2 prev' s' caps' k)
  | Group r =>
      rmatch r prev s caps
        (fun prev' s' caps' =>
           k prev' s' (caps' ++ [take (length s - length s') s]))
  | NGroup r => rmatch r prev s caps k
  end.

(** [RegExp.prototype.exec] with [lastIndex = 0] and no flags: try every
    start position from the left; the first position that matches wins. *)
Fixpoint exec_from (r : regex) (prev : option codeunit) (s : jsstring)
  : option captures :=
  match rmatch r prev s [] (fun _ _ caps => Some caps) with
  | Some caps => Some caps
  | None =>
      match s with
      | c :: s' => exec_from r (Some c) s'
      | [] => None
      end
  end.

Definition exec (r : regex) (s : jsstring) : option captures :=
  exec_from r None s.

End Regex.

Import Regex.

(** ** LineParser: applet.js, ping, lines 60-61 *)

(** [/\btime=(\d+(?:\.\d+))\s*ms\b/] *)
Definition ping_regex : regex :=
  Seq Assert_b
 (Seq (Lit (lit "time="))
 (Seq (Group (Seq (Plus_cls is_digit)
                  (NGroup (Seq (Lit (lit ".")) (Plus_cls is_digit)))))
 (Seq (Star_cls is_space)
 (Seq (Lit (lit "ms"))
      Assert_b)))).

(** A sample is what the generator yields: [m ? m[1] : null]. *)
Definition sample := option jsstring.

Definition parse_line (line : jsstring) : sample :=
  match exec ping_regex line with
  | Some caps => head caps
  | None => None
  end.

(** ** The observable actions of the applet

    Every call the code makes into Gio, the main loop, the log and the
    panel is recorded as an action; a run of the applet produces the list of
    its actions in program order. *)

Inductive log_msg : Type :=
| LLine (line : jsstring)          (* `line: ${line}` *)
| LExitedOwn                       (* "ping exited on its own" *)
| LTerminating (pid : jsstring)    (* `Terminating ping with SIGTERM (pid=${pid})…` *)
| LNotTerminated (pid : jsstring)  (* `ping (pid=${pid}) not terminated. Killing it…` *)
| LTerminated                      (* "ping subprocess terminated" *)
| LErrorKilling                    (* "Error killing ping subprocess" *)
| LLoopStopped                     (* "update loop stopped" *)
| LRestarting                      (* "Settings changed. Restarting ping subprocess." *)
| LStarting.                       (* "Settings changed. ping not running. Starting it." *)

(** How a promise settles. *)
Inductive outcome : Type := Fulfilled | Rejected.

Inductive action : Type :=
| ASpawn (g : nat) (host : option jsstring) (interval : N)
                                   (* Gio.Subprocess.new(["ping","-n","-i",interval,host]) *)
| AReadStart (g : nat)             (* stdout.read_line_async(0, readCancellable) *)
| ALog (m : log_msg)               (* global.log *)
| ALogError                        (* global.logError(err) *)
| ADeliver (g : nat) (v : sample)  (* the body of for-await runs with val = v *)
| ASetLabel (s : jsstring)         (* this.set_applet_label *)
| ASetTooltip (s : jsstring)       (* this.set_applet_tooltip *)
| ACancelRead (g : nat)            (* readCancellable.cancel() *)
| ACloseStart (g : nat)            (* stdout.close_async(0, null) *)
| ASendSignal (g : nat) (sig : N)  (* proc.send_signal(sig) *)
| AForceExit (g : nat)             (* proc.force_exit() *)
| ATimerAdd (g : nat) (ms : N)     (* Mainloop.timeout_add(ms, ...) *)
| ATimerCancel (g : nat)           (* the timer callback: timeoutCancellable.cancel() *)
| ATimerRemove (g : nat)           (* Mainloop.source_remove(timeoutId) *)
| AWaitStart (g : nat) (timed : bool)
                                   (* proc.wait_async(timeoutCancellable or null) *)
| AStopSettled (call : nat) (o : outcome).
                                   (* the promise of the call-th call of _stop settles *)

Definition SIGTERM : N := 15.
Definition SIGTERM_TIMEOUT : N := 5000.
Definition SIGKILL_TIMEOUT : N := 5000.

(** ** The heap: generator objects, promises, suspended calls of [_stop] *)

(** The completion the [try] block of [ping] was left with; the [finally]
    block re-issues it when it ends without an exception of its own. *)
Inductive completion : Type :=
| CReturn       (* return: end of stream, or a return() request at yield *)
| CThrow.       (* an exception of read_line_async *)

(** Where the body of the async generator [ping] is suspended.  Between two
    callbacks of the main loop the generator is never at [yield]: for-await
    asks for the next value in the same turn it received one. *)
Inductive gen_pc : Type :=
| PRead                                   (* line 55: await read_line_async *)
| PClose (c : completion)                 (* line 66: await close_async *)
| PWaitOwn (c : completion)               (* line 73: await wait_async(null) *)
| PWaitTerm (c : completion) (pid : jsstring) (fired : bool)
                                          (* line 79: SIGTERM sent, bounded wait;
                                             [fired]: its timer has elapsed *)
| PWaitKill (c : completion) (fired : bool)
                                          (* line 83: force_exit done, bounded wait;
                                             [fired]: its timer has elapsed *)
| PDone.                                  (* the generator is completed *)

(** A request in the generator's queue (ECMAScript AsyncGeneratorQueue):
    [next()] of the for-await loop, or [return()] with its promise. *)
Inductive request : Type :=
| RNext
| RReturn (p : nat).

Record gen : Type := Gen {
  pc : gen_pc;
  queue : list request;
  returned : bool     (* history: return() has been called on the object *)
}.

Inductive pstate : Type := PPending | PSettled (o : outcome).

(** A call of [_stop] suspended at its [await]. *)
Record stop_call : Type := StopCall {
  sc_id : nat;            (* the number of the call *)
  sc_promise : nat;       (* the promise it awaits *)
  sc_guarded : bool;      (* inside try/catch (line 144) or not (line 155) *)
  sc_then_start : bool    (* awaited by on_settings_changed, which then calls _start *)
}.

Record state : Type := State {
  (* the settings bound to the applet *)
  title : option jsstring;
  host : option jsstring;
  interval : N;
  (* the fields of PingIndicatorApplet *)
  _is_in_panel : bool;
  _ping : option nat;
  _stoppedPromise : nat;
  (* the panel *)
  label : jsstring;
  tooltip : jsstring;
  (* the heap *)
  gens : list gen;
  promises : list pstate;
  stops : list stop_call;
  calls : nat             (* the number of calls of _stop so far *)
}.

(** ** State and output passing

    A piece of the applet's code maps the state to a result, the new state
    and the actions it performed, in order. *)

Definition M (A : Type) : Type := state -> A * state * list action.

#[global] Instance M_ret : MRet M := fun A (x : A) st => (x, st, []).

#[global] Instance M_bind : MBind M := fun A B (f : A -> M B) (m : M A) st =>
  let '(x, st1, o1) := m st in
  let '(y, st2, o2) := f x st1 in
  (y, st2, o1 ++ o2).

Definition emit (a : action) : M unit := fun st => (tt, st, [a]).
Definition get : M state := fun st => (st, st, []).
Definition modify (f : state -> state) : M unit := fun st => (tt, f st, []).
Definition skip : M unit := mret tt.

(** Sequential iteration over a list, as a [for] loop. *)
Fixpoint for_each {A : Type} (l : list A) (f : A -> M unit) : M unit :=
  match l with
  | [] => skip
  | x :: l' => f x ;; for_each l' f
  end.

(** The same, gathering what the steps return. *)
Fixpoint collect {A B : Type} (l : list A) (f : A -> M (list B))
  : M (list B) :=
  match l with
  | [] => mret []
  | x :: l' => r ← f x; rs ← collect l' f; mret (r ++ rs)
  end.

Definition set_config (t h : option jsstring) (i : N) (st : state) : state :=
  State t h i (_is_in_panel st) (_ping st) (_stoppedPromise st)
        (label st) (tooltip st) (gens st) (promises st) (stops st) (calls st).
Definition set_is_in_panel (b : bool) (st : state) : state :=
  State (title st) (host st) (interval st) b (_ping st) (_stoppedPromise st)
        (label st) (tooltip st) (gens st) (promises st) (stops st) (calls st).
Definition set_ping (p : option nat) (st : state) : state :=
  State (title st) (host st) (interval st) (_is_in_panel st) p
        (_stoppedPromise st)
        (label st) (tooltip st) (gens st) (promises st) (stops st) (calls st).
Definition set_stoppedPromise (p : nat) (st : state) : state :=
  State (title st) (host st) (interval st) (_is_in_panel st) (_ping st) p
        (label st) (tooltip st) (gens st) (promises st) (stops st) (calls st).
Definition set_label (s : jsstring) (st : state) : state :=
  State (title st) (host st) (interval st) (_is_in_panel st) (_ping st)
        (_stoppedPromise st)
        s (tooltip st) (gens st) (promises st) (stops st) (calls st).
Definition set_tooltip (s : jsstring) (st : state) : state :=
  State (title st) (host st) (interval st) (_is_in_panel st) (_ping st)
        (_stoppedPromise st)
        (label st) s (gens st) (promises st) (stops st) (calls st).
Definition set_gens (gs : list gen) (st : state) : state :=
  State (title st) (host st) (interval st) (_is_in_panel st) (_ping st)
        (_stoppedPromise st)
        (label st) (tooltip st) gs (promises st) (stops st) (calls st).
Definition set_promises (ps : list pstate) (st : state) : state :=
  State (title st) (host st) (interval st) (_is_in_panel st) (_ping st)
        (_stoppedPromise st)
        (label st) (tooltip st) (gens st) ps (stops st) (calls st).
Definition set_stops (ss : list stop_call) (st : state) : state :=
  State (title st) (host st) (interval st) (_is_in_panel st) (_ping st)
        (_stoppedPromise st)
        (label st) (tooltip st) (gens st) (promises st) ss (calls st).
Definition set_calls (n : nat) (st : state) : state :=
  State (title st) (host st) (interval st) (_is_in_panel st) (_ping st)
        (_stoppedPromise st)
        (label st) (tooltip st) (gens st) (promises st) (stops st) n.

(** Update of one generator object. *)
Definition set_gen (g : nat) (x : gen) : M unit :=
  modify (fun st => set_gens (<[g := x]> (gens st)) st).

Definition set_pc (g : nat) (p : gen_pc) : M unit :=
  st ← get;
  match gens st !! g with
  | Some x => set_gen g (Gen p (queue x) (returned x))
  | None => skip
  end.

(** ** Rendering: applet.js, _set_ping_val, lines 112-116 *)

(** [this.title ? `${this.title} ` : ""]: an unset or empty title is falsy. *)
Definition title_prefix (t : option jsstring) : jsstring :=
  match t with
  | Some (c :: t') => (c :: t') ++ lit " "
  | _ => []
  end.

(** [val != null ? `${val} ms` : "N/A"] *)
Definition value_text (val : sample) : jsstring :=
  match val with
  | Some v => v ++ lit " ms"
  | None => lit "N/A"
  end.

Definition label_text (t : option jsstring) (val : sample) : jsstring :=
  title_prefix t ++ value_text val.

Definition set_applet_label (s : jsstring) : M unit :=
  emit (ASetLabel s) ;; modify (set_label s).

Definition set_applet_tooltip (s : jsstring) : M unit :=
  emit (ASetTooltip s) ;; modify (set_tooltip s).

Definition _set_ping_val (val : sample) : M unit :=
  st ← get;
  set_applet_label (label_text (title st) val).

(** ** The applet: _start, _stop and the promises between them *)

(** applet.js, _start, lines 129-135.  Creating the generator runs nothing;
    [_async_update] then enters for-await, whose first [next()] runs the
    generator up to its first [await]: the process is spawned and the first
    read is issued.  [Gio.Subprocess.new] is taken to succeed. *)
Definition _start : M unit :=
  st ← get;
  match _ping st with
  | None =>
      let g := length (gens st) in
      modify (fun st => set_gens (gens st ++ [Gen PRead [RNext] false]) st) ;;
      modify (set_ping (Some g)) ;;
      emit (ASpawn g (host st) (interval st)) ;;
      emit (AReadStart g)
  | Some _ => skip
  end.

(** Line 180, reached by the calls of [on_settings_changed] whose
    [await this._stop()] (line 175) has ended normally.  The rest of such a
    call is a promise job of its own: it runs behind the jobs that were
    queued before the call of [_stop] ended. *)
Definition after_stop (ks : list stop_call) : M unit :=
  for_each ks (fun _ => _start).

(** The rest of a call of [_stop] once the promise it awaits has settled
    with [o]: inside try/catch a rejection is logged and the call ends
    normally; outside, the call ends as the promise did.  The result is the
    call itself when [on_settings_changed] awaits it and it has ended
    normally, and nothing otherwise. *)
Definition finish_call (c : stop_call) (o : outcome) : M (list stop_call) :=
  if sc_guarded c then
    match o with
    | Rejected => emit ALogError
    | Fulfilled => skip
    end ;;
    emit (AStopSettled (sc_id c) Fulfilled) ;;
    mret (if sc_then_start c then [c] else [])
  else
    emit (AStopSettled (sc_id c) o) ;;
    mret (match o with
          | Fulfilled => if sc_then_start c then [c] else []
          | Rejected => []
          end).

(** [await p] in a call of [_stop]: when [p] is settled already the call
    goes on in this turn, and after it its caller; otherwise the call is
    suspended. *)
Definition await_in_call (c : stop_call) : M unit :=
  st ← get;
  match promises st !! sc_promise c with
  | Some (PSettled o) => ks ← finish_call c o; after_stop ks
  | _ => modify (fun st => set_stops (stops st ++ [c]) st)
  end.

Definition awaits (p : nat) (c : stop_call) : bool := Nat.eqb (sc_promise c) p.

(** Promise [p] settles with [o]: the calls suspended on it go on, in the
    order in which they were suspended.  The result lists the calls whose
    caller goes on after them. *)
Definition settle (p : nat) (o : outcome) : M (list stop_call) :=
  st ← get;
  modify (fun st => set_promises (<[p := PSettled o]> (promises st)) st) ;;
  modify (set_stops (List.filter (fun c => negb (awaits p c)) (stops st))) ;;
  collect (List.filter (awaits p) (stops st)) (fun c => finish_call c o).

(** [ping.return()] (ECMAScript AsyncGenerator.prototype.return): the request
    is put in the generator's queue with a new promise.  A completed
    generator answers at once.  A generator that is running its body, which
    includes being suspended at an [await], is left alone: the request waits
    in the queue until the body reaches [yield] or ends. *)
Definition gen_return (g : nat) : M nat :=
  st ← get;
  let p := length (promises st) in
  match gens st !! g with
  | Some (Gen PDone q _) =>
      modify (fun st => set_promises (promises st ++ [PSettled Fulfilled]) st) ;;
      set_gen g (Gen PDone q true) ;;
      mret p
  | Some (Gen pc0 q _) =>
      modify (fun st => set_promises (promises st ++ [PPending]) st) ;;
      set_gen g (Gen pc0 (q ++ [RReturn p]) true) ;;
      mret p
  | None =>
      modify (fun st => set_promises (promises st ++ [PSettled Fulfilled]) st) ;;
      mret p
  end.

(** applet.js, _stop, lines 137-157.  [then_start] tells whether the caller
    is [on_settings_changed]. *)
Definition _stop (then_start : bool) : M unit :=
  st ← get;
  let id := calls st in
  modify (set_calls (S id)) ;;
  match _ping st with
  | Some g =>
      modify (set_ping None) ;;
      p ← gen_return g;
      modify (set_stoppedPromise p) ;;
      await_in_call (StopCall id p true then_start)
  | None =>
      await_in_call (StopCall id (_stoppedPromise st) false then_start)
  end.

(** ** The async generator [ping]: applet.js, lines 42-92 *)

(** The generator answers one request of its queue as it completes. *)
Definition answer (r : request) (c : completion) : M (list stop_call) :=
  match r with
  | RNext =>
      (* _async_update, lines 119-126: for-await ends, or catches *)
      match c with
      | CReturn => skip
      | CThrow => emit ALogError
      end ;;
      emit (ALog LLoopStopped) ;;
      mret []
  | RReturn p =>
      settle p (match c with CReturn => Fulfilled | CThrow => Rejected end)
  end.

(** The generator completes with [c]: the request it was serving gets [c],
    and every request still in the queue is answered as by a completed
    generator.  The promise jobs this leaves run in the order in which they
    were queued: the loop of [_async_update] and the calls of [_stop] go on
    in the order of their requests in the queue, which holds one [next()]
    and at most one [return()]; the calls of [on_settings_changed] that
    awaited a call of [_stop] go on after all of these. *)
Definition complete (g : nat) (c : completion) : M unit :=
  st ← get;
  match gens st !! g with
  | Some x =>
      set_gen g (Gen PDone [] (returned x)) ;;
      match queue x with
      | [] => skip
      | r :: q =>
          ks ← answer r c;
          ks' ← collect q (fun r => answer r CReturn);
          after_stop (ks ++ ks')
      end
  | None => skip
  end.

(** Entering the [finally] block, lines 65-66. *)
Definition enter_finally (g : nat) (c : completion) : M unit :=
  emit (ACancelRead g) ;;
  emit (ACloseStart g) ;;
  set_pc g (PClose c).

(** What Gio reports to the generator. *)
Inductive read_result : Type :=
| RLine (line : jsstring)   (* read_line_async resolves with a line *)
| REof                      (* ... with null: stdout was closed *)
| RErr.                     (* ... rejects *)

(** [close_async] resolves or rejects; when it resolves the code asks
    [proc.get_identifier()] in the same turn, [pid] is the answer (null once
    the process has exited). *)
Inductive close_result : Type :=
| CloseOk (pid : option jsstring)
| CloseErr.

(** [wait_async]: the process has exited (true), the wait was cut short and
    reports false, or the promise rejects. *)
Inductive wait_result : Type := WTrue | WFalse | WRaise.

(** Lines 60-61 and the for-await loop of [_async_update], lines 120-121:
    the sample answers the pending [next()]; the loop body renders it and
    asks for the next value.  If a [return()] request was waiting in the
    queue, it is served now and the generator enters [finally]; otherwise
    the generator loops and reads again. *)
Definition on_yield (g : nat) (v : sample) : M unit :=
  st ← get;
  match gens st !! g with
  | Some (Gen _ (RNext :: q) ret) =>
      emit (ADeliver g v) ;;
      _set_ping_val v ;;
      set_gen g (Gen PRead (q ++ [RNext]) ret) ;;
      match q with
      | RReturn _ :: _ => enter_finally g CReturn
      | _ => emit (AReadStart g)
      end
  | _ => skip
  end.

(** Lines 55-61. *)
Definition on_read (g : nat) (r : read_result) : M unit :=
  st ← get;
  match gens st !! g with
  | Some (Gen PRead _ _) =>
      match r with
      | RLine line =>
          emit (ALog (LLine line)) ;;
          on_yield g (parse_line line)
      | REof => enter_finally g CReturn
      | RErr => enter_finally g CThrow
      end
  | _ => skip
  end.

(** _wait_proc_with_timeout, lines 21-28: arm the timer and start the wait. *)
Definition wait_proc_with_timeout_begin (g : nat) (timeout : N) : M unit :=
  emit (ATimerAdd g timeout) ;;
  emit (AWaitStart g true).

(** _wait_proc_with_timeout, lines 30-32. *)
Definition wait_proc_with_timeout_end (g : nat) : M unit :=
  emit (ATimerRemove g).

(** Lines 66-79: after [close_async]. *)
Definition on_close (g : nat) (r : close_result) : M unit :=
  st ← get;
  match gens st !! g with
  | Some (Gen (PClose c) _ _) =>
      match r with
      | CloseErr => complete g CThrow
      | CloseOk None =>
          emit (ALog LExitedOwn) ;;
          emit (AWaitStart g false) ;;
          set_pc g (PWaitOwn c)
      | CloseOk (Some pid) =>
          emit (ALog (LTerminating pid)) ;;
          emit (ASendSignal g SIGTERM) ;;
          wait_proc_with_timeout_begin g SIGTERM_TIMEOUT ;;
          set_pc g (PWaitTerm c pid false)
      end
  | _ => skip
  end.

(** Lines 23-26: the timer of a bounded wait elapses, once. *)
Definition on_timer (g : nat) : M unit :=
  st ← get;
  match gens st !! g with
  | Some (Gen (PWaitTerm c pid false) _ _) =>
      emit (ATimerCancel g) ;; set_pc g (PWaitTerm c pid true)
  | Some (Gen (PWaitKill c false) _ _) =>
      emit (ATimerCancel g) ;; set_pc g (PWaitKill c true)
  | _ => skip
  end.

(** Lines 73 and 79-90: a wait ends.  Line 73 drops what the wait reports;
    lines 79-86 test it, and nothing else: whether the timer has elapsed is
    not looked at. *)
Definition on_wait (g : nat) (w : wait_result) : M unit :=
  st ← get;
  match gens st !! g with
  | Some (Gen (PWaitOwn c) _ _) =>
      match w with
      | WTrue | WFalse => complete g c
      | WRaise => complete g CThrow
      end
  | Some (Gen (PWaitTerm c pid fired) _ _) =>
      match w with
      | WTrue =>
          wait_proc_with_timeout_end g ;;
          emit (ALog LTerminated) ;;
          complete g c
      | WFalse =>
          wait_proc_with_timeout_end g ;;
          emit (ALog (LNotTerminated pid)) ;;
          emit (AForceExit g) ;;
          wait_proc_with_timeout_begin g SIGKILL_TIMEOUT ;;
          set_pc g (PWaitKill c false)
      | WRaise =>
          wait_proc_with_timeout_end g ;;
          complete g CThrow
      end
  | Some (Gen (PWaitKill c fired) _ _) =>
      match w with
      | WTrue =>
          wait_proc_with_timeout_end g ;;
          emit (ALog LTerminated) ;;
          complete g c
      | WFalse =>
          wait_proc_with_timeout_end g ;;
          emit (ALog LErrorKilling) ;;
          complete g c
      | WRaise =>
          wait_proc_with_timeout_end g ;;
          complete g CThrow
      end
  | _ => skip
  end.

(** ** The callbacks of the panel: applet.js, lines 159-182 *)

Definition on_applet_added_to_panel : M unit :=
  modify (set_is_in_panel true) ;;
  _start.

Definition on_applet_removed_from_panel : M unit :=
  modify (set_is_in_panel false) ;;
  _stop false.

(** [this.host ?? ""] *)
Definition host_or_empty (h : option jsstring) : jsstring :=
  match h with Some s => s | None => [] end.

(** The settings object stores the new values in the bound properties and
    then calls the callback. *)
Definition on_settings_changed (t h : option jsstring) (i : N) : M unit :=
  modify (set_config t h i) ;;
  set_applet_tooltip (host_or_empty h) ;;
  st ← get;
  if _is_in_panel st then
    match _ping st with
    | Some _ => emit (ALog LRestarting) ;; _stop true
    | None => emit (ALog LStarting) ;; _start
    end
  else skip.

(** The constructor, lines 96-110, with the settings' values at that time. *)
Definition construct (t h : option jsstring) (i : N) : state * list action :=
  let st0 := State t h i false None 0 [] [] [] [PSettled Fulfilled] [] 0 in
  let '(_, st, acts) :=
    (set_applet_tooltip (host_or_empty h) ;; _set_ping_val None) st0 in
  (st, acts).

(** ** The main loop: one event per turn

    The applet runs on the single thread of the GLib main loop.  A turn is
    one callback of the main loop (a callback of the panel or of the
    settings, or the completion of an asynchronous Gio call) together with
    the promise jobs it leaves behind, which all run before the next
    callback.  Inside a turn the actions are listed in the order in which
    the ECMAScript job queue runs them. *)

Inductive event : Type :=
| EAdded                                           (* the applet is added to the panel *)
| ERemoved                                         (* ... removed from the panel *)
| ESettings (t h : option jsstring) (i : N)        (* a bound setting changed *)
| ERead (g : nat) (r : read_result)
| EClose (g : nat) (r : close_result)
| ETimer (g : nat)
| EWait (g : nat) (w : wait_result).

Definition handle (e : event) : M unit :=
  match e with
  | EAdded => on_applet_added_to_panel
  | ERemoved => on_applet_removed_from_panel
  | ESettings t h i => on_settings_changed t h i
  | ERead g r => on_read g r
  | EClose g r => on_close g r
  | ETimer g => on_timer g
  | EWait g w => on_wait g w
  end.

Definition step (e : event) (st : state) : state * list action :=
  let '(_, st', acts) := handle e st in (st', acts).

(** The run of a list of events: the final state and all actions. *)
Fixpoint run (es : list event) (st : state) : state * list action :=
  match es with
  | [] => (st, [])
  | e :: es' =>
      let '(st1, a1) := step e st in
      let '(st2, a2) := run es' st1 in
      (st2, a1 ++ a2)
  end.

(** ** What the line parser recognizes, stated on the line itself *)

Definition digits (d : jsstring) : Prop :=
  d <> [] /\ forallb is_digit d = true.

Definition spaces (w : jsstring) : Prop := forallb is_space w = true.

(** The occurrence starts at a word boundary: [t] is a word character, so
    the unit before it, if any, is not. *)
Definition boundary_before (pre : jsstring) : Prop :=
  is_word_opt (last pre) = false.

(** The occurrence ends at a word boundary: the unit after [s], if any, is
    not a word character. *)
Definition boundary_after (post : jsstring) : Prop :=
  is_word_opt (head post) = false.

(** [line] is [pre], then [time=<digits>.<digits>], white space, [ms], then
    [post], between word boundaries; [num] is the decimal. *)
Definition decimal_match (line pre num post : jsstring) : Prop :=
  exists d1 d2 w,
    line = pre ++ lit "time=" ++ d1 ++ lit "." ++ d2 ++ w ++ lit "ms" ++ post
    /\ digits d1 /\ digits d2 /\ spaces w
    /\ boundary_before pre /\ boundary_after post
    /\ num = d1 ++ lit "." ++ d2.

(** In the words of the specification: the number of
    [time=<digits>(.<digits>)?\s*ms] is an integer or a decimal. *)
Definition number_match (line pre num post : jsstring) : Prop :=
  decimal_match line pre num post
  \/ exists w,
       line = pre ++ lit "time=" ++ num ++ w ++ lit "ms" ++ post
       /\ digits num /\ spaces w
       /\ boundary_before pre /\ boundary_after post.

(** The specification's reading of the parser: any line that contains
    [time=<number>ms] yields the number. *)
Definition contains_time (line num : jsstring) : Prop :=
  exists pre w post,
    line = pre ++ lit "time=" ++ num ++ w ++ lit "ms" ++ post /\ spaces w.

(** A number in the words of the specification: an integer or a decimal. *)
Definition number (num : jsstring) : Prop :=
  digits num \/ exists d1 d2, digits d1 /\ digits d2 /\ num = d1 ++ lit "." ++ d2.

(** The specification's LineParser: the number of any [time=<number>ms] in
    the line is returned, and every other line is unresolved. *)
Definition spec_line_parser (parse : jsstring -> sample) : Prop :=
  (forall line num,
      number num -> contains_time line num -> parse line = Some num)
  /\ (forall line,
        (forall num, number num -> ~ contains_time line num) ->
        parse line = None).

(** *** Auxiliary notions for reasoning about the matcher *)

(** The longest prefix of [s] in the class [p], and what follows it. *)
Fixpoint run_of (p : codeunit -> bool) (s : jsstring) : jsstring :=
  match s with
  | c :: s' => if p c then c :: run_of p s' else []
  | [] => []
  end.

Fixpoint after_run (p : codeunit -> bool) (s : jsstring) : jsstring :=
  match s with
  | c :: s' => if p c then after_run p s' else s
  | [] => []
  end.

(** The unit before the position reached after consuming [w]. *)
Definition last_or (prev : option codeunit) (w : jsstring) : option codeunit :=
  match last w with Some c => Some c | None => prev end.

Definition stops_at (p : codeunit -> bool) (rest : jsstring) : Prop :=
  match rest with c :: _ => p c = false | [] => True end.

(** A continuation that cannot succeed on an input starting in class [p]:
    backtracking into a repetition of [p] before it is of no use. *)
Definition fails_on (p : codeunit -> bool) (k : cont) : Prop :=
  forall prev c s caps, p c = true -> k prev (c :: s) caps = None.

(** The final continuation of [exec_from]. *)
Definition k0 : cont := fun _ _ caps => Some caps.

(** The continuations below the repetitions of [ping_regex]. *)
Definition k_ms (k : cont) : cont := fun prev s caps =>
  rmatch (Seq (Lit (lit "ms")) Assert_b) prev s caps k.

Definition k_sp (k : cont) : cont := fun prev s caps =>
  rmatch (Seq (Star_cls is_space) (Seq (Lit (lit "ms")) Assert_b)) prev s caps k.

Definition k_frac (k : cont) : cont := fun prev s caps =>
  rmatch (NGroup (Seq (Lit (lit ".")) (Plus_cls is_digit))) prev s caps k.

Definition k_group (s1 : jsstring) (k : cont) : cont := fun prev s caps =>
  k_sp k prev s (caps ++ [take (length s1 - length s) s1]).

(** The specification's rendering: a resolved sample is rendered as the
    title, a space and the value followed by [ ms]; an unresolved one as the
    title directly followed by [N/A]; an empty title adds nothing. *)
Definition spec_label_text (t : jsstring) (val : sample) : jsstring :=
  match val with
  | Some v =>
      match t with
      | [] => v ++ lit " ms"
      | _ => t ++ lit " " ++ v ++ lit " ms"
      end
  | None => t ++ lit "N/A"
  end.

(** ** The process-control actions of one session

    The finalizer of a session [g] acts on its read, its stream, its process
    and its timers.  The list of these actions, in order, is the session's
    protocol trace. *)

Definition proto (g : nat) (a : action) : bool :=
  match a with
  | ACancelRead g' | ACloseStart g' | ASendSignal g' _ | AForceExit g'
  | ATimerAdd g' _ | ATimerCancel g' | ATimerRemove g' | AWaitStart g' _ =>
      Nat.eqb g' g
  | _ => false
  end.

Definition proto_trace (g : nat) (tr : list action) : list action :=
  List.filter (proto g) tr.

(** Where session [g] is, if it exists. *)
Definition view (g : nat) (st : state) : option gen_pc :=
  match gens st !! g with Some x => Some (pc x) | None => None end.

(** The stages of the protocol trace. *)
Definition pre_close (g : nat) : list action :=
  [ACancelRead g; ACloseStart g].

Definition own_exit (g : nat) : list action :=
  pre_close g ++ [AWaitStart g false].

Definition graceful (g : nat) : list action :=
  pre_close g ++
  [ASendSignal g SIGTERM; ATimerAdd g SIGTERM_TIMEOUT; AWaitStart g true].

Definition expiry (g : nat) (fired : bool) : list action :=
  if fired then [ATimerCancel g] else [].

(** The kill: the wait after SIGTERM has ended, its timer elapsed or not,
    and is followed by [force_exit] and a second bounded wait. *)
Definition kill (g : nat) : list action :=
  [ATimerRemove g; AForceExit g; ATimerAdd g SIGKILL_TIMEOUT;
   AWaitStart g true].

Definition forced (g : nat) (fired : bool) : list action :=
  graceful g ++ expiry g fired ++ kill g.

(** How a finalizer ended. *)
Inductive finalizer_end : Type :=
| FCloseFailed            (* close_async rejected *)
| FOwn                    (* the process had exited on its own *)
| FTerm (fired : bool)    (* the wait after SIGTERM ended the finalizer *)
| FKill (fired1 fired : bool).
                          (* the wait after force_exit ended the finalizer *)

Definition done_trace (g : nat) (f : finalizer_end) : list action :=
  match f with
  | FCloseFailed => pre_close g
  | FOwn => own_exit g
  | FTerm b => graceful g ++ expiry g b ++ [ATimerRemove g]
  | FKill b1 b => forced g b1 ++ expiry g b ++ [ATimerRemove g]
  end.

(** The protocol trace that belongs to each suspension point. *)
Definition shape_ok (g : nat) (es : list event) (p : gen_pc)
    (tr : list action) : Prop :=
  match p with
  | PRead => tr = []
  | PClose _ => tr = pre_close g
  | PWaitOwn _ => tr = own_exit g
  | PWaitTerm _ _ b => tr = graceful g ++ expiry g b
  | PWaitKill _ b => exists b1, tr = forced g b1 ++ expiry g b
  | PDone =>
      exists f, tr = done_trace g f
                /\ (f = FCloseFailed -> In (EClose g CloseErr) es)
  end.

Definition proto_inv (g : nat) (es : list event) (st : state)
    (tr : list action) : Prop :=
  match view g st with
  | Some p => shape_ok g es p (proto_trace g tr)
  | None => proto_trace g tr = []
  end.

(** One turn of the main loop as seen from session [g]. *)
Inductive gtrans (g : nat) : event -> gen_pc -> gen_pc -> list action -> Prop :=
| GT_read_line line :
    gtrans g (ERead g (RLine line)) PRead (PClose CReturn) (pre_close g)
| GT_read_eof :
    gtrans g (ERead g REof) PRead (PClose CReturn) (pre_close g)
| GT_read_err :
    gtrans g (ERead g RErr) PRead (PClose CThrow) (pre_close g)
| GT_close_err c :
    gtrans g (EClose g CloseErr) (PClose c) PDone []
| GT_close_own c :
    gtrans g (EClose g (CloseOk None)) (PClose c) (PWaitOwn c)
      [AWaitStart g false]
| GT_close_term c pid :
    gtrans g (EClose g (CloseOk (Some pid))) (PClose c) (PWaitTerm c pid false)
      [ASendSignal g SIGTERM; ATimerAdd g SIGTERM_TIMEOUT; AWaitStart g true]
| GT_timer_term c pid :
    gtrans g (ETimer g) (PWaitTerm c pid false) (PWaitTerm c pid true)
      [ATimerCancel g]
| GT_timer_kill c :
    gtrans g (ETimer g) (PWaitKill c false) (PWaitKill c true)
      [ATimerCancel g]
| GT_own_done c w :
    gtrans g (EWait g w) (PWaitOwn c) PDone []
| GT_term_done c pid b w :
    w <> WFalse ->
    gtrans g (EWait g w) (PWaitTerm c pid b) PDone [ATimerRemove g]
| GT_term_kill c pid b :
    gtrans g (EWait g WFalse) (PWaitTerm c pid b) (PWaitKill c false) (kill g)
| GT_kill_done c b w :
    gtrans g (EWait g w) (PWaitKill c b) PDone [ATimerRemove g].

Inductive vtrans (g : nat) (e : event)
  : option gen_pc -> option gen_pc -> list action -> Prop :=
| VT_same v : vtrans g e v v []
| VT_alloc : vtrans g e None (Some PRead) []
| VT_step p p' acts : gtrans g e p p' acts -> vtrans g e (Some p) (Some p') acts.

(** A piece of code that performs no process-control action and leaves
    every existing session where it is; it may create sessions. *)
Definition quiet_at (g : nat) {A : Type} (m : M A) : Prop :=
  forall st,
    proto_trace g (m st).2 = []
    /\ (view g (m st).1.2 = view g st
        \/ (view g st = None /\ view g (m st).1.2 = Some PRead)).

Definition quiet {A : Type} (m : M A) : Prop := forall g, quiet_at g m.




(** The state and the actions after the events [es], from the constructor. *)
Definition run_from_start (t h : option jsstring) (i : N) (es : list event)
  : state * list action :=
  run es (construct t h i).1.

#[global] Instance log_msg_eq_dec : EqDecision log_msg.
Proof. solve_decision. Defined.
#[global] Instance outcome_eq_dec : EqDecision outcome.
Proof. solve_decision. Defined.
#[global] Instance action_eq_dec : EqDecision action.
Proof. solve_decision. Defined.





(** The actions by which the applet reports a fault. *)
Definition is_fault (a : action) : bool :=
  match a with
  | ALogError | ALog LErrorKilling | AStopSettled _ Rejected => true
  | _ => false
  end.

Definition faultless {A : Type} (m : M A) : Prop :=
  forall st, List.filter is_fault (m st).2 = [].
(** ** The session held in [_ping] *)

(** [return()] has not been called on the generator of session [g]. *)
Definition not_returned (st : state) (g : nat) : Prop :=
  exists x, gens st !! g = Some x /\ returned x = false.

(** The generators on which [return()] has not been called are exactly the
    one in the applet's [_ping]. *)
Definition slot_inv (st : state) : Prop :=
  forall g, _ping st = Some g <-> not_returned st g.

Definition keeps_slot {A : Type} (m : M A) : Prop :=
  forall st, slot_inv st -> slot_inv (m st).1.2.

(** ** Active sessions *)

(** A session is active from the spawn of its process until its generator
    has completed, that is until its finalizer has ended. *)
Definition active (st : state) (g : nat) : Prop :=
  exists x, gens st !! g = Some x /\ pc x <> PDone.

(** The samples of session [g] that reach the loop body. *)
Definition is_deliver (g : nat) (a : action) : bool :=
  match a with
  | ADeliver g' _ => Nat.eqb g' g
  | _ => false
  end.

Definition silent_at (g : nat) {A : Type} (m : M A) : Prop :=
  forall st, List.filter (is_deliver g) (m st).2 = [].

(** ** Frames: what a piece of code leaves alone *)

(** The observation [f] of the state is the same after [m]. *)
Definition unchanged {X A : Type} (f : state -> X) (m : M A) : Prop :=
  forall st, f (m st).1.2 = f st.

(** [f] does not look at the heap, at [_ping] or at [_stoppedPromise]. *)
Definition heap_blind {X : Type} (f : state -> X) : Prop :=
  (forall gs st, f (set_gens gs st) = f st)
  /\ (forall ps st, f (set_promises ps st) = f st)
  /\ (forall ss st, f (set_stops ss st) = f st)
  /\ (forall n st, f (set_calls n st) = f st)
  /\ (forall p st, f (set_ping p st) = f st)
  /\ (forall p st, f (set_stoppedPromise p st) = f st).

(** No action of the kind [p] is performed by [m]. *)
Definition emits_none {A : Type} (p : action -> bool) (m : M A) : Prop :=
  forall st, List.filter p (m st).2 = [].

Definition is_set_label (a : action) : bool :=
  match a with ASetLabel _ => true | _ => false end.

Definition is_spawn (a : action) : bool :=
  match a with ASpawn _ _ _ => true | _ => false end.

(** The sessions spawned in a trace, in order. *)
Definition spawned (tr : list action) : list nat :=
  omap (fun a => match a with ASpawn g _ _ => Some g | _ => None end) tr.

(** Whether the last callback of the panel in [es] was the addition; [b]
    is the answer when there is none. *)
Fixpoint last_panel_event (b : bool) (es : list event) : bool :=
  match es with
  | [] => b
  | EAdded :: es' => last_panel_event true es'
  | ERemoved :: es' => last_panel_event false es'
  | _ :: es' => last_panel_event b es'
  end.

(** The settings after the events [es], starting from [c]. *)
Fixpoint last_settings (c : option jsstring * option jsstring * N)
    (es : list event) : option jsstring * option jsstring * N :=
  match es with
  | [] => c
  | ESettings t h i :: es' => last_settings (t, h, i) es'
  | _ :: es' => last_settings c es'
  end.

(** ** The requests and promises of the heap *)

(** The queue of a generator, by where it is suspended and whether
    [return()] has been called on it: one [next()] of the loop and at most
    one [return()], in the order in which they will be answered. *)
Definition queue_ok (p : gen_pc) (ret : bool) (q : list request) : Prop :=
  match p, ret with
  | PDone, _ => q = []
  | _, false => q = [RNext]
  | PRead, true => exists pr, q = [RNext; RReturn pr]
  | _, true => exists pr, q = [RNext; RReturn pr] \/ q = [RReturn pr; RNext]
  end.

Record heap_ok (gs : list gen) (ps : list pstate) (ss : list stop_call)
    (sp : nat) : Prop := HeapOk {
  (* every queue has its shape *)
  heap_queue : forall g x, gs !! g = Some x ->
    queue_ok (pc x) (returned x) (queue x);
  (* a queued return() has a pending promise *)
  heap_pending : forall g x p, gs !! g = Some x ->
    In (RReturn p) (queue x) -> ps !! p = Some PPending;
  (* in one queue only *)
  heap_unique : forall g1 g2 x1 x2 p,
    gs !! g1 = Some x1 -> gs !! g2 = Some x2 ->
    In (RReturn p) (queue x1) -> In (RReturn p) (queue x2) -> g1 = g2;
  (* a pending promise is queued somewhere *)
  heap_owner : forall p, ps !! p = Some PPending ->
    exists g x, gs !! g = Some x /\ In (RReturn p) (queue x);
  (* a suspended call awaits a pending promise *)
  heap_stops : forall c, In c ss -> ps !! sc_promise c = Some PPending;
  (* _stoppedPromise is a promise *)
  heap_stopped : is_Some (ps !! sp)
}.

Definition heap_inv (st : state) : Prop :=
  heap_ok (gens st) (promises st) (stops st) (_stoppedPromise st).

(** The heap while promise [p], taken out of its queue, is about to be
    settled. *)
Record heap_ok_but (p : nat) (gs : list gen) (ps : list pstate)
    (ss : list stop_call) (sp : nat) : Prop := HeapOkBut {
  but_queue : forall g x, gs !! g = Some x ->
    queue_ok (pc x) (returned x) (queue x);
  but_pending : forall g x p', gs !! g = Some x ->
    In (RReturn p') (queue x) -> ps !! p' = Some PPending;
  but_unique : forall g1 g2 x1 x2 p',
    gs !! g1 = Some x1 -> gs !! g2 = Some x2 ->
    In (RReturn p') (queue x1) -> In (RReturn p') (queue x2) -> g1 = g2;
  but_owner : forall p', ps !! p' = Some PPending -> p' <> p ->
    exists g x, gs !! g = Some x /\ In (RReturn p') (queue x);
  but_stops : forall c, In c ss -> ps !! sc_promise c = Some PPending;
  but_stopped : is_Some (ps !! sp);
  but_free : forall g x, gs !! g = Some x -> ~ In (RReturn p) (queue x)
}.

Definition heap_inv_but (p : nat) (st : state) : Prop :=
  heap_ok_but p (gens st) (promises st) (stops st) (_stoppedPromise st).

(** The invariant of the applet's state: the slot and the heap. *)
Definition state_inv (st : state) : Prop := slot_inv st /\ heap_inv st.

Definition keeps_inv {A : Type} (m : M A) : Prop :=
  forall st, state_inv st -> state_inv (m st).1.2.

(** [m] spawns one process for every generator object it creates, and
    numbers them as it creates them. *)
Definition spawns_in_order {A : Type} (m : M A) : Prop :=
  forall st, exists n,
    length (gens (m st).1.2) = (length (gens st) + n)%nat
    /\ spawned (m st).2 = seq (length (gens st)) n.

(** The end of an update loop: "update loop stopped". *)
Definition is_loop_stopped (a : action) : bool :=
  match a with ALog LLoopStopped => true | _ => false end.





(** ** Restarting after a change of the settings *)

(** The completions of Gio calls, as opposed to the callbacks of the panel
    and of the settings. *)
Definition is_gio (e : event) : Prop :=
  match e with
  | ERead _ _ | EClose _ _ | ETimer _ | EWait _ _ => True
  | _ => False
  end.

(** The state right after [_start] has run with an empty [_ping]. *)
Definition started (st : state) : state :=
  set_ping (Some (length (gens st)))
    (set_gens (gens st ++ [Gen PRead [RNext] false]) st).

(** The actions of [acts] are [a], the spawn of session [n] for [h] and [i],
    and [b]; nothing else is spawned. *)
Definition one_spawn (n : nat) (h : option jsstring) (i : N)
    (acts a b : list action) : Prop :=
  acts = a ++ ASpawn n h i :: b /\ spawned a = [] /\ spawned b = [].

(** The state in which promise [p] has settled with [o]: the calls that
    awaited it are no longer suspended. *)
Definition settled (p : nat) (o : outcome) (st : state) : state :=
  set_stops (List.filter (fun c => negb (awaits p c)) (stops st))
    (set_promises (<[p := PSettled o]> (promises st)) st).

(** Session [g] has been told to return by the call of
    [on_settings_changed] that awaits promise [p]; [n] sessions exist, the
    settings ask for [h] and [i], and no session is held. *)
Definition waiting (g n p : nat) (h : option jsstring) (i : N)
    (st : state) : Prop :=
  state_inv st
  /\ _ping st = None
  /\ (host st = h /\ interval st = i)
  /\ length (gens st) = n
  /\ (exists x, gens st !! g = Some x /\ pc x <> PDone
                /\ In (RReturn p) (queue x))
  /\ (forall c, In c (stops st) -> sc_then_start c = true ->
        sc_promise c = p /\ sc_guarded c = true)
  /\ (exists c, In c (stops st) /\ sc_then_start c = true).

(** Session [g] has completed and session [n] has been spawned for [h] and
    [i]; [acts] are the actions since the settings changed. *)
Definition restarted (g n : nat) (h : option jsstring) (i : N)
    (st : state) (acts : list action) : Prop :=
  view g st = Some PDone
  /\ _ping st = Some n
  /\ exists a b, one_spawn n h i acts a b /\ proto_trace g b = [].

Definition restart_outcome (g n p : nat) (h : option jsstring) (i : N)
    (st : state) (acts : list action) : Prop :=
  (waiting g n p h i st /\ spawned acts = []) \/ restarted g n h i st acts.

(** While a session is held, [m] leaves [_ping] alone and spawns nothing. *)
Definition busy_keeps {A : Type} (m : M A) : Prop :=
  forall st, _ping st <> None ->
    _ping (m st).1.2 = _ping st /\ spawned (m st).2 = [].

(** ** The settings a process is spawned for *)

(** The settings bound to the applet. *)
Definition config (st : state) : option jsstring * option jsstring * N :=
  (title st, host st, interval st).

(** [m] leaves the host and the interval alone, and spawns for them only. *)
Definition spawns_for_config {A : Type} (m : M A) : Prop :=
  forall st,
    (host (m st).1.2 = host st /\ interval (m st).1.2 = interval st)
    /\ forall g h i, In (ASpawn g h i) (m st).2 ->
         h = host st /\ i = interval st.

(** * Properties of the line parser *)


Lemma last_or_cons prev c w : last_or prev (c :: w) = last_or (Some c) w.
Proof.
  unfold last_or. destruct w as [|d w]; [done|].
  rewrite last_cons_cons. destruct (last (d :: w)) eqn:E; [done|].
  apply last_None in E. done.
Qed.

Lemma star_cls_greedy p prev w rest caps k :
  forallb p w = true -> stops_at p rest -> fails_on p k ->
  star_cls p prev (w ++ rest) caps k = k (last_or prev w) rest caps.
Proof.
  intros Hw Hr Hk. revert prev Hw.
  induction w as [|c w IH]; intros prev Hw; simpl in *.
  - destruct rest as [|c s]; [done|]. simpl in Hr. simpl. by rewrite Hr.
  - apply andb_true_iff in Hw as [Hc Hw]. rewrite Hc, (IH _ Hw), last_or_cons.
    destruct (k (last_or (Some c) w) rest caps) eqn:E; [done|].
    by apply Hk.
Qed.

Lemma run_split p s : s = run_of p s ++ after_run p s.
Proof. induction s as [|c s IH]; simpl; [done|]. destruct (p c); simpl; congruence. Qed.
Lemma run_of_all p s : forallb p (run_of p s) = true.
Proof. induction s as [|c s IH]; simpl; [done|]. destruct (p c) eqn:E; simpl; [by rewrite E|done]. Qed.
Lemma after_run_stops p s : stops_at p (after_run p s).
Proof. induction s as [|c s IH]; simpl; [done|]. destruct (p c) eqn:E; simpl; done. Qed.

Lemma star_cls_run p prev s caps k :
  fails_on p k ->
  star_cls p prev s caps k = k (last_or prev (run_of p s)) (after_run p s) caps.
Proof.
  intros Hk. rewrite (run_split p s) at 1.
  apply star_cls_greedy; auto using run_of_all, after_run_stops.
Qed.

Lemma eat_app l prev rest : eat l prev (l ++ rest) = Some (last_or prev l, rest).
Proof.
  revert prev. induction l as [|a l IH]; intros prev; simpl; [done|].
  by rewrite N.eqb_refl, IH, last_or_cons.
Qed.

Lemma eat_Some l prev s prev' s' :
  eat l prev s = Some (prev', s') -> s = l ++ s' /\ prev' = last_or prev l.
Proof.
  revert prev s. induction l as [|a l IH]; intros prev s H; simpl in *.
  - by inversion H.
  - destruct s as [|c s]; [done|]. destruct (a =? c) eqn:E; [|done].
    apply N.eqb_eq in E as ->. apply IH in H as [-> ->].
    by rewrite last_or_cons.
Qed.

Lemma digit_not_dot c : is_digit c = true -> (46 =? c) = false.
Proof. unfold is_digit. intros H. apply andb_true_iff in H as [H1 H2].
  apply N.leb_le in H1. apply N.eqb_neq. lia. Qed.
Lemma digit_not_space c : is_digit c = true -> is_space c = false.
Proof. unfold is_digit, is_space. intros H. apply andb_true_iff in H as [H1 H2].
  apply N.leb_le in H1. apply N.leb_le in H2.
  repeat match goal with
  | |- context [?a <=? ?b] => destruct (N.leb_spec a b); try lia
  | |- context [?a =? ?b] => destruct (N.eqb_spec a b); try lia
  end; reflexivity. Qed.
Lemma digit_not_m c : is_digit c = true -> (109 =? c) = false.
Proof. unfold is_digit. intros H. apply andb_true_iff in H as [H1 H2].
  apply N.leb_le in H2. apply N.eqb_neq. lia. Qed.
Lemma space_not_m c : is_space c = true -> (109 =? c) = false.
Proof. intros H. destruct (N.eqb_spec 109 c) as [<-|]; [|done]. done. Qed.


Lemma k_ms_fails_space k : fails_on is_space (k_ms k).
Proof. intros prev c s caps H. unfold k_ms. cbn [rmatch]. change (lit "ms") with [109; 115]. cbn [eat]. by rewrite (space_not_m c H). Qed.
Lemma k_ms_fails_digit k : fails_on is_digit (k_ms k).
Proof. intros prev c s caps H. unfold k_ms. cbn [rmatch]. change (lit "ms") with [109; 115]. cbn [eat]. by rewrite (digit_not_m c H). Qed.
Lemma k_frac_fails_digit k : fails_on is_digit (k_frac k).
Proof. intros prev c s caps H. unfold k_frac. cbn [rmatch]. change (lit ".") with [46]. cbn [eat]. by rewrite (digit_not_dot c H). Qed.

Lemma k_sp_eq k prev s caps :
  k_sp k prev s caps
  = k_ms k (last_or prev (run_of is_space s)) (after_run is_space s) caps.
Proof. unfold k_sp. cbn [rmatch]. rewrite star_cls_run; [done|]. apply (k_ms_fails_space k). Qed.

Lemma k_sp_fails_digit k : fails_on is_digit (k_sp k).
Proof.
  intros prev c s caps H. rewrite k_sp_eq. cbn [run_of after_run].
  rewrite (digit_not_space c H). by apply k_ms_fails_digit.
Qed.

Lemma plus_run p prev s caps k :
  fails_on p k ->
  rmatch (Plus_cls p) prev s caps k =
  match run_of p s with
  | [] => None
  | _ :: _ => k (last_or prev (run_of p s)) (after_run p s) caps
  end.
Proof.
  intros Hk. destruct s as [|c s]; cbn [rmatch run_of after_run]; [done|].
  destruct (p c) eqn:E; [|done].
  by rewrite star_cls_run, last_or_cons.
Qed.

Lemma run_app p w rest :
  forallb p w = true -> stops_at p rest ->
  run_of p (w ++ rest) = w /\ after_run p (w ++ rest) = rest.
Proof.
  intros Hw Hr. induction w as [|c w IH].
  - destruct rest as [|c r]; [done|]. simpl in *. by rewrite Hr.
  - cbn [forallb] in Hw. apply andb_true_iff in Hw as [Hc Hw].
    cbn [app run_of after_run]. rewrite Hc.
    destruct (IH Hw) as [-> ->]. done.
Qed.


Lemma k_group_fails_digit s1 k : fails_on is_digit (k_group s1 k).
Proof. intros prev c s caps H. unfold k_group. by apply k_sp_fails_digit. Qed.

Lemma ping_here_unfold prev s :
  rmatch ping_regex prev s [] k0 =
  if xorb (is_word_opt prev) (is_word_opt (head s)) then
    match eat (lit "time=") prev s with
    | Some (p1, s1) =>
        rmatch (Plus_cls is_digit) p1 s1 [] (k_frac (k_group s1 k0))
    | None => None
    end
  else None.
Proof. reflexivity. Qed.

Lemma k_frac_unfold k prev s caps :
  k_frac k prev s caps =
  match eat (lit ".") prev s with
  | Some (p, s') => rmatch (Plus_cls is_digit) p s' caps k
  | None => None
  end.
Proof. reflexivity. Qed.

Lemma k_ms_unfold prev s caps :
  k_ms k0 prev s caps =
  match eat (lit "ms") prev s with
  | Some (p, s') =>
      if xorb (is_word_opt p) (is_word_opt (head s')) then Some caps else None
  | None => None
  end.
Proof. reflexivity. Qed.

Lemma take_group (d rest : jsstring) :
  take (length (d ++ rest) - length rest) (d ++ rest) = d.
Proof.
  rewrite length_app. replace (length d + length rest - length rest)%nat with (length d) by lia.
  by rewrite take_app_length.
Qed.

Lemma ping_here_sound prev s caps :
  rmatch ping_regex prev s [] k0 = Some caps ->
  exists d1 d2 w post,
    s = lit "time=" ++ d1 ++ lit "." ++ d2 ++ w ++ lit "ms" ++ post
    /\ digits d1 /\ digits d2 /\ spaces w
    /\ is_word_opt prev = false /\ boundary_after post
    /\ caps = [d1 ++ lit "." ++ d2].
Proof.
  rewrite ping_here_unfold.
  destruct (xorb _ _) eqn:Hb; [|done].
  destruct (eat (lit "time=") prev s) as [[p1 s1]|] eqn:E1; [|done].
  apply eat_Some in E1 as [-> ->].
  rewrite plus_run by apply k_frac_fails_digit.
  destruct (run_of is_digit s1) as [|c1 d1'] eqn:D1; [done|].
  rewrite k_frac_unfold.
  destruct (eat (lit ".") _ (after_run is_digit s1)) as [[p3 s3]|] eqn:E3; [|done].
  apply eat_Some in E3 as [E3 ->].
  rewrite plus_run by apply k_group_fails_digit.
  destruct (run_of is_digit s3) as [|c2 d2'] eqn:D2; [done|].
  unfold k_group. rewrite k_sp_eq, k_ms_unfold.
  destruct (eat (lit "ms") _ _) as [[p6 s6]|] eqn:E6; [|done].
  apply eat_Some in E6 as [E6 ->].
  destruct (xorb _ (is_word_opt (head s6))) eqn:Hb2; [|done].
  intros [= <-].
  pose proof (run_split is_digit s1) as S1. rewrite D1, E3 in S1.
  pose proof (run_split is_digit s3) as S3. rewrite D2 in S3.
  pose proof (run_split is_space (after_run is_digit s3)) as S4. rewrite E6 in S4.
  exists (c1 :: d1'), (c2 :: d2'), (run_of is_space (after_run is_digit s3)), s6.
  split; [|split; [|split; [|split; [|split; [|split]]]]].
  - rewrite S1 at 1. rewrite S3 at 1. rewrite S4 at 1. reflexivity.
  - split; [done|]. rewrite <- D1. apply run_of_all.
  - split; [done|]. rewrite <- D2. apply run_of_all.
  - apply run_of_all.
  - simpl in Hb. by destruct (is_word_opt prev).
  - unfold boundary_after. unfold last_or in Hb2. simpl in Hb2.
    by destruct (is_word_opt (head s6)).
  - simpl app. f_equal.
    assert (s1 = ((c1 :: d1') ++ lit "." ++ c2 :: d2') ++ after_run is_digit s3) as Hs1.
    { rewrite S1 at 1. rewrite S3 at 1. by rewrite <- !(app_assoc (c1 :: d1')). }
    rewrite Hs1 at 1 2. by rewrite take_group.
Qed.

Lemma digits_run d rest :
  digits d -> stops_at is_digit rest ->
  exists c d', d = c :: d' /\ run_of is_digit (d ++ rest) = c :: d'
               /\ after_run is_digit (d ++ rest) = rest.
Proof.
  intros [Hne Hd] Hr. destruct d as [|c d']; [done|].
  exists c, d'. split; [done|]. by apply run_app.
Qed.

Lemma ping_here_complete prev d1 d2 w post :
  digits d1 -> digits d2 -> spaces w ->
  is_word_opt prev = false -> boundary_after post ->
  rmatch ping_regex prev
    (lit "time=" ++ d1 ++ lit "." ++ d2 ++ w ++ lit "ms" ++ post) [] k0
  = Some [d1 ++ lit "." ++ d2].
Proof.
  intros H1 H2 Hw Hp Hpost.
  rewrite ping_here_unfold, eat_app.
  change (head (lit "time=" ++ _)) with (Some 116).
  rewrite Hp. cbn [xorb is_word_opt]. change (is_word 116) with true. cbn iota.
  rewrite plus_run by apply k_frac_fails_digit.
  destruct (digits_run d1 (lit "." ++ d2 ++ w ++ lit "ms" ++ post) H1 eq_refl)
    as (c1 & d1' & E1 & -> & ->).
  rewrite k_frac_unfold, eat_app.
  rewrite plus_run by apply k_group_fails_digit.
  assert (stops_at is_digit (w ++ lit "ms" ++ post)) as Hst.
  { destruct w as [|c w']; [done|]. cbn [app stops_at].
    unfold spaces in Hw. cbn [forallb] in Hw.
    apply andb_true_iff in Hw as [Hc _].
    destruct (is_digit c) eqn:E; [|done].
    by rewrite (digit_not_space c E) in Hc. }
  destruct (digits_run d2 (w ++ lit "ms" ++ post) H2 Hst)
    as (c2 & d2' & E2 & -> & ->).
  unfold k_group. rewrite k_sp_eq, k_ms_unfold.
  destruct (run_app is_space w (lit "ms" ++ post) Hw eq_refl) as [-> ->].
  rewrite eat_app.
  change (last_or _ (lit "ms")) with (Some 115).
  cbn [is_word_opt]. change (is_word 115) with true.
  unfold boundary_after in Hpost. rewrite Hpost. cbn [xorb].
  cbn [app]. f_equal. f_equal.
  rewrite <- ?E1, <- ?E2.
  replace (d1 ++ lit "." ++ d2 ++ w ++ lit "ms" ++ post)
    with ((d1 ++ lit "." ++ d2) ++ w ++ lit "ms" ++ post)
    by (by rewrite <- !app_assoc).
  apply take_group.
Qed.

Lemma exec_from_sound r prev s caps :
  exec_from r prev s = Some caps ->
  exists pre s', s = pre ++ s'
    /\ rmatch r (last_or prev pre) s' [] k0 = Some caps.
Proof.
  revert prev. induction s as [|c s IH]; intros prev; cbn [exec_from].
  - destruct (rmatch r prev [] [] _) eqn:E; [|done].
    intros [= <-]. by exists [], [].
  - destruct (rmatch r prev (c :: s) [] _) eqn:E.
    + intros [= <-]. by exists [], (c :: s).
    + intros (pre & s' & -> & H)%IH.
      exists (c :: pre), s'. split; [done|]. by rewrite last_or_cons.
Qed.

Lemma exec_from_leftmost r prev pre s caps :
  (forall pre1 pre2, pre = pre1 ++ pre2 -> pre2 <> [] ->
     rmatch r (last_or prev pre1) (pre2 ++ s) [] k0 = None) ->
  rmatch r (last_or prev pre) s [] k0 = Some caps ->
  exec_from r prev (pre ++ s) = Some caps.
Proof.
  revert prev. induction pre as [|c pre IH]; intros prev Hno Hs.
  - cbn [app]. destruct s; cbn [exec_from]; unfold last_or in Hs;
      cbn in Hs; unfold k0 in Hs; by rewrite Hs.
  - cbn [app exec_from].
    pose proof (Hno [] (c :: pre) eq_refl) as H0.
    unfold last_or, k0 in H0. cbn [last app] in H0. rewrite H0 by done.
    apply IH.
    + intros pre1 pre2 -> Hne. rewrite <- (last_or_cons prev).
      by apply (Hno (c :: pre1) pre2).
    + by rewrite <- (last_or_cons prev).
Qed.

Lemma boundary_before_last_or pre :
  is_word_opt (last_or None pre) = false <-> boundary_before pre.
Proof. unfold boundary_before, last_or. by destruct (last pre). Qed.

Lemma decimal_match_here line pre num post :
  decimal_match line pre num post ->
  exists s, line = pre ++ s
    /\ rmatch ping_regex (last_or None pre) s [] k0 = Some [num].
Proof.
  intros (d1 & d2 & w & -> & H1 & H2 & Hw & Hpre & Hpost & ->).
  eexists. split; [reflexivity|].
  apply ping_here_complete; try done. by apply boundary_before_last_or.
Qed.

Lemma here_decimal_match pre s caps :
  rmatch ping_regex (last_or None pre) s [] k0 = Some caps ->
  exists num post, caps = [num] /\ decimal_match (pre ++ s) pre num post.
Proof.
  intros (d1 & d2 & w & post & -> & H1 & H2 & Hw & Hpre & Hpost & ->)%ping_here_sound.
  exists (d1 ++ lit "." ++ d2), post. split; [done|].
  exists d1, d2, w. repeat split; try done; try apply H1; try apply H2.
  by apply boundary_before_last_or.
Qed.

(** C4, as the specification states it, fails: [xtime=12.3ms] contains
    [time=12.3ms], and the parser, which asks for a word boundary before
    [time], returns no value for it. *)
Lemma parse_line_not_spec : ~ spec_line_parser parse_line.
Proof.
  intros [H _].
  specialize (H (lit "xtime=12.3ms") (lit "12.3")).
  assert (parse_line (lit "xtime=12.3ms") = None) as E by (vm_compute; reflexivity).
  rewrite H in E; [discriminate| |].
  - right. exists (lit "12"), (lit "3"). repeat split; discriminate.
  - exists (lit "x"), [], []. split; reflexivity.
Qed.

(** C4, amended.  The parser is a total function.  When the leftmost
    occurrence of [time=<digits>(.<digits>)?\s*ms] between word boundaries
    has a decimal number, the parser returns the text of that number; a
    value it returns is always the number of such an occurrence; and a line
    with no such occurrence is unresolved. *)
Theorem parse_line_amended :
  (forall line pre num post,
      decimal_match line pre num post ->
      (forall pre' num' post',
          number_match line pre' num' post' -> (length pre <= length pre')%nat) ->
      parse_line line = Some num)
  /\ (forall line num,
        parse_line line = Some num ->
        exists pre post, number_match line pre num post)
  /\ (forall line,
        (forall pre num post, ~ number_match line pre num post) ->
        parse_line line = None).
Proof.
  assert (forall line num, parse_line line = Some num ->
            exists pre post, decimal_match line pre num post) as Hsound.
  { intros line num. unfold parse_line, exec.
    destruct (exec_from ping_regex None line) as [caps|] eqn:E; [|done].
    apply exec_from_sound in E as (pre & s & -> & E).
    apply here_decimal_match in E as (n & post & -> & Hm).
    intros [= <-]. by exists pre, post. }
  split; [|split].
  - intros line pre num post Hm Hmin.
    destruct (decimal_match_here _ _ _ _ Hm) as (s & -> & Hs).
    unfold parse_line, exec.
    rewrite (exec_from_leftmost ping_regex None pre s [num]); [done| |done].
    intros pre1 pre2 -> Hne.
    destruct (rmatch ping_regex (last_or None pre1) (pre2 ++ s) [] k0)
      as [caps|] eqn:E; [|done].
    apply here_decimal_match in E as (n & post' & _ & Hm').
    rewrite app_assoc in Hm'.
    specialize (Hmin pre1 n post' (or_introl Hm')).
    rewrite length_app in Hmin. destruct pre2; [done|]. simpl in Hmin. lia.
  - intros line num (pre & post & Hm)%Hsound. exists pre, post. by left.
  - intros line Hno. destruct (parse_line line) as [num|] eqn:E; [|done].
    apply Hsound in E as (pre & post & Hm).
    destruct (Hno pre num post). by left.
Qed.

Lemma parse_line_amended_witness :
  (decimal_match (lit "time=12.3ms") [] (lit "12.3") []
   /\ parse_line (lit "time=12.3ms") = Some (lit "12.3"))
  /\ (exists pre post,
        number_match (lit "time=12.3ms") pre (lit "12.3") post)
  /\ ((forall pre num post, ~ number_match [] pre num post)
      /\ parse_line [] = None).
Proof.
  assert (decimal_match (lit "time=12.3ms") [] (lit "12.3") []) as Hm.
  { exists (lit "12"), (lit "3"), []. repeat split; discriminate. }
  assert (parse_line (lit "time=12.3ms") = Some (lit "12.3")) as Hp.
  { apply (proj1 parse_line_amended (lit "time=12.3ms") [] (lit "12.3") [] Hm).
    intros. simpl. lia. }
  assert (forall pre num post, ~ number_match [] pre num post) as Hno.
  { intros pre num post [(d1 & d2 & w & H & _)|(w & H & _)];
      apply (f_equal length) in H; rewrite !length_app in H;
      simpl in H; lia. }
  split; [exact (conj Hm Hp)|]. split.
  - exact (proj1 (proj2 parse_line_amended) _ _ Hp).
  - exact (conj Hno (proj2 (proj2 parse_line_amended) [] Hno)).
Defined.

(** * Rendering *)

Lemma set_ping_val_eq val st :
  _set_ping_val val st
  = (tt, set_label (label_text (title st) val) st,
     [ASetLabel (label_text (title st) val)]).
Proof. reflexivity. Qed.

(** C9, as the specification states it, fails: with the title [ping] an
    unresolved sample is rendered [ping N/A], with the space, and not
    [pingN/A]. *)
Lemma label_text_not_spec :
  ~ (forall t val, label_text (Some t) val = spec_label_text t val).
Proof. intros H. specialize (H (lit "ping") None). discriminate H. Qed.

(** C9, amended.  Every sample forwarded by the loop is rendered by one
    call of [set_applet_label]: a title that is set and not empty is followed
    by a space in both renderings, [<title> <value> ms] and [<title> N/A];
    without a title the label is [<value> ms] or [N/A]. *)
Theorem label_text_amended :
  (forall st val,
      (_set_ping_val val st).2 = [ASetLabel (label_text (title st) val)]
      /\ label (_set_ping_val val st).1.2 = label_text (title st) val)
  /\ (forall t v, t <> [] ->
        label_text (Some t) (Some v) = t ++ lit " " ++ v ++ lit " ms")
  /\ (forall t, t <> [] ->
        label_text (Some t) None = t ++ lit " " ++ lit "N/A")
  /\ (forall v,
        label_text (Some []) (Some v) = v ++ lit " ms"
        /\ label_text None (Some v) = v ++ lit " ms")
  /\ label_text (Some []) None = lit "N/A"
  /\ label_text None None = lit "N/A".
Proof.
  split; [|split; [|split; [|split; [|split]]]]; try done.
  - intros t v Ht. destruct t as [|c t]; [done|].
    unfold label_text. cbn [title_prefix value_text]. by rewrite <- !app_assoc.
  - intros t Ht. destruct t as [|c t]; [done|].
    unfold label_text. cbn [title_prefix value_text]. by rewrite <- !app_assoc.
Qed.

Lemma label_text_amended_witness :
  label_text (Some (lit "ping")) (Some (lit "12.3")) = lit "ping 12.3 ms"
  /\ label_text (Some (lit "ping")) None = lit "ping N/A".
Proof.
  split.
  - apply (proj1 (proj2 label_text_amended) (lit "ping") (lit "12.3")). discriminate.
  - apply (proj1 (proj2 (proj2 label_text_amended)) (lit "ping")). discriminate.
Defined.

(** * The constructor *)

(** C10, as the specification states it, fails: with the title [dns] the
    label after the constructor is [dns N/A], with the space, and not
    [dnsN/A]. *)
Lemma construct_label_not_spec :
  label (construct (Some (lit "dns")) None 5).1 = lit "dns N/A"
  /\ label (construct (Some (lit "dns")) None 5).1
     <> spec_label_text (lit "dns") None.
Proof. split; [reflexivity|discriminate]. Qed.

(** C10, amended.  Right after the constructor the label is [N/A] when no
    title or an empty title is configured, and otherwise the title, a space
    and [N/A]; the tooltip is the configured host or the empty string; no
    session exists, and the promise in [_stoppedPromise] is fulfilled, so
    that a call of [_stop] in this state ends in the same turn, fulfilled,
    and does nothing else. *)
Theorem construct_initial (t h : option jsstring) (i : N) :
  let st := (construct t h i).1 in
  label st = match t with
             | Some (c :: t') => (c :: t') ++ lit " " ++ lit "N/A"
             | _ => lit "N/A"
             end
  /\ tooltip st = match h with Some s => s | None => [] end
  /\ (construct t h i).2
     = [ASetTooltip (tooltip st); ASetLabel (label st)]
  /\ _ping st = None /\ gens st = [] /\ stops st = []
  /\ promises st !! _stoppedPromise st = Some (PSettled Fulfilled)
  /\ _stop false st = (tt, set_calls 1 st, [AStopSettled 0 Fulfilled]).
Proof.
  intros st. split; [|by destruct h].
  assert (label st = label_text t None) as -> by (by destruct h).
  destruct t as [[|c t']|]; try done.
  unfold label_text. cbn [title_prefix value_text]. by rewrite <- app_assoc.
Qed.

(** * The main loop seen from one session *)

Lemma bind_eq {A B : Type} (m : M A) (f : A -> M B) st :
  (m ≫= f) st =
  (((f (m st).1.1) (m st).1.2).1.1,
   ((f (m st).1.1) (m st).1.2).1.2,
   (m st).2 ++ ((f (m st).1.1) (m st).1.2).2).
Proof.
  unfold mbind, M_bind.
  destruct (m st) as [[x st1] o1]. cbn [fst snd].
  by destruct (f x st1) as [[y st2] o2].
Qed.

Lemma collect_cons_eq {A B : Type} (x : A) (l : list A)
    (f : A -> M (list B)) st :
  collect (x :: l) f st
  = ((f x st).1.1 ++ (collect l f (f x st).1.2).1.1,
     (collect l f (f x st).1.2).1.2,
     (f x st).2 ++ (collect l f (f x st).1.2).2).
Proof.
  cbn [collect]. rewrite bind_eq, bind_eq. cbn [mret M_ret fst snd].
  by rewrite app_nil_r.
Qed.

(** The jobs a completing generator leaves behind. *)
Lemma answers_eq r q c st :
  (ks ← answer r c;
   ks' ← collect q (fun r => answer r CReturn);
   after_stop (ks ++ ks')) st
  = (tt,
     (after_stop
        ((answer r c st).1.1
         ++ (collect q (fun r => answer r CReturn) (answer r c st).1.2).1.1)
        (collect q (fun r => answer r CReturn) (answer r c st).1.2).1.2).1.2,
     (answer r c st).2
     ++ (collect q (fun r => answer r CReturn) (answer r c st).1.2).2
     ++ (after_stop
           ((answer r c st).1.1
            ++ (collect q (fun r => answer r CReturn)
                  (answer r c st).1.2).1.1)
           (collect q (fun r => answer r CReturn) (answer r c st).1.2).1.2).2).
Proof.
  rewrite bind_eq, bind_eq. cbn [fst snd].
  by destruct (after_stop _ _) as [[[] ?] ?].
Qed.

Lemma proto_trace_app g tr1 tr2 :
  proto_trace g (tr1 ++ tr2) = proto_trace g tr1 ++ proto_trace g tr2.
Proof. apply List.filter_app. Qed.

Lemma quiet_at_ret g {A : Type} (x : A) : quiet_at g (mret x : M A).
Proof. intros st. split; [done|by left]. Qed.

Lemma quiet_at_bind g {A B : Type} (m : M A) (f : A -> M B) :
  quiet_at g m -> (forall x, quiet_at g (f x)) -> quiet_at g (m ≫= f).
Proof.
  intros Hm Hf st. rewrite bind_eq. cbn [fst snd].
  destruct (Hm st) as [Hm1 Hm2].
  destruct (Hf (m st).1.1 (m st).1.2) as [Hf1 Hf2].
  split.
  - by rewrite proto_trace_app, Hm1, Hf1.
  - destruct Hm2 as [Hm2|[Hm2 Hm3]], Hf2 as [Hf2|[Hf2 Hf3]].
    + left. congruence.
    + right. split; congruence.
    + right. split; congruence.
    + congruence.
Qed.

Lemma quiet_at_emit g a : proto g a = false -> quiet_at g (emit a).
Proof.
  intros H st. split; [|by left].
  unfold emit, proto_trace. cbn. by rewrite H.
Qed.

Lemma quiet_at_modify g (f : state -> state) :
  (forall st, gens (f st) = gens st) -> quiet_at g (modify f).
Proof.
  intros H st. split; [done|]. left. unfold view, modify. cbn. by rewrite H.
Qed.

Lemma quiet_at_get_bind g {B : Type} (f : state -> M B) :
  (forall st, quiet_at g (f st)) -> quiet_at g (get ≫= f).
Proof. intros H. apply quiet_at_bind; [|done]. intros st. split; [done|by left]. Qed.

Lemma quiet_at_for_each g {A : Type} (l : list A) (f : A -> M unit) :
  (forall x, quiet_at g (f x)) -> quiet_at g (for_each l f).
Proof.
  intros H. induction l as [|x l IH]; cbn [for_each].
  - apply quiet_at_ret.
  - apply quiet_at_bind; [apply H|]. by intros _.
Qed.

Lemma view_app_new g st l :
  Forall (fun x => pc x = PRead) l ->
  let v := match (gens st ++ l) !! g with Some x => Some (pc x) | None => None end in
  v = view g st \/ (view g st = None /\ v = Some PRead).
Proof.
  intros Hl. unfold view. cbn zeta.
  destruct (gens st !! g) as [x|] eqn:E.
  - left. by rewrite (lookup_app_l_Some _ _ _ _ E).
  - destruct ((gens st ++ l) !! g) as [y|] eqn:E2; [|by left].
    right. split; [done|].
    apply lookup_app_Some in E2 as [E2|[_ E2]]; [congruence|].
    apply list_elem_of_lookup_2 in E2.
    rewrite Forall_forall in Hl. by rewrite (Hl y E2).
Qed.

Lemma quiet_start : quiet _start.
Proof.
  intros g st. unfold _start.
  rewrite bind_eq. cbn [get fst snd app].
  destruct (_ping st); [split; [done|by left]|].
  split; [done|].
  apply (view_app_new g st [Gen PRead [RNext] false]).
  by constructor.
Qed.

Lemma quiet_at_collect g {A B : Type} (l : list A) (f : A -> M (list B)) :
  (forall x, quiet_at g (f x)) -> quiet_at g (collect l f).
Proof.
  intros H. induction l as [|x l IH]; cbn [collect].
  - apply quiet_at_ret.
  - apply quiet_at_bind; [apply H|]. intros r.
    apply quiet_at_bind; [apply IH|]. intros rs. apply quiet_at_ret.
Qed.

Lemma quiet_after_stop ks : quiet (after_stop ks).
Proof.
  intros g. unfold after_stop. apply quiet_at_for_each. intros _.
  apply quiet_start.
Qed.

Lemma quiet_finish_call c o : quiet (finish_call c o).
Proof.
  intros g. unfold finish_call.
  destruct (sc_guarded c).
  - apply quiet_at_bind.
    { destruct o; [apply quiet_at_ret|by apply quiet_at_emit]. }
    intros _. apply quiet_at_bind; [by apply quiet_at_emit|].
    intros _. apply quiet_at_ret.
  - apply quiet_at_bind; [by apply quiet_at_emit|]. intros _.
    apply quiet_at_ret.
Qed.

Lemma quiet_settle p o : quiet (settle p o).
Proof.
  intros g. unfold settle.
  apply quiet_at_get_bind. intros st.
  apply quiet_at_bind; [by apply quiet_at_modify|]. intros _.
  apply quiet_at_bind; [by apply quiet_at_modify|]. intros _.
  apply quiet_at_collect. intros c. apply quiet_finish_call.
Qed.

Lemma quiet_answer r c : quiet (answer r c).
Proof.
  intros g. destruct r; cbn [answer].
  - apply quiet_at_bind.
    { destruct c; [apply quiet_at_ret|by apply quiet_at_emit]. }
    intros _. apply quiet_at_bind; [by apply quiet_at_emit|].
    intros _. apply quiet_at_ret.
  - apply quiet_settle.
Qed.

Lemma quiet_await_in_call c : quiet (await_in_call c).
Proof.
  intros g. unfold await_in_call.
  apply quiet_at_get_bind. intros st.
  destruct (promises st !! sc_promise c) as [[|o]|];
    try (by apply quiet_at_modify).
  apply quiet_at_bind; [apply quiet_finish_call|]. intros ks.
  apply quiet_after_stop.
Qed.

Lemma quiet_set_ping_val v : quiet (_set_ping_val v).
Proof.
  intros g. unfold _set_ping_val, set_applet_label.
  apply quiet_at_get_bind. intros st.
  apply quiet_at_bind; [by apply quiet_at_emit|]. intros _.
  by apply quiet_at_modify.
Qed.

Lemma quiet_at_keeps g {A : Type} (m : M A) st p :
  quiet_at g m -> view g st = Some p ->
  view g (m st).1.2 = Some p /\ proto_trace g (m st).2 = [].
Proof.
  intros Hq Hv. destruct (Hq st) as [H1 [H2|[H2 _]]]; [|congruence].
  split; [congruence|done].
Qed.

Lemma view_Some g st x : gens st !! g = Some x -> view g st = Some (pc x).
Proof. unfold view. by intros ->. Qed.

Lemma view_set_gens_eq g y st :
  (g < length (gens st))%nat ->
  view g (set_gens (<[g := y]> (gens st)) st) = Some (pc y).
Proof. intros H. unfold view, set_gens. cbn [gens]. by rewrite list_lookup_insert_eq. Qed.

Lemma view_set_gens_ne g g0 y st :
  g <> g0 -> view g (set_gens (<[g0 := y]> (gens st)) st) = view g st.
Proof. intros H. unfold view, set_gens. cbn [gens]. by rewrite list_lookup_insert_ne. Qed.

Lemma quiet_at_set_gen_ne g g0 y : g <> g0 -> quiet_at g (set_gen g0 y).
Proof.
  intros H st. split; [done|]. left. by apply view_set_gens_ne.
Qed.

(** Replacing a generator by one at the same point changes no view. *)
Lemma quiet_at_set_gen_same g g0 y :
  (forall st x, gens st !! g0 = Some x -> pc y = pc x) ->
  quiet_at g (set_gen g0 y).
Proof.
  intros H st. split; [done|]. left.
  destruct (decide (g = g0)) as [->|Hne]; [|by apply view_set_gens_ne].
  unfold set_gen, modify. cbn [fst snd].
  destruct (gens st !! g0) as [x|] eqn:E.
  - rewrite view_set_gens_eq by by eapply lookup_lt_Some.
    rewrite (view_Some _ _ _ E). f_equal. by eapply H.
  - unfold view, set_gens. cbn [gens]. rewrite list_insert_ge; [done|].
    by apply lookup_ge_None.
Qed.

Lemma quiet_at_set_pc_ne g g0 p : g <> g0 -> quiet_at g (set_pc g0 p).
Proof.
  intros H. unfold set_pc. apply quiet_at_get_bind. intros st.
  destruct (gens st !! g0); [by apply quiet_at_set_gen_ne|apply quiet_at_ret].
Qed.

Lemma set_pc_eq g p st x :
  gens st !! g = Some x ->
  set_pc g p st
  = (tt, set_gens (<[g := Gen p (queue x) (returned x)]> (gens st)) st, []).
Proof. intros E. unfold set_pc. rewrite bind_eq. cbn [get fst snd]. by rewrite E. Qed.

Lemma quiet_gen_return g0 : quiet (gen_return g0).
Proof.
  intros g st. unfold gen_return.
  rewrite bind_eq. cbn [get fst snd].
  destruct (gens st !! g0) as [[p q r]|] eqn:E.
  - assert (forall q' (ps : list pstate),
      let m := (modify (fun st => set_promises (promises st ++ ps) st) ;;
                set_gen g0 (Gen p q' true) ;; mret (length (promises st)) : M nat) in
      proto_trace g (m st).2 = [] /\
      (view g (m st).1.2 = view g st \/ view g st = None /\ view g (m st).1.2 = Some PRead))
      as Hm.
    { intros q' ps m. split; [done|]. left. subst m.
      rewrite !bind_eq. cbn [modify set_gen mret M_ret fst snd].
      unfold view, set_gens, set_promises. cbn [gens].
      destruct (decide (g = g0)) as [->|Hne].
      - rewrite list_lookup_insert_eq by by eapply lookup_lt_Some.
        by rewrite E.
      - by rewrite list_lookup_insert_ne. }
    destruct p; apply Hm.
  - split; [done|by left].
Qed.

Lemma quiet_stop b : quiet (_stop b).
Proof.
  intros g. unfold _stop.
  apply quiet_at_get_bind. intros st.
  apply quiet_at_bind; [by apply quiet_at_modify|]. intros _.
  destruct (_ping st) as [g0|]; [|apply quiet_await_in_call].
  apply quiet_at_bind; [by apply quiet_at_modify|]. intros _.
  apply quiet_at_bind; [apply quiet_gen_return|]. intros p.
  apply quiet_at_bind; [by apply quiet_at_modify|]. intros _.
  apply quiet_await_in_call.
Qed.

Lemma quiet_vtrans g e {A : Type} (m : M A) st :
  quiet_at g m ->
  vtrans g e (view g st) (view g (m st).1.2) (proto_trace g (m st).2).
Proof.
  intros Hq. destruct (Hq st) as [-> [->|[-> ->]]]; constructor.
Qed.

Lemma proto_ne g g0 a :
  g <> g0 ->
  match a with
  | ACancelRead g' | ACloseStart g' | ASendSignal g' _ | AForceExit g'
  | ATimerAdd g' _ | ATimerCancel g' | ATimerRemove g' | AWaitStart g' _ =>
      g' = g0
  | _ => True
  end -> proto g a = false.
Proof.
  intros Hne. destruct a; cbn [proto]; try done; intros ->;
    by apply Nat.eqb_neq.
Qed.

Lemma quiet_at_emit_ne g g0 a :
  g <> g0 ->
  match a with
  | ACancelRead g' | ACloseStart g' | ASendSignal g' _ | AForceExit g'
  | ATimerAdd g' _ | ATimerCancel g' | ATimerRemove g' | AWaitStart g' _ =>
      g' = g0
  | _ => True
  end -> quiet_at g (emit a).
Proof. intros Hne Ha. apply quiet_at_emit. by eapply proto_ne. Qed.

Lemma quiet_at_enter_finally_ne g g0 c :
  g <> g0 -> quiet_at g (enter_finally g0 c).
Proof.
  intros Hne. unfold enter_finally.
  apply quiet_at_bind; [by eapply quiet_at_emit_ne|]. intros _.
  apply quiet_at_bind; [by eapply quiet_at_emit_ne|]. intros _.
  by apply quiet_at_set_pc_ne.
Qed.

Lemma quiet_answers r q c :
  quiet (ks ← answer r c;
         ks' ← collect q (fun r => answer r CReturn);
         after_stop (ks ++ ks')).
Proof.
  intros g.
  apply quiet_at_bind; [apply quiet_answer|]. intros ks.
  apply quiet_at_bind.
  { apply quiet_at_collect. intros r'. apply quiet_answer. }
  intros ks'. apply quiet_after_stop.
Qed.

Lemma quiet_at_complete_ne g g0 c :
  g <> g0 -> quiet_at g (complete g0 c).
Proof.
  intros Hne. unfold complete.
  apply quiet_at_get_bind. intros st.
  destruct (gens st !! g0) as [x|]; [|apply quiet_at_ret].
  apply quiet_at_bind; [by apply quiet_at_set_gen_ne|]. intros _.
  destruct (queue x) as [|r q]; [apply quiet_at_ret|].
  apply quiet_answers.
Qed.

Lemma complete_view g c st x :
  gens st !! g = Some x ->
  view g (complete g c st).1.2 = Some PDone
  /\ proto_trace g (complete g c st).2 = [].
Proof.
  intros E. unfold complete. rewrite bind_eq. cbn [get fst snd]. rewrite E.
  rewrite bind_eq. cbn [set_gen modify fst snd app].
  apply quiet_at_keeps.
  - destruct (queue x) as [|r q]; [apply quiet_at_ret|].
    apply quiet_answers.
  - rewrite view_set_gens_eq; [done|]. by eapply lookup_lt_Some.
Qed.

Lemma enter_finally_view g c st x :
  gens st !! g = Some x ->
  view g (enter_finally g c st).1.2 = Some (PClose c)
  /\ proto_trace g (enter_finally g c st).2 = pre_close g.
Proof.
  intros E. unfold enter_finally. rewrite !bind_eq.
  cbn [emit fst snd app]. rewrite (set_pc_eq _ _ _ _ E). cbn [fst snd].
  split.
  - rewrite view_set_gens_eq; [done|]. by eapply lookup_lt_Some.
  - unfold proto_trace. cbn. by rewrite Nat.eqb_refl.
Qed.

Lemma on_yield_vtrans_eq g line v st q ret :
  gens st !! g = Some (Gen PRead q ret) ->
  vtrans g (ERead g (RLine line)) (Some PRead)
    (view g (on_yield g v st).1.2) (proto_trace g (on_yield g v st).2).
Proof.
  intros E. unfold on_yield. rewrite bind_eq. cbn [get fst snd app]. rewrite E.
  assert (view g st = Some PRead) as Hv by (by rewrite (view_Some _ _ _ E)).
  destruct q as [|[|p] q]; cbn beta iota;
    try (rewrite <- Hv; apply VT_same).
  rewrite !bind_eq. cbn [emit fst snd app]. rewrite set_ping_val_eq.
  cbn [fst snd set_gen modify app].
  set (st1 := set_gens _ _).
  assert (gens st1 !! g = Some (Gen PRead (q ++ [RNext]) ret)) as E1.
  { subst st1. unfold set_gens. cbn [gens set_label].
    apply list_lookup_insert_eq. by eapply lookup_lt_Some. }
  assert (view g st1 = Some PRead) as Hv1 by (by rewrite (view_Some _ _ _ E1)).
  destruct q as [|[|p] q'].
  - cbn [emit fst snd app]. rewrite Hv1. apply VT_same.
  - cbn [emit fst snd app]. rewrite Hv1. apply VT_same.
  - destruct (enter_finally_view g CReturn st1 _ E1) as [-> H2].
    unfold proto_trace in *. cbn [List.filter proto]. rewrite H2.
    apply VT_step. constructor.
Qed.

Lemma quiet_at_on_yield_ne g g0 v : g <> g0 -> quiet_at g (on_yield g0 v).
Proof.
  intros Hne. unfold on_yield. apply quiet_at_get_bind. intros st.
  destruct (gens st !! g0) as [[p [|[|r] q] ret]|]; try apply quiet_at_ret.
  apply quiet_at_bind; [by apply quiet_at_emit|]. intros _.
  apply quiet_at_bind; [apply quiet_set_ping_val|]. intros _.
  apply quiet_at_bind; [by apply quiet_at_set_gen_ne|]. intros _.
  destruct q as [|[|r] q]; try (by apply quiet_at_emit).
  by apply quiet_at_enter_finally_ne.
Qed.

Lemma quiet_at_on_read_ne g g0 r : g <> g0 -> quiet_at g (on_read g0 r).
Proof.
  intros Hne. unfold on_read. apply quiet_at_get_bind. intros st.
  destruct (gens st !! g0) as [[[] q ret]|]; try apply quiet_at_ret.
  destruct r.
  - apply quiet_at_bind; [by apply quiet_at_emit|]. intros _.
    by apply quiet_at_on_yield_ne.
  - by apply quiet_at_enter_finally_ne.
  - by apply quiet_at_enter_finally_ne.
Qed.

Ltac quiet_ne_steps Hne :=
  repeat first
    [ apply quiet_at_ret
    | apply (quiet_at_complete_ne _ _ _ Hne)
    | apply (quiet_at_set_pc_ne _ _ _ Hne)
    | apply quiet_at_emit_ne with (1 := Hne); done
    | apply quiet_at_bind; [|intros _] ].

Lemma quiet_at_on_close_ne g g0 r : g <> g0 -> quiet_at g (on_close g0 r).
Proof.
  intros Hne. unfold on_close, wait_proc_with_timeout_begin.
  apply quiet_at_get_bind. intros st.
  destruct (gens st !! g0) as [[[] q ret]|]; try apply quiet_at_ret.
  destruct r as [[pid|]|]; quiet_ne_steps Hne.
Qed.

Lemma quiet_at_on_timer_ne g g0 : g <> g0 -> quiet_at g (on_timer g0).
Proof.
  intros Hne. unfold on_timer.
  apply quiet_at_get_bind. intros st.
  destruct (gens st !! g0) as [[[| | |? ? []|? []|] q ret]|];
    quiet_ne_steps Hne.
Qed.

Lemma quiet_at_on_wait_ne g g0 w : g <> g0 -> quiet_at g (on_wait g0 w).
Proof.
  intros Hne. unfold on_wait, wait_proc_with_timeout_begin,
    wait_proc_with_timeout_end.
  apply quiet_at_get_bind. intros st.
  destruct (gens st !! g0) as [[[| | |? ? []|? []|] q ret]|];
    destruct w; quiet_ne_steps Hne.
Qed.

Lemma on_read_vtrans g0 r st g :
  vtrans g (ERead g0 r) (view g st)
    (view g (on_read g0 r st).1.2) (proto_trace g (on_read g0 r st).2).
Proof.
  destruct (decide (g = g0)) as [->|Hne];
    [|by apply quiet_vtrans, quiet_at_on_read_ne].
  unfold on_read. rewrite bind_eq. cbn [get fst snd app].
  destruct (gens st !! g0) as [[p q ret]|] eqn:E; [|apply VT_same].
  assert (view g0 st = Some p) as Hv by (by rewrite (view_Some _ _ _ E)).
  rewrite Hv.
  destruct p; try (rewrite <- Hv; apply VT_same).
  destruct r.
  - rewrite bind_eq. cbn [emit fst snd app].
    change (proto_trace g0 (ALog (LLine line) :: ?x)) with (proto_trace g0 x).
    by eapply on_yield_vtrans_eq.
  - destruct (enter_finally_view g0 CReturn st _ E) as [-> ->].
    apply VT_step. constructor.
  - destruct (enter_finally_view g0 CThrow st _ E) as [-> ->].
    apply VT_step. constructor.
Qed.

Lemma set_pc_view g p st x :
  gens st !! g = Some x ->
  view g (set_pc g p st).1.2 = Some p /\ proto_trace g (set_pc g p st).2 = [].
Proof.
  intros E. rewrite (set_pc_eq _ _ _ _ E). cbn [fst snd]. split; [|done].
  rewrite view_set_gens_eq; [done|]. by eapply lookup_lt_Some.
Qed.

(** Run the emits in front of the last operation of a handler, and filter
    the protocol actions of the target session. *)
Ltac run_emits :=
  unfold wait_proc_with_timeout_begin, wait_proc_with_timeout_end;
  repeat (rewrite bind_eq; cbn [emit fst snd app]);
  unfold proto_trace; cbn [List.filter proto]; rewrite ?Nat.eqb_refl;
  fold (proto_trace).

Ltac end_set_pc E :=
  match goal with
  | |- context [set_pc ?g ?p ?st] =>
      let H1 := fresh in let H2 := fresh in
      destruct (set_pc_view g p st _ E) as [H1 H2];
      rewrite H1; unfold proto_trace in H2 |- *; rewrite H2
  end.

Ltac end_complete E :=
  match goal with
  | |- context [complete ?g ?c ?st] =>
      let H1 := fresh in let H2 := fresh in
      destruct (complete_view g c st _ E) as [H1 H2];
      rewrite H1; unfold proto_trace in H2 |- *; rewrite H2
  end.

Lemma on_close_vtrans g0 r st g :
  vtrans g (EClose g0 r) (view g st)
    (view g (on_close g0 r st).1.2) (proto_trace g (on_close g0 r st).2).
Proof.
  destruct (decide (g = g0)) as [->|Hne];
    [|by apply quiet_vtrans, quiet_at_on_close_ne].
  unfold on_close. rewrite bind_eq. cbn [get fst snd app].
  destruct (gens st !! g0) as [[p q ret]|] eqn:E; [|apply VT_same].
  assert (view g0 st = Some p) as Hv by (by rewrite (view_Some _ _ _ E)).
  rewrite Hv.
  destruct p; try (rewrite <- Hv; apply VT_same).
  destruct r as [[pid|]|]; run_emits.
  - end_set_pc E. apply VT_step. constructor.
  - end_set_pc E. apply VT_step. constructor.
  - end_complete E. apply VT_step. constructor.
Qed.

Lemma on_timer_vtrans g0 st g :
  vtrans g (ETimer g0) (view g st)
    (view g (on_timer g0 st).1.2) (proto_trace g (on_timer g0 st).2).
Proof.
  destruct (decide (g = g0)) as [->|Hne];
    [|by apply quiet_vtrans, quiet_at_on_timer_ne].
  unfold on_timer. rewrite bind_eq. cbn [get fst snd app].
  destruct (gens st !! g0) as [[p q ret]|] eqn:E; [|apply VT_same].
  assert (view g0 st = Some p) as Hv by (by rewrite (view_Some _ _ _ E)).
  rewrite Hv.
  destruct p as [| | |c pid []|c []|]; try (rewrite <- Hv; apply VT_same);
    run_emits; end_set_pc E; apply VT_step; constructor.
Qed.

Lemma on_wait_vtrans g0 w st g :
  vtrans g (EWait g0 w) (view g st)
    (view g (on_wait g0 w st).1.2) (proto_trace g (on_wait g0 w st).2).
Proof.
  destruct (decide (g = g0)) as [->|Hne];
    [|by apply quiet_vtrans, quiet_at_on_wait_ne].
  unfold on_wait. rewrite bind_eq. cbn [get fst snd app].
  destruct (gens st !! g0) as [[p q ret]|] eqn:E; [|apply VT_same].
  assert (view g0 st = Some p) as Hv by (by rewrite (view_Some _ _ _ E)).
  rewrite Hv.
  destruct p as [| | |c pid []|c []|], w;
    try (rewrite <- Hv; apply VT_same);
    run_emits;
    first [ end_complete E | end_set_pc E ];
    apply VT_step; by constructor.
Qed.

(** Every turn of the main loop is a move of the session's automaton, for
    every session. *)
Lemma step_vtrans e st g :
  vtrans g e (view g st) (view g (step e st).1) (proto_trace g (step e st).2).
Proof.
  assert (forall (m : M unit),
            (let '(_, st', acts) := m st in (st', acts))
            = ((m st).1.2, (m st).2)) as Hm
    by (intros m; by destruct (m st) as [[[] ?] ?]).
  unfold step. rewrite Hm. cbn [fst snd].
  destruct e; cbn [handle].
  - apply quiet_vtrans. unfold on_applet_added_to_panel.
    apply quiet_at_bind; [by apply quiet_at_modify|]. intros _. apply quiet_start.
  - apply quiet_vtrans. unfold on_applet_removed_from_panel.
    apply quiet_at_bind; [by apply quiet_at_modify|]. intros _. apply quiet_stop.
  - apply quiet_vtrans. unfold on_settings_changed, set_applet_tooltip.
    apply quiet_at_bind; [by apply quiet_at_modify|]. intros _.
    apply quiet_at_bind.
    { apply quiet_at_bind; [by apply quiet_at_emit|]. intros _.
      by apply quiet_at_modify. }
    intros _. apply quiet_at_get_bind. intros st'.
    destruct (_is_in_panel st'); [|apply quiet_at_ret].
    destruct (_ping st').
    + apply quiet_at_bind; [by apply quiet_at_emit|]. intros _. apply quiet_stop.
    + apply quiet_at_bind; [by apply quiet_at_emit|]. intros _. apply quiet_start.
  - apply on_read_vtrans.
  - apply on_close_vtrans.
  - apply on_timer_vtrans.
  - apply on_wait_vtrans.
Qed.

(** * Runs *)

Lemma step_eq e st : step e st = ((handle e st).1.2, (handle e st).2).
Proof. unfold step. by destruct (handle e st) as [[[] ?] ?]. Qed.

Lemma run_cons e es st :
  run (e :: es) st
  = ((run es (step e st).1).1, (step e st).2 ++ (run es (step e st).1).2).
Proof.
  cbn [run]. destruct (step e st) as [st1 a1]. cbn [fst snd].
  by destruct (run es st1) as [st2 a2].
Qed.

Lemma run_snoc es e st :
  run (es ++ [e]) st
  = ((step e (run es st).1).1, (run es st).2 ++ (step e (run es st).1).2).
Proof.
  revert st. induction es as [|e' es IH]; intros st.
  - cbn [app]. rewrite run_cons. cbn [run fst snd]. by rewrite app_nil_r.
  - cbn [app]. rewrite !run_cons, IH. cbn [fst snd]. by rewrite app_assoc.
Qed.

Lemma shape_ok_mono g es e p tr :
  shape_ok g es p tr -> shape_ok g (es ++ [e]) p tr.
Proof.
  destruct p; cbn [shape_ok]; try done.
  intros (f & -> & Hf). exists f. split; [done|].
  intros Hc. apply in_or_app. left. by apply Hf.
Qed.

Lemma proto_inv_step g es e st tr :
  proto_inv g es st tr ->
  proto_inv g (es ++ [e]) (step e st).1 (tr ++ (step e st).2).
Proof.
  unfold proto_inv. intros H. rewrite proto_trace_app.
  pose proof (step_vtrans e st g) as Hv.
  destruct Hv as [v| |p p' acts Hg].
  - rewrite app_nil_r. destruct v; [by apply shape_ok_mono|done].
  - by rewrite H.
  - destruct Hg; cbn [shape_ok] in *;
      lazymatch type of H with
      | ex _ => destruct H as [b1 H]
      | _ => idtac
      end; rewrite H.
    + done.
    + done.
    + done.
    + exists FCloseFailed. split; [by rewrite app_nil_r|].
      intros _. apply in_or_app. right. by left.
    + done.
    + done.
    + done.
    + exists b1. by destruct b1.
    + exists FOwn. split; [by rewrite app_nil_r|done].
    + exists (FTerm b). split; [by rewrite <- app_assoc|done].
    + exists b. by destruct b.
    + exists (FKill b1 b). split; [by rewrite <- app_assoc|done].
Qed.

Lemma proto_inv_run g t h i es :
  proto_inv g es (run_from_start t h i es).1 (run_from_start t h i es).2.
Proof.
  unfold run_from_start.
  induction es as [|e es IH] using rev_ind.
  - cbn [run fst snd]. unfold proto_inv, view. by destruct h.
  - rewrite run_snoc. cbn [fst snd]. by apply proto_inv_step.
Qed.

(** * The shutdown protocol *)










(** * The finalizer runs once *)











(** * A process that has exited on its own *)

Lemma faultless_ret {A : Type} (x : A) : faultless (mret x : M A).
Proof. by intros st. Qed.

Lemma faultless_bind {A B : Type} (m : M A) (f : A -> M B) :
  faultless m -> (forall x, faultless (f x)) -> faultless (m ≫= f).
Proof.
  intros Hm Hf st. rewrite bind_eq. cbn [snd].
  by rewrite List.filter_app, Hm, Hf.
Qed.

Lemma faultless_emit a : is_fault a = false -> faultless (emit a).
Proof. intros H st. cbn. by rewrite H. Qed.

Lemma faultless_modify f : faultless (modify f).
Proof. by intros st. Qed.

Lemma faultless_get_bind {B : Type} (f : state -> M B) :
  (forall st, faultless (f st)) -> faultless (get ≫= f).
Proof. intros H. apply faultless_bind; [by intros st|done]. Qed.

Lemma faultless_for_each {A : Type} (l : list A) (f : A -> M unit) :
  (forall x, faultless (f x)) -> faultless (for_each l f).
Proof.
  intros H. induction l as [|x l IH]; cbn [for_each].
  - apply faultless_ret.
  - apply faultless_bind; [apply H|]. by intros _.
Qed.

Lemma faultless_collect {A B : Type} (l : list A) (f : A -> M (list B)) :
  (forall x, faultless (f x)) -> faultless (collect l f).
Proof.
  intros H. induction l as [|x l IH]; cbn [collect].
  - apply faultless_ret.
  - apply faultless_bind; [apply H|]. intros r.
    apply faultless_bind; [apply IH|]. intros rs. apply faultless_ret.
Qed.

Ltac faultless_steps :=
  repeat lazymatch goal with
  | |- faultless (mret _) => apply faultless_ret
  | |- faultless skip => apply faultless_ret
  | |- faultless (modify _) => apply faultless_modify
  | |- faultless (emit _) => apply faultless_emit; reflexivity
  | |- faultless (get ≫= _) => apply faultless_get_bind; intros ?
  | |- faultless (_ ≫= _) => apply faultless_bind; [|intros ?]
  | |- _ => fail
  end.

Lemma faultless_start : faultless _start.
Proof.
  unfold _start. apply faultless_get_bind. intros st.
  destruct (_ping st); faultless_steps.
Qed.

Lemma faultless_after_stop ks : faultless (after_stop ks).
Proof.
  unfold after_stop. apply faultless_for_each. intros _.
  apply faultless_start.
Qed.

Lemma faultless_finish_call c : faultless (finish_call c Fulfilled).
Proof. unfold finish_call. destruct (sc_guarded c); faultless_steps. Qed.

Lemma faultless_settle p : faultless (settle p Fulfilled).
Proof.
  unfold settle. apply faultless_get_bind. intros st.
  apply faultless_bind; [apply faultless_modify|]. intros _.
  apply faultless_bind; [apply faultless_modify|]. intros _.
  apply faultless_collect. intros c. apply faultless_finish_call.
Qed.

Lemma faultless_answer r : faultless (answer r CReturn).
Proof. destruct r; cbn [answer]; [faultless_steps|apply faultless_settle]. Qed.

Lemma faultless_complete g : faultless (complete g CReturn).
Proof.
  unfold complete. apply faultless_get_bind. intros st.
  destruct (gens st !! g) as [x|]; [|apply faultless_ret].
  apply faultless_bind; [apply faultless_modify|]. intros _.
  destruct (queue x) as [|r q]; [apply faultless_ret|].
  apply faultless_bind; [apply faultless_answer|]. intros ks.
  apply faultless_bind.
  { apply faultless_collect. intros r'. apply faultless_answer. }
  intros ks'. apply faultless_after_stop.
Qed.

Lemma on_close_own_eq g c q r st :
  gens st !! g = Some (Gen (PClose c) q r) ->
  step (EClose g (CloseOk None)) st
  = (set_gens (<[g := Gen (PWaitOwn c) q r]> (gens st)) st,
     [ALog LExitedOwn; AWaitStart g false]).
Proof.
  intros E. rewrite step_eq. cbn [handle]. unfold on_close.
  rewrite bind_eq. cbn [get fst snd app]. rewrite E.
  repeat (rewrite bind_eq; cbn [emit fst snd app]).
  by rewrite (set_pc_eq _ _ _ _ E).
Qed.

Lemma own_wait_trace g t h i es :
  In (AWaitStart g false) (run_from_start t h i es).2 ->
  proto_trace g (run_from_start t h i es).2 = own_exit g.
Proof.
  intros Hin.
  assert (In (AWaitStart g false)
            (proto_trace g (run_from_start t h i es).2)) as Hp.
  { apply List.filter_In. split; [done|]. cbn. apply Nat.eqb_refl. }
  clear Hin.
  pose proof (proto_inv_run g t h i es) as H. unfold proto_inv in H.
  destruct (view g _) as [p|]; [|by rewrite H in Hp].
  destruct p as [| | |c pid []|c []|]; cbn [shape_ok] in H;
    try (rewrite H in Hp; cbn in Hp; by intuition discriminate);
    try (destruct H as [[] H]; rewrite H in Hp; cbn in Hp;
         by intuition discriminate);
    try done.
  destruct H as (f & H & _). rewrite H in Hp |- *.
  destruct f as [| |[]|[] []]; cbn in Hp; by intuition discriminate.
Qed.

(** C8.  When, after the close, the process has no identifier, the
    finalizer logs that ping exited on its own and awaits the exit without a
    timer; in a run in which that happens the session's process-control
    actions are the cancel of the read, the close and this await alone: no
    signal is sent and nothing is killed.  When the await resolves, the
    generator ends as the loop was left; after an end of stream or a
    [return()] no fault is reported. *)
Theorem own_exit_no_signal (t h : option jsstring) (i : N)
    (es : list event) (g : nat) :
  let st := (run_from_start t h i es).1 in
  let tr := (run_from_start t h i es).2 in
  (forall c q r,
      gens st !! g = Some (Gen (PClose c) q r) ->
      step (EClose g (CloseOk None)) st
      = (set_gens (<[g := Gen (PWaitOwn c) q r]> (gens st)) st,
         [ALog LExitedOwn; AWaitStart g false]))
  /\ (In (AWaitStart g false) tr ->
      proto_trace g tr = [ACancelRead g; ACloseStart g; AWaitStart g false]
      /\ (forall s, ~ In (ASendSignal g s) tr)
      /\ ~ In (AForceExit g) tr)
  /\ (forall q r,
        gens st !! g = Some (Gen (PWaitOwn CReturn) q r) ->
        List.filter is_fault (step (EWait g WTrue) st).2 = []
        /\ view g (step (EWait g WTrue) st).1 = Some PDone).
Proof.
  intros st tr. split; [|split].
  - intros c q r. apply on_close_own_eq.
  - intros Hin. pose proof (own_wait_trace g t h i es Hin) as Htr.
    fold tr in Htr. split; [done|]. split.
    + intros s Hs.
      assert (In (ASendSignal g s) (proto_trace g tr)) as Hp.
      { apply List.filter_In. split; [done|]. cbn. apply Nat.eqb_refl. }
      rewrite Htr in Hp. cbn in Hp. by intuition discriminate.
    + intros Hs.
      assert (In (AForceExit g) (proto_trace g tr)) as Hp.
      { apply List.filter_In. split; [done|]. cbn. apply Nat.eqb_refl. }
      rewrite Htr in Hp. cbn in Hp. by intuition discriminate.
  - intros q r E. rewrite step_eq. cbn [handle fst snd].
    unfold on_wait. rewrite bind_eq. cbn [get fst snd app]. rewrite E.
    split; [apply faultless_complete|].
    by destruct (complete_view g CReturn st _ E).
Qed.

Lemma own_exit_no_signal_witness :
  let es1 := [EAdded; ERead 0 REof] in
  let st1 := (run_from_start None None 5 es1).1 in
  let es2 := es1 ++ [EClose 0 (CloseOk None)] in
  let st2 := (run_from_start None None 5 es2).1 in
  let tr2 := (run_from_start None None 5 es2).2 in
  (gens st1 !! 0%nat = Some (Gen (PClose CReturn) [RNext] false)
   /\ (step (EClose 0 (CloseOk None)) st1).2
      = [ALog LExitedOwn; AWaitStart 0 false])
  /\ (In (AWaitStart 0 false) tr2
      /\ proto_trace 0 tr2 = [ACancelRead 0; ACloseStart 0; AWaitStart 0 false]
      /\ (forall s, ~ In (ASendSignal 0 s) tr2)
      /\ ~ In (AForceExit 0) tr2)
  /\ (gens st2 !! 0%nat = Some (Gen (PWaitOwn CReturn) [RNext] false)
      /\ List.filter is_fault (step (EWait 0 WTrue) st2).2 = []
      /\ view 0 (step (EWait 0 WTrue) st2).1 = Some PDone).
Proof.
  intros es1 st1 es2 st2 tr2.
  assert (gens st1 !! 0%nat = Some (Gen (PClose CReturn) [RNext] false))
    as E1 by (vm_compute; reflexivity).
  assert (In (AWaitStart 0 false) tr2) as Hin by (vm_compute; auto 10).
  assert (gens st2 !! 0%nat = Some (Gen (PWaitOwn CReturn) [RNext] false))
    as E2 by (vm_compute; reflexivity).
  split; [|split].
  - split; [exact E1|].
    exact (f_equal snd (proj1 (own_exit_no_signal None None 5 es1 0%nat)
                          CReturn [RNext] false E1)).
  - split; [exact Hin|].
    exact (proj1 (proj2 (own_exit_no_signal None None 5 es2 0%nat)) Hin).
  - split; [exact E2|].
    exact (proj2 (proj2 (own_exit_no_signal None None 5 es2 0%nat))
             [RNext] false E2).
Defined.

(** * The session held in [_ping] *)

Lemma keeps_ret {A : Type} (x : A) : keeps_slot (mret x : M A).
Proof. by intros st. Qed.

Lemma keeps_bind {A B : Type} (m : M A) (f : A -> M B) :
  keeps_slot m -> (forall x, keeps_slot (f x)) -> keeps_slot (m ≫= f).
Proof. intros Hm Hf st H. rewrite bind_eq. cbn [fst snd]. by apply Hf, Hm. Qed.

Lemma keeps_emit a : keeps_slot (emit a).
Proof. by intros st. Qed.

Lemma keeps_modify f :
  (forall st, gens (f st) = gens st /\ _ping (f st) = _ping st) ->
  keeps_slot (modify f).
Proof.
  intros Hf st H g. cbn [modify fst snd]. unfold not_returned.
  destruct (Hf st) as [-> ->]. apply H.
Qed.

Lemma keeps_get_bind {B : Type} (f : state -> M B) :
  (forall st, keeps_slot (f st)) -> keeps_slot (get ≫= f).
Proof. intros H. apply keeps_bind; [by intros st|done]. Qed.

Lemma keeps_for_each {A : Type} (l : list A) (f : A -> M unit) :
  (forall x, keeps_slot (f x)) -> keeps_slot (for_each l f).
Proof.
  intros H. induction l as [|x l IH]; cbn [for_each].
  - apply keeps_ret.
  - apply keeps_bind; [apply H|]. by intros _.
Qed.

(** Replacing a generator object without touching its [returned] flag. *)
Lemma slot_inv_set_gens g x y st :
  gens st !! g = Some x -> returned y = returned x ->
  slot_inv st -> slot_inv (set_gens (<[g := y]> (gens st)) st).
Proof.
  intros E Hr H g'. unfold not_returned, set_gens. cbn [_ping gens].
  rewrite (H g'). unfold not_returned.
  destruct (decide (g' = g)) as [->|Hne].
  - rewrite list_lookup_insert_eq by by eapply lookup_lt_Some.
    rewrite E. split; intros (z & [= <-] & Hz); eexists; (split; [done|]);
      congruence.
  - by rewrite list_lookup_insert_ne.
Qed.

Lemma keeps_set_pc g p : keeps_slot (set_pc g p).
Proof.
  intros st H. destruct (gens st !! g) as [x|] eqn:E.
  - rewrite (set_pc_eq _ _ _ _ E). cbn [fst snd].
    by eapply slot_inv_set_gens.
  - unfold set_pc. rewrite bind_eq. cbn [get fst snd]. by rewrite E.
Qed.

Lemma keeps_start : keeps_slot _start.
Proof.
  intros st H. unfold _start. rewrite bind_eq. cbn [get fst snd].
  destruct (_ping st) as [g0|] eqn:Ep; [done|].
  rewrite !bind_eq. cbn [modify emit fst snd].
  intros g. unfold not_returned, set_ping, set_gens. cbn [_ping gens].
  split.
  - intros [= <-]. exists (Gen PRead [RNext] false). split; [|done].
    by rewrite lookup_app_r, Nat.sub_diag.
  - intros (x & Hx & Hr).
    apply lookup_app_Some in Hx as [Hx|[Hlen Hx]].
    + assert (not_returned st g) as Ha by (by exists x).
      apply H in Ha. congruence.
    + destruct (g - length (gens st))%nat eqn:Ed; [|by destruct n].
      f_equal. lia.
Qed.

Ltac keeps_steps :=
  repeat lazymatch goal with
  | |- keeps_slot (mret _) => apply keeps_ret
  | |- keeps_slot skip => apply keeps_ret
  | |- keeps_slot (emit _) => apply keeps_emit
  | |- keeps_slot _start => apply keeps_start
  | |- keeps_slot (set_pc _ _) => apply keeps_set_pc
  | |- keeps_slot (modify _) => apply keeps_modify; done
  | |- keeps_slot (get ≫= _) => apply keeps_get_bind; intros ?
  | |- keeps_slot (_ ≫= _) => apply keeps_bind; [|intros ?]
  | |- _ => fail
  end.

Lemma keeps_collect {A B : Type} (l : list A) (f : A -> M (list B)) :
  (forall x, keeps_slot (f x)) -> keeps_slot (collect l f).
Proof.
  intros H. induction l as [|x l IH]; cbn [collect].
  - apply keeps_ret.
  - apply keeps_bind; [apply H|]. intros r.
    apply keeps_bind; [apply IH|]. intros rs. apply keeps_ret.
Qed.

Lemma keeps_after_stop ks : keeps_slot (after_stop ks).
Proof.
  unfold after_stop. apply keeps_for_each. intros _. apply keeps_start.
Qed.

Lemma keeps_finish_call c o : keeps_slot (finish_call c o).
Proof. unfold finish_call. destruct (sc_guarded c), o; keeps_steps. Qed.

Lemma keeps_settle p o : keeps_slot (settle p o).
Proof.
  unfold settle. keeps_steps.
  apply keeps_collect. intros c. apply keeps_finish_call.
Qed.

Lemma keeps_answer r c : keeps_slot (answer r c).
Proof.
  destruct r; cbn [answer]; [destruct c; keeps_steps|apply keeps_settle].
Qed.

Lemma keeps_await_in_call c : keeps_slot (await_in_call c).
Proof.
  unfold await_in_call. apply keeps_get_bind. intros st.
  destruct (promises st !! sc_promise c) as [[|o]|]; keeps_steps;
    first [apply keeps_after_stop|apply keeps_finish_call].
Qed.

Lemma keeps_enter_finally g c : keeps_slot (enter_finally g c).
Proof. unfold enter_finally. keeps_steps. Qed.

Lemma keeps_answers r q c :
  keeps_slot (ks ← answer r c;
              ks' ← collect q (fun r => answer r CReturn);
              after_stop (ks ++ ks')).
Proof.
  apply keeps_bind; [apply keeps_answer|]. intros ks.
  apply keeps_bind.
  { apply keeps_collect. intros r'. apply keeps_answer. }
  intros ks'. apply keeps_after_stop.
Qed.

Lemma keeps_complete g c : keeps_slot (complete g c).
Proof.
  intros st H. unfold complete. rewrite bind_eq. cbn [get fst snd].
  destruct (gens st !! g) as [x|] eqn:E; [|done].
  rewrite bind_eq. cbn [set_gen modify fst snd].
  assert (keeps_slot (match queue x with
                      | [] => skip
                      | r :: q =>
                          ks ← answer r c;
                          ks' ← collect q (fun r => answer r CReturn);
                          after_stop (ks ++ ks')
                      end)) as Hk.
  { destruct (queue x) as [|r q]; [apply keeps_ret|apply keeps_answers]. }
  apply Hk. by eapply slot_inv_set_gens.
Qed.

Lemma keeps_on_yield g v : keeps_slot (on_yield g v).
Proof.
  intros st H. unfold on_yield. rewrite bind_eq. cbn [get fst snd].
  destruct (gens st !! g) as [[p [|[|r] q] ret]|] eqn:E; try done.
  rewrite !bind_eq. cbn [emit fst snd]. rewrite set_ping_val_eq.
  cbn [fst snd set_gen modify].
  assert (keeps_slot (match q with
                      | RReturn _ :: _ => enter_finally g CReturn
                      | _ => emit (AReadStart g)
                      end)) as Hk.
  { destruct q as [|[|r] q']; first [apply keeps_emit|apply keeps_enter_finally]. }
  apply Hk.
  apply (slot_inv_set_gens g (Gen p (RNext :: q) ret) _
           (set_label (label_text (title st) v) st)); [done|done|].
  intros g'. apply H.
Qed.

Lemma keeps_on_read g r : keeps_slot (on_read g r).
Proof.
  unfold on_read. apply keeps_get_bind. intros st.
  destruct (gens st !! g) as [[[] q ret]|]; try apply keeps_ret.
  destruct r.
  - apply keeps_bind; [apply keeps_emit|]. intros _. apply keeps_on_yield.
  - apply keeps_enter_finally.
  - apply keeps_enter_finally.
Qed.

Ltac keeps_handler :=
  repeat lazymatch goal with
  | |- keeps_slot (complete _ _) => apply keeps_complete
  | |- keeps_slot (mret _) => apply keeps_ret
  | |- keeps_slot skip => apply keeps_ret
  | |- keeps_slot (emit _) => apply keeps_emit
  | |- keeps_slot (set_pc _ _) => apply keeps_set_pc
  | |- keeps_slot (_ ≫= _) => apply keeps_bind; [|intros ?]
  | |- _ => fail
  end.

Lemma keeps_on_close g r : keeps_slot (on_close g r).
Proof.
  unfold on_close, wait_proc_with_timeout_begin.
  apply keeps_get_bind. intros st.
  destruct (gens st !! g) as [[[] q ret]|]; try apply keeps_ret.
  destruct r as [[pid|]|]; keeps_handler.
Qed.

Lemma keeps_on_timer g : keeps_slot (on_timer g).
Proof.
  unfold on_timer. apply keeps_get_bind. intros st.
  destruct (gens st !! g) as [[[| | |? ? []|? []|] q ret]|]; keeps_handler.
Qed.

Lemma keeps_on_wait g w : keeps_slot (on_wait g w).
Proof.
  unfold on_wait, wait_proc_with_timeout_begin, wait_proc_with_timeout_end.
  apply keeps_get_bind. intros st.
  destruct (gens st !! g) as [[[| | |? ? []|? []|] q ret]|];
    destruct w; keeps_handler.
Qed.

Lemma gen_return_effect g st x :
  gens st !! g = Some x ->
  _ping (gen_return g st).1.2 = _ping st
  /\ exists q', gens (gen_return g st).1.2
                = <[g := Gen (pc x) q' true]> (gens st).
Proof.
  intros E. unfold gen_return. rewrite bind_eq. cbn [get fst snd]. rewrite E.
  destruct x as [p q r].
  destruct p; rewrite !bind_eq; cbn [modify set_gen mret M_ret fst snd];
    (split; [done|]); by eexists.
Qed.

Lemma keeps_stop b : keeps_slot (_stop b).
Proof.
  intros st H. unfold _stop. rewrite bind_eq. cbn [get fst snd].
  rewrite bind_eq. cbn [modify fst snd].
  destruct (_ping st) as [g|] eqn:Ep.
  - rewrite bind_eq. cbn [modify fst snd].
    set (st1 := set_ping None (set_calls (S (calls st)) st)).
    destruct (proj1 (H g) Ep) as (x & E & Hr).
    assert (gens st1 !! g = Some x) as E1 by done.
    destruct (gen_return_effect g st1 x E1) as (Hp & q' & Hg).
    rewrite bind_eq. cbn [fst snd]. rewrite bind_eq. cbn [modify fst snd].
    apply keeps_await_in_call.
    intros g'. unfold not_returned, set_stoppedPromise. cbn [_ping gens].
    rewrite Hp, Hg. subst st1. cbn [set_ping _ping gens set_calls].
    split; [done|]. intros (y & Hy & Hyr).
    destruct (decide (g' = g)) as [->|Hne].
    + rewrite list_lookup_insert_eq in Hy by by eapply lookup_lt_Some.
      injection Hy as <-. done.
    + rewrite list_lookup_insert_ne in Hy by done.
      assert (not_returned st g') as Ha by (by exists y).
      apply H in Ha. congruence.
  - apply keeps_await_in_call. intros g'. apply H.
Qed.

Lemma keeps_handle e : keeps_slot (handle e).
Proof.
  destruct e; cbn [handle].
  - unfold on_applet_added_to_panel. keeps_steps.
  - unfold on_applet_removed_from_panel.
    apply keeps_bind; [by apply keeps_modify|]. intros _. apply keeps_stop.
  - unfold on_settings_changed, set_applet_tooltip.
    apply keeps_bind; [by apply keeps_modify|]. intros _.
    apply keeps_bind; [keeps_steps|]. intros _.
    apply keeps_get_bind. intros st.
    destruct (_is_in_panel st); [|apply keeps_ret].
    destruct (_ping st).
    + apply keeps_bind; [apply keeps_emit|]. intros _. apply keeps_stop.
    + keeps_steps.
  - apply keeps_on_read.
  - apply keeps_on_close.
  - apply keeps_on_timer.
  - apply keeps_on_wait.
Qed.

Lemma slot_inv_run t h i es : slot_inv (run_from_start t h i es).1.
Proof.
  unfold run_from_start.
  induction es as [|e es IH] using rev_ind.
  - cbn [run fst]. intros g. destruct h; cbn; unfold not_returned; cbn;
      (split; [done|]); by intros (x & Hx & _).
  - rewrite run_snoc, step_eq. cbn [fst snd]. by apply keeps_handle.
Qed.

(** * No sample once the finalizer has started *)

Lemma silent_ret g {A : Type} (x : A) : silent_at g (mret x : M A).
Proof. by intros st. Qed.

Lemma silent_bind g {A B : Type} (m : M A) (f : A -> M B) :
  silent_at g m -> (forall x, silent_at g (f x)) -> silent_at g (m ≫= f).
Proof.
  intros Hm Hf st. rewrite bind_eq. cbn [snd].
  by rewrite List.filter_app, Hm, Hf.
Qed.

Lemma silent_emit g a : is_deliver g a = false -> silent_at g (emit a).
Proof. intros H st. cbn. by rewrite H. Qed.

Lemma silent_modify g f : silent_at g (modify f).
Proof. by intros st. Qed.

Lemma silent_get_bind g {B : Type} (f : state -> M B) :
  (forall st, silent_at g (f st)) -> silent_at g (get ≫= f).
Proof. intros H. apply silent_bind; [by intros st|done]. Qed.

Lemma silent_for_each g {A : Type} (l : list A) (f : A -> M unit) :
  (forall x, silent_at g (f x)) -> silent_at g (for_each l f).
Proof.
  intros H. induction l as [|x l IH]; cbn [for_each].
  - apply silent_ret.
  - apply silent_bind; [apply H|]. by intros _.
Qed.

Ltac silent_steps :=
  repeat lazymatch goal with
  | |- silent_at _ (mret _) => apply silent_ret
  | |- silent_at _ skip => apply silent_ret
  | |- silent_at _ (emit _) => apply silent_emit; reflexivity
  | |- silent_at _ (modify _) => apply silent_modify
  | |- silent_at _ (set_gen _ _) => apply silent_modify
  | |- silent_at _ (get ≫= _) => apply silent_get_bind; intros ?
  | |- silent_at _ (_ ≫= _) => apply silent_bind; [|intros ?]
  | |- silent_at _ (match ?x with _ => _ end) => destruct x
  | |- silent_at _ (if ?x then _ else _) => destruct x
  | |- _ => fail
  end.

Lemma silent_start g : silent_at g _start.
Proof. unfold _start. silent_steps. Qed.

Lemma silent_collect g {A B : Type} (l : list A) (f : A -> M (list B)) :
  (forall x, silent_at g (f x)) -> silent_at g (collect l f).
Proof.
  intros H. induction l as [|x l IH]; cbn [collect].
  - apply silent_ret.
  - apply silent_bind; [apply H|]. intros r.
    apply silent_bind; [apply IH|]. intros rs. apply silent_ret.
Qed.

Lemma silent_after_stop g ks : silent_at g (after_stop ks).
Proof.
  unfold after_stop. apply silent_for_each. intros _. apply silent_start.
Qed.

Lemma silent_finish_call g c o : silent_at g (finish_call c o).
Proof. unfold finish_call. destruct (sc_guarded c), o; silent_steps. Qed.

Lemma silent_settle g p o : silent_at g (settle p o).
Proof.
  unfold settle. silent_steps.
  apply silent_collect. intros c. apply silent_finish_call.
Qed.

Lemma silent_answer g r c : silent_at g (answer r c).
Proof. destruct r; cbn [answer]; [silent_steps|apply silent_settle]. Qed.

Lemma silent_complete g g0 c : silent_at g (complete g0 c).
Proof.
  unfold complete. silent_steps;
    first [ apply silent_answer
          | apply silent_after_stop
          | apply silent_collect; intros r'; apply silent_answer ].
Qed.

Lemma silent_set_pc g g0 p : silent_at g (set_pc g0 p).
Proof. unfold set_pc. silent_steps. Qed.

Lemma silent_enter_finally g g0 c : silent_at g (enter_finally g0 c).
Proof. unfold enter_finally. silent_steps. apply silent_set_pc. Qed.

Lemma silent_await_in_call g c : silent_at g (await_in_call c).
Proof.
  unfold await_in_call.
  silent_steps; first [apply silent_finish_call|apply silent_after_stop].
Qed.

Lemma silent_stop g b : silent_at g (_stop b).
Proof.
  unfold _stop. silent_steps; try apply silent_await_in_call.
  unfold gen_return. silent_steps.
Qed.

Lemma silent_on_close g g0 r : silent_at g (on_close g0 r).
Proof.
  unfold on_close, wait_proc_with_timeout_begin.
  silent_steps; first [apply silent_complete|apply silent_set_pc].
Qed.

Lemma silent_on_timer g g0 : silent_at g (on_timer g0).
Proof. unfold on_timer. silent_steps; apply silent_set_pc. Qed.

Lemma silent_on_wait g g0 w : silent_at g (on_wait g0 w).
Proof.
  unfold on_wait, wait_proc_with_timeout_begin, wait_proc_with_timeout_end.
  silent_steps; first [apply silent_complete|apply silent_set_pc].
Qed.

Lemma silent_on_read_ne g g0 r : g <> g0 -> silent_at g (on_read g0 r).
Proof.
  intros Hne.
  assert (is_deliver g (ADeliver g0 (match r with RLine l => parse_line l | _ => None end)) = false)
    as Hd by (cbn; apply Nat.eqb_neq; congruence).
  unfold on_read, on_yield, _set_ping_val, set_applet_label.
  apply silent_get_bind. intros st.
  destruct (gens st !! g0) as [[[] q ret]|]; try apply silent_ret.
  destruct r; try apply silent_enter_finally.
  apply silent_bind; [by apply silent_emit|]. intros _.
  apply silent_get_bind. intros st'.
  destruct (gens st' !! g0) as [[p' [|[|r'] q'] ret']|]; try apply silent_ret.
  apply silent_bind; [by apply silent_emit|]. intros _.
  silent_steps; apply silent_enter_finally.
Qed.

(** A turn delivers no sample of a session that is not suspended in its
    read. *)
Lemma step_no_deliver g e st :
  view g st <> Some PRead ->
  List.filter (is_deliver g) (step e st).2 = [].
Proof.
  intros Hv. rewrite step_eq. cbn [snd].
  destruct e; cbn [handle].
  - refine ((_ : silent_at g on_applet_added_to_panel) st).
    unfold on_applet_added_to_panel. silent_steps. apply silent_start.
  - refine ((_ : silent_at g on_applet_removed_from_panel) st).
    unfold on_applet_removed_from_panel. silent_steps. apply silent_stop.
  - refine ((_ : silent_at g (on_settings_changed t h i)) st).
    unfold on_settings_changed, set_applet_tooltip.
    silent_steps; first [apply silent_stop|apply silent_start].
  - destruct (decide (g = g0)) as [->|Hne];
      [|by apply silent_on_read_ne].
    unfold on_read. rewrite bind_eq. cbn [get fst snd app].
    unfold view in Hv.
    destruct (gens st !! g0) as [[[] q ret]|]; done.
  - apply silent_on_close.
  - apply silent_on_timer.
  - apply silent_on_wait.
Qed.

Lemma finalizing_stable g e st p :
  view g st = Some p -> p <> PRead ->
  exists p', view g (step e st).1 = Some p' /\ p' <> PRead.
Proof.
  intros Hv Hp. pose proof (step_vtrans e st g) as H. rewrite Hv in H.
  remember (Some p) as v eqn:Ev.
  remember (proto_trace g (step e st).2) as pa eqn:Ea. clear Ea.
  destruct H as [v| |q q' acts Hg].
  - subst v. by exists p.
  - done.
  - injection Ev as ->. exists q'. split; [done|]. by destruct Hg.
Qed.

(** Once the finalizer of a session has started, the loop receives no
    further sample of that session, whatever happens next. *)
Lemma run_no_deliver g es st p :
  view g st = Some p -> p <> PRead ->
  List.filter (is_deliver g) (run es st).2 = [].
Proof.
  revert st p. induction es as [|e es IH]; intros st p Hv Hp; [done|].
  rewrite run_cons. cbn [snd]. rewrite List.filter_app.
  rewrite step_no_deliver by (rewrite Hv; congruence).
  destruct (finalizing_stable g e st p Hv Hp) as (p' & Hv' & Hp').
  by rewrite (IH _ _ Hv' Hp').
Qed.

(** * Stopping a session whose read is pending *)

(** [_stop] performs no process-control action, whatever the state: the
    read of the session it stops is not cancelled by it. *)
Lemma stop_cancels_nothing b st g :
  proto_trace g (_stop b st).2 = []
  /\ vtrans g ERemoved (view g st) (view g (_stop b st).1.2) [].
Proof.
  destruct (quiet_stop b g st) as [H1 H2]. split; [done|].
  destruct H2 as [->|[-> ->]]; constructor.
Qed.

(** C7 at a concrete run: the applet is added to the panel and removed
    again while the first read is pending.  After the removal the
    generator is still suspended in the read, the [return()] request waits
    in its queue behind the pending [next()], the read has not been
    cancelled, and the call of [_stop] is still suspended.  The cancel is
    issued only in the turn in which the next line arrives by itself. *)
Lemma stop_leaves_read_pending :
  let st := (run_from_start None (Some (lit "1.1.1.1")) 5
               [EAdded; ERemoved]).1 in
  let tr := (run_from_start None (Some (lit "1.1.1.1")) 5
               [EAdded; ERemoved]).2 in
  gens st !! 0%nat = Some (Gen PRead [RNext; RReturn 1] true)
  /\ tr = [ASpawn 0 (Some (lit "1.1.1.1")) 5; AReadStart 0]
  /\ stops st = [StopCall 0 1 true false]
  /\ promises st !! 1%nat = Some PPending
  /\ (step (ERead 0 (RLine (lit "no answer yet"))) st).2
     = [ALog (LLine (lit "no answer yet")); ADeliver 0 None;
        ASetLabel (lit "N/A"); ACancelRead 0; ACloseStart 0].
Proof. vm_compute. repeat split. Qed.

(** C5 at a concrete run: after the applet was removed from the panel and
    [_stop] has taken the session out of [_ping], the next line of ping is
    still parsed, delivered to the loop and rendered, before the finalizer
    starts. *)
Lemma sample_after_stop :
  let st := (run_from_start None (Some (lit "1.1.1.1")) 5
               [EAdded; ERemoved]).1 in
  let line := lit "64 bytes from 1.1.1.1: icmp_seq=1 ttl=59 time=12.3 ms" in
  _ping st = None
  /\ stops st = [StopCall 0 1 true false]
  /\ (step (ERead 0 (RLine line)) st).2
     = [ALog (LLine line); ADeliver 0 (Some (lit "12.3"));
        ASetLabel (lit "12.3 ms"); ACancelRead 0; ACloseStart 0]
  /\ label (step (ERead 0 (RLine line)) st).1 = lit "12.3 ms".
Proof. vm_compute. repeat split. Qed.

(** C2 at a concrete run: two calls of [_stop] while the session's read is
    pending; the process ignores SIGTERM, the timer elapses and the
    cancelled wait rejects.  One SIGTERM is sent; the first call logs the
    error and is fulfilled, the second call is rejected. *)
Lemma concurrent_stops_differ :
  let tr := (run_from_start None (Some (lit "1.1.1.1")) 5
               [EAdded; ERemoved; ERemoved;
                ERead 0 (RLine (lit "time=1.5 ms"));
                EClose 0 (CloseOk (Some (lit "42")));
                ETimer 0; EWait 0 WRaise]).2 in
  tr = [ASpawn 0 (Some (lit "1.1.1.1")) 5; AReadStart 0;
        ALog (LLine (lit "time=1.5 ms")); ADeliver 0 (Some (lit "1.5"));
        ASetLabel (lit "1.5 ms"); ACancelRead 0; ACloseStart 0;
        ALog (LTerminating (lit "42")); ASendSignal 0 15;
        ATimerAdd 0 5000; AWaitStart 0 true;
        ATimerCancel 0; ATimerRemove 0;
        ALogError; AStopSettled 0 Fulfilled; AStopSettled 1 Rejected;
        ALog LLoopStopped].
Proof. vm_compute. reflexivity. Qed.

(** C3 at a concrete run: the applet is added to the panel, removed, and
    added again while the first read of ping is pending.  [_stop] has taken
    the first session out of [_ping], but its generator is still suspended
    in the read and its process has not been signalled; [_start] finds
    [_ping] empty and spawns a second process.  Two sessions are active:
    both are suspended in their reads, and a line of either is delivered to
    the loop and rendered. *)
Lemma two_sessions_active :
  let st1 := (run_from_start None (Some (lit "1.1.1.1")) 5
                [EAdded; ERemoved]).1 in
  let st := (run_from_start None (Some (lit "1.1.1.1")) 5
               [EAdded; ERemoved; EAdded]).1 in
  let tr := (run_from_start None (Some (lit "1.1.1.1")) 5
               [EAdded; ERemoved; EAdded]).2 in
  let line := lit "64 bytes from 1.1.1.1: icmp_seq=1 ttl=59 time=12.3 ms" in
  (active st1 0 /\ _ping st1 = None
   /\ (step EAdded st1).2 = [ASpawn 1 (Some (lit "1.1.1.1")) 5; AReadStart 1])
  /\ (active st 0 /\ active st 1)
  /\ gens st = [Gen PRead [RNext; RReturn 1] true; Gen PRead [RNext] false]
  /\ tr = [ASpawn 0 (Some (lit "1.1.1.1")) 5; AReadStart 0;
           ASpawn 1 (Some (lit "1.1.1.1")) 5; AReadStart 1]
  /\ (step (ERead 0 (RLine line)) st).2
     = [ALog (LLine line); ADeliver 0 (Some (lit "12.3"));
        ASetLabel (lit "12.3 ms"); ACancelRead 0; ACloseStart 0]
  /\ (step (ERead 1 (RLine line)) st).2
     = [ALog (LLine line); ADeliver 1 (Some (lit "12.3"));
        ASetLabel (lit "12.3 ms"); AReadStart 1].
Proof.
  assert (forall st g p q r,
            gens st !! g = Some (Gen p q r) -> p <> PDone -> active st g)
    as Ha by (intros st g p q r Hx Hp; by eexists).
  repeat split;
    first [ by apply (Ha _ _ PRead [RNext; RReturn 1] true)
          | by apply (Ha _ _ PRead [RNext] false)
          | vm_compute; reflexivity ].
Qed.

(** C6 at a concrete run: a session is stopped by [return()], the finalizer
    cancels the read and closes the stream, and [close_async] rejects.  The
    rest of the finalizer is skipped: the generator completes, [_stop] logs
    the error and is fulfilled, and the process is neither signalled nor
    awaited.  The same happens after the end of the stream. *)
Lemma close_failure_skips_shutdown :
  let r := run_from_start None (Some (lit "1.1.1.1")) 5
             [EAdded; ERemoved; ERead 0 (RLine (lit "time=1.5 ms"));
              EClose 0 CloseErr] in
  let r' := run_from_start None (Some (lit "1.1.1.1")) 5
              [EAdded; ERead 0 REof; EClose 0 CloseErr] in
  (r.2 = [ASpawn 0 (Some (lit "1.1.1.1")) 5; AReadStart 0;
          ALog (LLine (lit "time=1.5 ms")); ADeliver 0 (Some (lit "1.5"));
          ASetLabel (lit "1.5 ms"); ACancelRead 0; ACloseStart 0;
          ALogError; AStopSettled 0 Fulfilled; ALog LLoopStopped]
   /\ gens r.1 = [Gen PDone [] true]
   /\ stops r.1 = []
   /\ proto_trace 0 r.2 = [ACancelRead 0; ACloseStart 0])
  /\ (r'.2 = [ASpawn 0 (Some (lit "1.1.1.1")) 5; AReadStart 0;
              ACancelRead 0; ACloseStart 0; ALogError; ALog LLoopStopped]
      /\ gens r'.1 = [Gen PDone [] false]
      /\ proto_trace 0 r'.2 = [ACancelRead 0; ACloseStart 0]).
Proof. vm_compute. repeat split. Qed.

(** * Examples *)

Example parse_line_reply :
  parse_line (lit "64 bytes from 1.1.1.1: icmp_seq=1 ttl=59 time=12.3 ms")
  = Some (lit "12.3").
Proof. vm_compute. reflexivity. Qed.

Example parse_line_timeout : parse_line (lit "Request timeout") = None.
Proof. vm_compute. reflexivity. Qed.

Example parse_line_integer : parse_line (lit "time=12ms") = None.
Proof. vm_compute. reflexivity. Qed.

Example parse_line_leftmost :
  parse_line (lit "time=1.5ms time=12.3ms") = Some (lit "1.5").
Proof. vm_compute. reflexivity. Qed.

Example label_of_reply :
  (run_from_start None (Some (lit "1.1.1.1")) 5
     [EAdded;
      ERead 0 (RLine (lit "64 bytes from 1.1.1.1: icmp_seq=1 ttl=59 time=12.3 ms"));
      ERead 0 (RLine (lit "Request timeout"))]).2
  = [ASpawn 0 (Some (lit "1.1.1.1")) 5; AReadStart 0;
     ALog (LLine (lit "64 bytes from 1.1.1.1: icmp_seq=1 ttl=59 time=12.3 ms"));
     ADeliver 0 (Some (lit "12.3")); ASetLabel (lit "12.3 ms"); AReadStart 0;
     ALog (LLine (lit "Request timeout"));
     ADeliver 0 None; ASetLabel (lit "N/A"); AReadStart 0].
Proof. vm_compute. reflexivity. Qed.

(** * Frames *)

Section Unchanged.
Context {X : Type} (f : state -> X).

Lemma unchanged_ret {A : Type} (x : A) : unchanged f (mret x : M A).
Proof. by intros st. Qed.

Lemma unchanged_bind {A B : Type} (m : M A) (k : A -> M B) :
  unchanged f m -> (forall x, unchanged f (k x)) -> unchanged f (m ≫= k).
Proof.
  intros Hm Hk st. rewrite bind_eq. cbn [fst snd]. by rewrite Hk, Hm.
Qed.

Lemma unchanged_emit a : unchanged f (emit a).
Proof. by intros st. Qed.

Lemma unchanged_get_bind {B : Type} (k : state -> M B) :
  (forall s, unchanged f (k s)) -> unchanged f (get ≫= k).
Proof. intros H. apply unchanged_bind; [by intros st|done]. Qed.

Lemma unchanged_modify (u : state -> state) :
  (forall st, f (u st) = f st) -> unchanged f (modify u).
Proof. intros H st. apply H. Qed.

Lemma unchanged_for_each {A : Type} (l : list A) (k : A -> M unit) :
  (forall x, unchanged f (k x)) -> unchanged f (for_each l k).
Proof.
  intros H. induction l as [|x l IH]; cbn [for_each].
  - apply unchanged_ret.
  - apply unchanged_bind; [apply H|]. by intros _.
Qed.

Lemma unchanged_collect {A B : Type} (l : list A) (k : A -> M (list B)) :
  (forall x, unchanged f (k x)) -> unchanged f (collect l k).
Proof.
  intros H. induction l as [|x l IH]; cbn [collect].
  - apply unchanged_ret.
  - apply unchanged_bind; [apply H|]. intros r.
    apply unchanged_bind; [apply IH|]. intros rs. apply unchanged_ret.
Qed.

Hypothesis Hblind : heap_blind f.

Ltac blind_steps :=
  repeat lazymatch goal with
  | |- unchanged _ (mret _) => apply unchanged_ret
  | |- unchanged _ skip => apply unchanged_ret
  | |- unchanged _ (emit _) => apply unchanged_emit
  | |- unchanged _ (modify _) =>
      apply unchanged_modify; intros ?; apply Hblind
  | |- unchanged _ (set_gen _ _) =>
      apply unchanged_modify; intros ?; apply Hblind
  | |- unchanged _ (get ≫= _) => apply unchanged_get_bind; intros ?
  | |- unchanged _ (_ ≫= _) => apply unchanged_bind; [|intros ?]
  | |- unchanged _ (match ?x with _ => _ end) => destruct x
  | |- unchanged _ (if ?x then _ else _) => destruct x
  | |- _ => fail
  end.

Lemma unchanged_start : unchanged f _start.
Proof. unfold _start. blind_steps. Qed.

Lemma unchanged_after_stop ks : unchanged f (after_stop ks).
Proof.
  unfold after_stop. apply unchanged_for_each. intros _.
  apply unchanged_start.
Qed.

Lemma unchanged_finish_call c o : unchanged f (finish_call c o).
Proof. unfold finish_call. blind_steps. Qed.

Lemma unchanged_settle p o : unchanged f (settle p o).
Proof.
  unfold settle. blind_steps.
  apply unchanged_collect. intros c. apply unchanged_finish_call.
Qed.

Lemma unchanged_answer r c : unchanged f (answer r c).
Proof. destruct r; cbn [answer]; [blind_steps|apply unchanged_settle]. Qed.

Lemma unchanged_complete g c : unchanged f (complete g c).
Proof.
  unfold complete. blind_steps;
    first [ apply unchanged_answer
          | apply unchanged_after_stop
          | apply unchanged_collect; intros r'; apply unchanged_answer ].
Qed.

Lemma unchanged_set_pc g p : unchanged f (set_pc g p).
Proof. unfold set_pc. blind_steps. Qed.

Lemma unchanged_enter_finally g c : unchanged f (enter_finally g c).
Proof. unfold enter_finally. blind_steps. apply unchanged_set_pc. Qed.

Lemma unchanged_await_in_call c : unchanged f (await_in_call c).
Proof.
  unfold await_in_call.
  blind_steps; first [apply unchanged_finish_call|apply unchanged_after_stop].
Qed.

Lemma unchanged_stop b : unchanged f (_stop b).
Proof.
  unfold _stop. blind_steps; try apply unchanged_await_in_call.
  unfold gen_return. blind_steps.
Qed.

Lemma unchanged_on_close g r : unchanged f (on_close g r).
Proof.
  unfold on_close, wait_proc_with_timeout_begin.
  blind_steps; first [apply unchanged_complete|apply unchanged_set_pc].
Qed.

Lemma unchanged_on_timer g : unchanged f (on_timer g).
Proof. unfold on_timer. blind_steps; apply unchanged_set_pc. Qed.

Lemma unchanged_on_wait g w : unchanged f (on_wait g w).
Proof.
  unfold on_wait, wait_proc_with_timeout_begin, wait_proc_with_timeout_end.
  blind_steps; first [apply unchanged_complete|apply unchanged_set_pc].
Qed.

(** The loop body is the only place that touches the label. *)
Lemma unchanged_on_read g r :
  (forall s st, f (set_label s st) = f st) -> unchanged f (on_read g r).
Proof.
  intros Hl. unfold on_read, on_yield, _set_ping_val, set_applet_label.
  blind_steps; try apply unchanged_enter_finally.
  all: apply unchanged_modify; intros ?; apply Hl.
Qed.
End Unchanged.

Lemma step_unchanged {X : Type} (f : state -> X) e st :
  heap_blind f ->
  (forall s st, f (set_label s st) = f st) ->
  (forall b st, f (set_is_in_panel b st) = f st) ->
  (forall t h i, e <> ESettings t h i) ->
  f (step e st).1 = f st.
Proof.
  intros Hb Hl Hp He. rewrite step_eq. cbn [fst].
  destruct e; cbn [handle].
  - unfold on_applet_added_to_panel. rewrite bind_eq. cbn [modify fst snd].
    by rewrite unchanged_start, Hp.
  - unfold on_applet_removed_from_panel. rewrite bind_eq. cbn [modify fst snd].
    by rewrite unchanged_stop, Hp.
  - by destruct (He t h i).
  - by apply unchanged_on_read.
  - by apply unchanged_on_close.
  - by apply unchanged_on_timer.
  - by apply unchanged_on_wait.
Qed.

(** What is left of [on_settings_changed] after the new values are stored
    and the tooltip is set. *)
Lemma settings_rest_unchanged {X : Type} (f : state -> X) :
  heap_blind f ->
  unchanged f (st ← get;
               if _is_in_panel st then
                 match _ping st with
                 | Some _ => emit (ALog LRestarting) ;; _stop true
                 | None => emit (ALog LStarting) ;; _start
                 end
               else skip).
Proof.
  intros Hb. apply unchanged_get_bind. intros s.
  destruct (_is_in_panel s); [|apply unchanged_ret].
  destruct (_ping s);
    (apply unchanged_bind; [apply unchanged_emit|intros _]);
    [by apply unchanged_stop|by apply unchanged_start].
Qed.

Lemma step_settings_eq {X : Type} (f : state -> X) t h i st :
  heap_blind f ->
  f (step (ESettings t h i) st).1
  = f (set_tooltip (host_or_empty h) (set_config t h i st)).
Proof.
  intros Hb. rewrite step_eq. cbn [fst handle].
  unfold on_settings_changed.
  rewrite bind_eq. cbn [modify fst snd].
  rewrite bind_eq. cbn beta.
  etransitivity; [apply (settings_rest_unchanged f Hb)|].
  unfold set_applet_tooltip. by rewrite bind_eq.
Qed.

Lemma heap_blind_tooltip_host :
  heap_blind (fun st => (tooltip st, host st)).
Proof. by repeat split. Qed.

(** * The tooltip shows the configured host *)

(** In every reachable state the tooltip is the configured host, or empty
    when no host is set. *)
Theorem tooltip_is_host (t h : option jsstring) (i : N) (es : list event) :
  let st := (run_from_start t h i es).1 in
  tooltip st = host_or_empty (host st).
Proof.
  unfold run_from_start.
  induction es as [|e es IH] using rev_ind.
  - by destruct h.
  - rewrite run_snoc. cbn [fst] in *.
    set (st := (run es (construct t h i).1).1) in *.
    assert ((exists t' h' i', e = ESettings t' h' i')
            \/ forall t' h' i', e <> ESettings t' h' i') as [(t' & h' & i' & ->)|He]
      by (destruct e; first [by right|left; by do 3 eexists]).
    + pose proof (step_settings_eq (fun st => (tooltip st, host st))
                    t' h' i' st heap_blind_tooltip_host) as H.
      cbn in H. by injection H as -> ->.
    + pose proof (step_unchanged (fun st => (tooltip st, host st)) e st
                    heap_blind_tooltip_host
                    (fun _ _ => eq_refl) (fun _ _ => eq_refl) He) as H.
      cbn in H. by injection H as -> ->.
Qed.

(** * The heap invariant *)

Lemma keeps_inv_ret {A : Type} (x : A) : keeps_inv (mret x : M A).
Proof. by intros st. Qed.

Lemma keeps_inv_bind {A B : Type} (m : M A) (k : A -> M B) :
  keeps_inv m -> (forall x, keeps_inv (k x)) -> keeps_inv (m ≫= k).
Proof. intros Hm Hk st H. rewrite bind_eq. cbn [fst snd]. by apply Hk, Hm. Qed.

Lemma keeps_inv_emit a : keeps_inv (emit a).
Proof. by intros st. Qed.

Lemma keeps_inv_for_each {A : Type} (l : list A) (k : A -> M unit) :
  (forall x, keeps_inv (k x)) -> keeps_inv (for_each l k).
Proof.
  intros H. induction l as [|x l IH]; cbn [for_each].
  - apply keeps_inv_ret.
  - apply keeps_inv_bind; [apply H|]. by intros _.
Qed.

Lemma keeps_inv_start : keeps_inv _start.
Proof.
  intros st [Hs Hh]. split; [by apply keeps_start|].
  unfold _start. rewrite bind_eq. cbn [get fst snd].
  destruct (_ping st) as [g0|] eqn:Ep; [done|].
  rewrite !bind_eq. cbn [modify emit fst snd].
  destruct Hh as [H1 H2 H3 H4 H5 H6].
  unfold heap_inv, set_ping, set_gens. cbn [gens promises stops _stoppedPromise].
  assert (forall g x, (gens st ++ [Gen PRead [RNext] false]) !! g = Some x ->
            gens st !! g = Some x \/ x = Gen PRead [RNext] false) as Hl.
  { intros g x [?|[_ Hx]]%lookup_app_Some; [by left|right].
    destruct (g - length (gens st))%nat; [by injection Hx|done]. }
  split; try done.
  - intros g x [Hx| ->]%Hl; [by eapply H1|done].
  - intros g x p [Hx| ->]%Hl Hin; [by eapply H2|].
    cbn in Hin. by intuition discriminate.
  - intros g1 g2 x1 x2 p Hx1 Hx2 Hi1 Hi2.
    destruct (Hl _ _ Hx1) as [Hy1| ->];
      [|cbn in Hi1; by intuition discriminate].
    destruct (Hl _ _ Hx2) as [Hy2| ->];
      [|cbn in Hi2; by intuition discriminate].
    by eapply H3.
  - intros p Hp. destruct (H4 p Hp) as (g & x & Hx & Hin).
    exists g, x. split; [|done]. by apply lookup_app_l_Some.
Qed.

Lemma keeps_inv_collect {A B : Type} (l : list A) (k : A -> M (list B)) :
  (forall x, keeps_inv (k x)) -> keeps_inv (collect l k).
Proof.
  intros H. induction l as [|x l IH]; cbn [collect].
  - apply keeps_inv_ret.
  - apply keeps_inv_bind; [apply H|]. intros r.
    apply keeps_inv_bind; [apply IH|]. intros rs. apply keeps_inv_ret.
Qed.

Lemma keeps_inv_after_stop ks : keeps_inv (after_stop ks).
Proof.
  unfold after_stop. apply keeps_inv_for_each. intros _.
  apply keeps_inv_start.
Qed.

Lemma keeps_inv_finish_call c o : keeps_inv (finish_call c o).
Proof.
  unfold finish_call.
  destruct (sc_guarded c), o;
    repeat first
      [ apply keeps_inv_ret | apply keeps_inv_emit
      | apply keeps_inv_bind; [|intros ?] ].
Qed.

Lemma slot_inv_same st st' :
  gens st' = gens st -> _ping st' = _ping st -> slot_inv st -> slot_inv st'.
Proof. intros Hg Hp H g. unfold not_returned. rewrite Hg, Hp. apply H. Qed.

Lemma settle_restores p o st :
  slot_inv st -> heap_inv_but p st -> state_inv (settle p o st).1.2.
Proof.
  intros Hs [H1 H2 H3 H4 H5 H6 H7].
  unfold settle. rewrite bind_eq. cbn [get fst snd].
  rewrite bind_eq. cbn [modify fst snd].
  rewrite bind_eq. cbn [modify fst snd].
  apply keeps_inv_collect; [intros c; apply keeps_inv_finish_call|].
  split; [by apply (slot_inv_same st)|].
  unfold heap_inv, set_stops, set_promises.
  cbn [gens promises stops _stoppedPromise].
  split; try done.
  - intros g x p' Hx Hin.
    rewrite list_lookup_insert_ne; [by eapply H2|].
    intros ->. by eapply H7.
  - intros p' Hp'.
    apply list_lookup_insert_Some in Hp' as [(_ & ? & _)|[Hne Hp']]; [done|].
    by apply H4.
  - intros c [Hc Hf]%List.filter_In.
    rewrite list_lookup_insert_ne; [by apply H5|].
    unfold awaits in Hf. apply negb_true_iff, Nat.eqb_neq in Hf. congruence.
  - destruct H6 as [y Hy].
    destruct (decide (p = _stoppedPromise st)) as [->|Hne].
    + rewrite list_lookup_insert_eq by by eapply lookup_lt_Some. by eexists.
    + rewrite list_lookup_insert_ne by done. by eexists.
Qed.

(** Replacing one generator object by one with the same [return()]
    requests in its queue. *)
Lemma heap_ok_replace gs ps ss sp g x y :
  heap_ok gs ps ss sp ->
  gs !! g = Some x ->
  (forall p, In (RReturn p) (queue y) <-> In (RReturn p) (queue x)) ->
  queue_ok (pc y) (returned y) (queue y) ->
  heap_ok (<[g := y]> gs) ps ss sp.
Proof.
  intros [H1 H2 H3 H4 H5 H6] Hx Hq Hy.
  assert (forall g' z, <[g := y]> gs !! g' = Some z ->
            exists z', gs !! g' = Some z' /\
              (forall p, In (RReturn p) (queue z) <-> In (RReturn p) (queue z'))
              /\ queue_ok (pc z) (returned z) (queue z)) as Hl.
  { intros g' z [(<- & <- & _)|[Hne Hz]]%list_lookup_insert_Some.
    - by exists x.
    - exists z. split; [done|]. split; [done|]. by eapply H1. }
  split; try done.
  - intros g' z Hz. by destruct (Hl _ _ Hz) as (z' & _ & _ & ?).
  - intros g' z p Hz Hin. destruct (Hl _ _ Hz) as (z' & Hz' & Hq' & _).
    eapply H2; [done|]. by apply Hq'.
  - intros g1 g2 z1 z2 p Hz1 Hz2 Hi1 Hi2.
    destruct (Hl _ _ Hz1) as (z1' & Hz1' & Hq1 & _).
    destruct (Hl _ _ Hz2) as (z2' & Hz2' & Hq2 & _).
    eapply H3; [done|done|by apply Hq1|by apply Hq2].
  - intros p Hp. destruct (H4 p Hp) as (g' & z & Hz & Hin).
    destruct (decide (g' = g)) as [->|Hne].
    + exists g, y. split.
      * apply list_lookup_insert_eq. by eapply lookup_lt_Some.
      * apply Hq. congruence.
    + exists g', z. split; [|done]. by rewrite list_lookup_insert_ne.
Qed.

Lemma state_inv_replace st st' g x y :
  state_inv st ->
  gens st !! g = Some x ->
  gens st' = <[g := y]> (gens st) ->
  _ping st' = _ping st -> promises st' = promises st ->
  stops st' = stops st -> _stoppedPromise st' = _stoppedPromise st ->
  returned y = returned x ->
  (forall p, In (RReturn p) (queue y) <-> In (RReturn p) (queue x)) ->
  queue_ok (pc y) (returned y) (queue y) ->
  state_inv st'.
Proof.
  intros [Hs Hh] Hx Hg Hp Hps Hss Hsp Hr Hq Hy. split.
  - intros g'. unfold not_returned. rewrite Hg, Hp.
    apply (slot_inv_set_gens g x y st Hx Hr Hs g').
  - unfold heap_inv. rewrite Hg, Hps, Hss, Hsp.
    by eapply heap_ok_replace.
Qed.

Lemma queue_ok_finalizing p p' r q :
  queue_ok p r q -> p <> PDone -> p' <> PDone -> p' <> PRead ->
  queue_ok p' r q.
Proof.
  intros H Hp Hp1 Hp2.
  destruct p, p', r; cbn in *; try done;
    try (destruct H as [pr H]; exists pr; by intuition);
    try (destruct H as [pr H]; exists pr; by left).
Qed.

Lemma state_inv_set_pc st g x p' :
  state_inv st -> gens st !! g = Some x ->
  pc x <> PDone -> p' <> PDone -> p' <> PRead ->
  state_inv (set_pc g p' st).1.2.
Proof.
  intros H Hx Hp Hp1 Hp2. rewrite (set_pc_eq _ _ _ _ Hx). cbn [fst snd].
  eapply (state_inv_replace st _ g x); try done.
  cbn [pc returned queue].
  apply (queue_ok_finalizing (pc x)); try done.
  by apply (heap_queue _ _ _ _ (proj2 H) g x).
Qed.

Lemma answer_next_state c st : (answer RNext c st).1.2 = st.
Proof. by destruct c. Qed.

Lemma heap_but_of_complete gs ps ss sp g x r pr :
  heap_ok gs ps ss sp -> gs !! g = Some x ->
  (forall p, In (RReturn p) (queue x) -> p = pr) ->
  In (RReturn pr) (queue x) ->
  heap_ok_but pr (<[g := Gen PDone [] r]> gs) ps ss sp.
Proof.
  intros [H1 H2 H3 H4 H5 H6] Hx Hq Hpr.
  assert (forall g' z, <[g := Gen PDone [] r]> gs !! g' = Some z ->
            (g' = g /\ z = Gen PDone [] r)
            \/ (g' <> g /\ gs !! g' = Some z)) as Hl.
  { intros g' z [(<- & <- & _)|[Hne Hz]]%list_lookup_insert_Some;
      [by left|right; split; [congruence|done]]. }
  split; try done.
  - intros g' z [[-> ->]|[_ Hz]]%Hl; [done|by eapply H1].
  - intros g' z p [[-> ->]|[_ Hz]]%Hl Hin; [done|by eapply H2].
  - intros g1 g2 z1 z2 p [[-> ->]|[_ Hz1]]%Hl [[-> ->]|[_ Hz2]]%Hl Hi1 Hi2;
      try done. by eapply H3.
  - intros p Hp Hne. destruct (H4 p Hp) as (g' & z & Hz & Hin).
    destruct (decide (g' = g)) as [->|Hg].
    + destruct Hne. apply Hq. congruence.
    + exists g', z. split; [|done]. by rewrite list_lookup_insert_ne.
  - intros g' z [[-> ->]|[Hne Hz]]%Hl Hin; [done|].
    apply Hne. by eapply (H3 g' g z x pr).
Qed.

Lemma state_inv_complete g c st x :
  state_inv st -> gens st !! g = Some x ->
  state_inv (complete g c st).1.2.
Proof.
  intros H Hx. unfold complete. rewrite bind_eq. cbn [get fst snd]. rewrite Hx.
  rewrite bind_eq. cbn [set_gen modify fst snd].
  set (st1 := set_gens _ st).
  assert (slot_inv st1) as Hs1.
  { by apply (slot_inv_set_gens g x (Gen PDone [] (returned x)) st Hx
                eq_refl (proj1 H)). }
  pose proof (heap_queue _ _ _ _ (proj2 H) g x Hx) as Hq.
  assert (forall pr, (forall p, In (RReturn p) (queue x) -> p = pr) ->
            In (RReturn pr) (queue x) -> heap_inv_but pr st1) as Hbut.
  { intros pr Hu Hi.
    exact (heap_but_of_complete _ _ _ _ g x _ pr (proj2 H) Hx Hu Hi). }
  assert ((forall p, ~ In (RReturn p) (queue x)) -> state_inv st1) as Hplain.
  { intros Hno. eapply (state_inv_replace st st1 g x); try done.
    intros p. split; [done|]. intros Hi. by destruct (Hno p). }
  destruct x as [p q r]. cbn [pc returned queue] in *.
  assert (q = [] \/ q = [RNext]
          \/ (exists pr, q = [RNext; RReturn pr])
          \/ (exists pr, q = [RReturn pr; RNext])) as Hcases.
  { destruct p, r; cbn in Hq; try (by left); try (by right; left);
      destruct Hq as [pr Hq]; try destruct Hq as [Hq|Hq];
      first [right; right; left; by exists pr
            |right; right; right; by exists pr]. }
  destruct Hcases as [->|[->|[[pr ->]|[pr ->]]]].
  - apply Hplain. by intros p' [].
  - rewrite answers_eq. cbn [fst snd]. apply keeps_inv_after_stop.
    rewrite answer_next_state. cbn [collect mret M_ret fst snd].
    apply Hplain. intros p' Hi. cbn in Hi. by intuition discriminate.
  - rewrite answers_eq. cbn [fst snd]. apply keeps_inv_after_stop.
    rewrite answer_next_state, collect_cons_eq.
    cbn [collect mret M_ret fst snd answer].
    apply settle_restores; [done|]. apply Hbut; [|by right; left].
    intros p' Hi. cbn in Hi. destruct Hi as [|[[= ->]|[]]]; done.
  - rewrite answers_eq. cbn [fst snd]. apply keeps_inv_after_stop.
    rewrite collect_cons_eq. cbn [collect mret M_ret fst snd].
    rewrite answer_next_state. cbn [answer].
    apply settle_restores; [done|]. apply Hbut; [|by left].
    intros p' Hi. cbn in Hi. destruct Hi as [[= ->]|[|[]]]; done.
Qed.

Lemma state_inv_enter_finally g c st x :
  state_inv st -> gens st !! g = Some x -> pc x = PRead ->
  state_inv (enter_finally g c st).1.2.
Proof.
  intros H Hx Hp. unfold enter_finally.
  repeat (rewrite bind_eq; cbn [emit fst snd]).
  apply (state_inv_set_pc st g x); try done. by rewrite Hp.
Qed.

Lemma queue_ok_next p r q :
  queue_ok p r (RNext :: q) ->
  p <> PDone
  /\ ((r = false /\ q = []) \/ (r = true /\ exists pr, q = [RReturn pr])).
Proof.
  destruct p, r; cbn; intros H; try discriminate; (split; [done|]);
    first [ left; split; [done|congruence]
          | destruct H as [pr H]; try destruct H as [H|H]; try discriminate;
            right; split; [done|exists pr; congruence] ].
Qed.

Lemma state_inv_on_yield g v st : state_inv st -> state_inv (on_yield g v st).1.2.
Proof.
  intros H. unfold on_yield. rewrite bind_eq. cbn [get fst snd].
  destruct (gens st !! g) as [[p [|[|pr0] q] ret]|] eqn:Hx; try done.
  pose proof (heap_queue _ _ _ _ (proj2 H) g _ Hx) as Hq.
  cbn [pc returned queue] in Hq.
  rewrite !bind_eq. cbn [emit fst snd]. rewrite set_ping_val_eq.
  cbn [fst snd set_gen modify].
  destruct (queue_ok_next _ _ _ Hq) as [Hp [[-> ->]|[-> [pr ->]]]].
  - cbn [app emit fst snd].
    by eapply (state_inv_replace st _ g _ (Gen PRead [RNext] false) H Hx).
  - cbn [app]. unfold enter_finally.
    repeat (rewrite bind_eq; cbn [emit fst snd]).
    set (st1 := set_gens _ _).
    assert (gens st1 !! g = Some (Gen PRead [RReturn pr; RNext] true)) as E1.
    { subst st1. unfold set_gens. cbn [gens set_label].
      apply list_lookup_insert_eq. by eapply lookup_lt_Some. }
    rewrite (set_pc_eq _ _ _ _ E1). cbn [fst snd pc queue returned].
    eapply (state_inv_replace st _ g _
              (Gen (PClose CReturn) [RReturn pr; RNext] true) H Hx); try done.
    + subst st1. unfold set_gens. cbn [gens set_label].
      by rewrite list_insert_insert_eq.
    + intros p'. cbn. tauto.
    + cbn. exists pr. by right.
Qed.

Lemma state_inv_on_read g r st : state_inv st -> state_inv (on_read g r st).1.2.
Proof.
  intros H. unfold on_read. rewrite bind_eq. cbn [get fst snd].
  destruct (gens st !! g) as [[[] q ret]|] eqn:Hx; try done.
  destruct r.
  - rewrite bind_eq. cbn [emit fst snd]. by apply state_inv_on_yield.
  - by eapply state_inv_enter_finally.
  - by eapply state_inv_enter_finally.
Qed.

(** Run the emits of a handler up to its last operation. *)
Ltac to_last_op :=
  unfold wait_proc_with_timeout_begin, wait_proc_with_timeout_end;
  repeat (rewrite bind_eq; cbn [emit fst snd]).

Ltac last_op H Hx :=
  first
    [ done
    | by apply (state_inv_complete _ _ _ _ H Hx)
    | by apply (state_inv_set_pc _ _ _ _ H Hx) ].

Lemma state_inv_on_close g r st : state_inv st -> state_inv (on_close g r st).1.2.
Proof.
  intros H. unfold on_close. rewrite bind_eq. cbn [get fst snd].
  destruct (gens st !! g) as [[[] q ret]|] eqn:Hx; try done.
  destruct r as [[pid|]|]; to_last_op; last_op H Hx.
Qed.

Lemma state_inv_on_timer g st : state_inv st -> state_inv (on_timer g st).1.2.
Proof.
  intros H. unfold on_timer. rewrite bind_eq. cbn [get fst snd].
  destruct (gens st !! g) as [[[| | |? ? []|? []|] q ret]|] eqn:Hx; try done;
    to_last_op; last_op H Hx.
Qed.

Lemma state_inv_on_wait g w st : state_inv st -> state_inv (on_wait g w st).1.2.
Proof.
  intros H. unfold on_wait. rewrite bind_eq. cbn [get fst snd].
  destruct (gens st !! g) as [[[| | |? ? []|? []|] q ret]|] eqn:Hx; try done;
    destruct w; to_last_op; last_op H Hx.
Qed.

Lemma state_inv_same st st' :
  gens st' = gens st -> _ping st' = _ping st -> promises st' = promises st ->
  stops st' = stops st -> _stoppedPromise st' = _stoppedPromise st ->
  state_inv st -> state_inv st'.
Proof.
  intros Hg Hp Hps Hss Hsp [Hs Hh]. split; [by apply (slot_inv_same st)|].
  unfold heap_inv. by rewrite Hg, Hps, Hss, Hsp.
Qed.

Lemma state_inv_await c st :
  state_inv st -> is_Some (promises st !! sc_promise c) ->
  state_inv (await_in_call c st).1.2.
Proof.
  intros H [y Hy]. unfold await_in_call. rewrite bind_eq. cbn [get fst snd].
  rewrite Hy. destruct y as [|o].
  2: { apply keeps_inv_bind; [apply keeps_inv_finish_call| |done].
       intros ks. apply keeps_inv_after_stop. }
  cbn [modify fst snd]. destruct H as [Hs [H1 H2 H3 H4 H5 H6]].
  split; [by apply (slot_inv_same st)|].
  split; try done.
  intros c' [Hc| [<-|[]]]%in_app_or; [by apply H5|done].
Qed.

Lemma heap_ok_alloc_settled gs ps ss sp o :
  heap_ok gs ps ss sp -> heap_ok gs (ps ++ [PSettled o]) ss (length ps).
Proof.
  intros [H1 H2 H3 H4 H5 H6]. split; try done.
  - intros g x p Hx Hin. apply lookup_app_l_Some. by eapply H2.
  - intros p [Hp|[_ Hp]]%lookup_app_Some; [by apply H4|].
    destruct (p - length ps)%nat; [done|done].
  - intros c Hc. apply lookup_app_l_Some. by apply H5.
  - exists (PSettled o). by rewrite lookup_app_r, Nat.sub_diag.
Qed.

Lemma heap_ok_return gs ps ss sp g x :
  heap_ok gs ps ss sp -> gs !! g = Some x ->
  queue x = [RNext] -> pc x <> PDone ->
  heap_ok (<[g := Gen (pc x) [RNext; RReturn (length ps)] true]> gs)
          (ps ++ [PPending]) ss (length ps).
Proof.
  intros [H1 H2 H3 H4 H5 H6] Hx Hq Hp.
  set (y := Gen (pc x) [RNext; RReturn (length ps)] true).
  assert (forall g' z, <[g := y]> gs !! g' = Some z ->
            (g' = g /\ z = y) \/ (g' <> g /\ gs !! g' = Some z)) as Hl.
  { intros g' z [(<- & <- & _)|[Hne Hz]]%list_lookup_insert_Some;
      [by left|right; split; [congruence|done]]. }
  assert (forall p, In (RReturn p) (queue y) -> p = length ps) as Hy.
  { intros p Hin. cbn in Hin. by destruct Hin as [|[[= <-]|[]]]. }
  assert (forall g' z p, gs !! g' = Some z -> In (RReturn p) (queue z) ->
            (p < length ps)%nat) as Hlt.
  { intros g' z p Hz Hin. eapply lookup_lt_Some. by eapply H2. }
  split.
  - intros g' z [[-> ->]|[_ Hz]]%Hl; [|by eapply H1].
    cbn [pc returned queue]. destruct (pc x); try done; eexists; by try left.
  - intros g' z p [[-> ->]|[_ Hz]]%Hl Hin.
    + rewrite (Hy _ Hin). by rewrite lookup_app_r, Nat.sub_diag.
    + apply lookup_app_l_Some. by eapply H2.
  - intros g1 g2 z1 z2 p [[-> ->]|[Hn1 Hz1]]%Hl [[-> ->]|[Hn2 Hz2]]%Hl Hi1 Hi2;
      try done.
    + apply Hy in Hi1 as ->. apply (Hlt _ _ _ Hz2) in Hi2. lia.
    + apply Hy in Hi2 as ->. apply (Hlt _ _ _ Hz1) in Hi1. lia.
    + by eapply H3.
  - intros p [Hpp|[Hle Hpp]]%lookup_app_Some.
    + destruct (H4 p Hpp) as (g' & z & Hz & Hin).
      destruct (decide (g' = g)) as [->|Hne].
      * assert (z = x) as -> by congruence. rewrite Hq in Hin.
        cbn in Hin. by intuition discriminate.
      * exists g', z. split; [|done]. by rewrite list_lookup_insert_ne.
    + destruct (p - length ps)%nat eqn:Ed; [|by destruct n].
      assert (p = length ps) as -> by lia.
      exists g, y. split.
      * apply list_lookup_insert_eq. by eapply lookup_lt_Some.
      * cbn. by right; left.
  - intros c Hc. apply lookup_app_l_Some. by apply H5.
  - exists PPending. by rewrite lookup_app_r, Nat.sub_diag.
Qed.

Lemma gen_return_done g st q r :
  gens st !! g = Some (Gen PDone q r) ->
  gen_return g st
  = (length (promises st),
     set_gens (<[g := Gen PDone q true]> (gens st))
       (set_promises (promises st ++ [PSettled Fulfilled]) st), []).
Proof.
  intros Hx. unfold gen_return. rewrite bind_eq. cbn [get fst snd]. rewrite Hx.
  by rewrite !bind_eq.
Qed.

Lemma gen_return_running g st p q r :
  gens st !! g = Some (Gen p q r) -> p <> PDone ->
  gen_return g st
  = (length (promises st),
     set_gens (<[g := Gen p (q ++ [RReturn (length (promises st))]) true]>
                 (gens st))
       (set_promises (promises st ++ [PPending]) st), []).
Proof.
  intros Hx Hp. unfold gen_return. rewrite bind_eq. cbn [get fst snd].
  rewrite Hx. destruct p; try done; by rewrite !bind_eq.
Qed.

(** After [return()] on the session in [_ping] the slot is empty. *)
Lemma slot_inv_returned st g x y gs :
  slot_inv st -> _ping st = Some g -> gens st !! g = Some x ->
  returned y = true -> gs = <[g := y]> (gens st) ->
  forall st', gens st' = gs -> _ping st' = None -> slot_inv st'.
Proof.
  intros Hs Hp Hx Hy -> st' Hg Hp' g'. unfold not_returned. rewrite Hg, Hp'.
  split; [done|]. intros (z & Hz & Hr).
  apply list_lookup_insert_Some in Hz as [(<- & <- & _)|[Hne Hz]];
    [congruence|].
  assert (not_returned st g') as Ha by (by exists z).
  apply Hs in Ha. congruence.
Qed.

Lemma state_inv_stop b st : state_inv st -> state_inv (_stop b st).1.2.
Proof.
  intros H. unfold _stop. rewrite bind_eq. cbn [get fst snd].
  rewrite bind_eq. cbn [modify fst snd].
  destruct (_ping st) as [g|] eqn:Ep.
  - rewrite bind_eq. cbn [modify fst snd].
    set (st1 := set_ping None (set_calls (S (calls st)) st)).
    destruct (proj1 (proj1 H g) Ep) as ([p q r] & Hx & Hr).
    cbn [returned] in Hr. subst r.
    pose proof (heap_queue _ _ _ _ (proj2 H) g _ Hx) as Hq.
    cbn [pc returned queue] in Hq.
    assert (gens st1 !! g = Some (Gen p q false)) as Hx1 by done.
    assert (p = PDone \/ p <> PDone) as [->|Hp]
      by (destruct p; (by left) || (by right)).
    + rewrite bind_eq, (gen_return_done _ _ _ _ Hx1). cbn [fst snd].
      rewrite bind_eq. cbn [modify fst snd].
      apply state_inv_await.
      * split.
        -- by eapply (slot_inv_returned st g _ (Gen PDone q true) _
                        (proj1 H) Ep Hx).
        -- unfold heap_inv. cbn.
           apply (heap_ok_alloc_settled _ _ _ (_stoppedPromise st)).
           eapply heap_ok_replace; [apply (proj2 H)|done|done|].
           cbn in *. done.
      * cbn. exists (PSettled Fulfilled).
        by rewrite lookup_app_r, Nat.sub_diag.
    + rewrite bind_eq, (gen_return_running _ _ _ _ _ Hx1 Hp). cbn [fst snd].
      rewrite bind_eq. cbn [modify fst snd].
      assert (q = [RNext]) as -> by (by destruct p).
      apply state_inv_await.
      * split.
        -- by eapply (slot_inv_returned st g _
                        (Gen p ([RNext] ++ [RReturn _]) true) _
                        (proj1 H) Ep Hx).
        -- unfold heap_inv. cbn.
           by apply (heap_ok_return _ _ _ _ g (Gen p [RNext] false) (proj2 H) Hx).
      * cbn. exists PPending. by rewrite lookup_app_r, Nat.sub_diag.
  - apply state_inv_await.
    + by apply (state_inv_same st).
    + apply (heap_stopped _ _ _ _ (proj2 H)).
Qed.

Lemma state_inv_step e st : state_inv st -> state_inv (step e st).1.
Proof.
  intros H. rewrite step_eq. cbn [fst]. destruct e; cbn [handle].
  - unfold on_applet_added_to_panel. rewrite bind_eq. cbn [modify fst snd].
    apply keeps_inv_start. by apply (state_inv_same st).
  - unfold on_applet_removed_from_panel. rewrite bind_eq. cbn [modify fst snd].
    apply state_inv_stop. by apply (state_inv_same st).
  - unfold on_settings_changed, set_applet_tooltip.
    rewrite bind_eq. cbn [modify fst snd].
    rewrite bind_eq. cbn beta. rewrite (bind_eq (emit _)). cbn [emit modify fst snd].
    set (st1 := set_tooltip _ _).
    assert (state_inv st1) as H1 by (by apply (state_inv_same st)).
    rewrite bind_eq. cbn [get fst snd].
    destruct (_is_in_panel st1); [|done].
    destruct (_ping st1); rewrite bind_eq; cbn [emit fst snd].
    + by apply state_inv_stop.
    + by apply keeps_inv_start.
  - by apply state_inv_on_read.
  - by apply state_inv_on_close.
  - by apply state_inv_on_timer.
  - by apply state_inv_on_wait.
Qed.

Lemma state_inv_run t h i es : state_inv (run_from_start t h i es).1.
Proof.
  unfold run_from_start.
  induction es as [|e es IH] using rev_ind.
  - split; [apply (slot_inv_run t h i [])|].
    destruct h; cbn; (split; try done); cbn.
    all: try (intros [|p] Hp; cbn in Hp; discriminate).
    all: try (intros g x; by rewrite lookup_nil).
    all: try (intros g x p; by rewrite lookup_nil).
    all: try (intros g1 g2 x1 x2 p; by rewrite lookup_nil).
  - rewrite run_snoc. cbn [fst]. by apply state_inv_step.
Qed.

(** * Actions that a piece of code does not perform *)

Lemma emits_none_ret p {A : Type} (x : A) : emits_none p (mret x : M A).
Proof. by intros st. Qed.

Lemma emits_none_bind p {A B : Type} (m : M A) (k : A -> M B) :
  emits_none p m -> (forall x, emits_none p (k x)) -> emits_none p (m ≫= k).
Proof.
  intros Hm Hk st. rewrite bind_eq. cbn [snd].
  by rewrite List.filter_app, Hm, Hk.
Qed.

Lemma emits_none_emit p a : p a = false -> emits_none p (emit a).
Proof. intros H st. cbn. by rewrite H. Qed.

Lemma emits_none_modify p f : emits_none p (modify f).
Proof. by intros st. Qed.

Lemma emits_none_get_bind p {B : Type} (k : state -> M B) :
  (forall s, emits_none p (k s)) -> emits_none p (get ≫= k).
Proof. intros H. apply emits_none_bind; [by intros st|done]. Qed.

Lemma emits_none_for_each p {A : Type} (l : list A) (k : A -> M unit) :
  (forall x, emits_none p (k x)) -> emits_none p (for_each l k).
Proof.
  intros H. induction l as [|x l IH]; cbn [for_each].
  - apply emits_none_ret.
  - apply emits_none_bind; [apply H|]. by intros _.
Qed.

Lemma emits_none_collect p {A B : Type} (l : list A)
    (k : A -> M (list B)) :
  (forall x, emits_none p (k x)) -> emits_none p (collect l k).
Proof.
  intros H. induction l as [|x l IH]; cbn [collect].
  - apply emits_none_ret.
  - apply emits_none_bind; [apply H|]. intros r.
    apply emits_none_bind; [apply IH|]. intros rs. apply emits_none_ret.
Qed.

(** Decompose a handler down to its emits; an emit is settled by
    evaluating the kind [p] on the action. *)
Ltac none_steps :=
  repeat lazymatch goal with
  | |- emits_none _ (mret _) => apply emits_none_ret
  | |- emits_none _ skip => apply emits_none_ret
  | |- emits_none _ (emit _) => apply emits_none_emit; reflexivity
  | |- emits_none _ (modify _) => apply emits_none_modify
  | |- emits_none _ (set_gen _ _) => apply emits_none_modify
  | |- emits_none _ (get ≫= _) => apply emits_none_get_bind; intros ?
  | |- emits_none _ (_ ≫= _) => apply emits_none_bind; [|intros ?]
  | |- emits_none _ (for_each _ _) => apply emits_none_for_each; intros ?
  | |- emits_none _ (collect _ _) => apply emits_none_collect; intros ?
  | |- emits_none _ (match ?x with _ => _ end) => destruct x
  | |- emits_none _ (if ?x then _ else _) => destruct x
  | |- emits_none _ _start => unfold _start
  | |- emits_none _ (after_stop _) => unfold after_stop
  | |- emits_none _ (finish_call _ _) => unfold finish_call
  | |- emits_none _ (settle _ _) => unfold settle
  | |- emits_none _ (answer ?r _) => destruct r; cbn [answer]
  | |- emits_none _ (complete _ _) => unfold complete
  | |- emits_none _ (set_pc _ _) => unfold set_pc
  | |- emits_none _ (enter_finally _ _) => unfold enter_finally
  | |- emits_none _ (await_in_call _) => unfold await_in_call
  | |- emits_none _ (gen_return _) => unfold gen_return
  | |- emits_none _ (_stop _) => unfold _stop
  | |- emits_none _ (wait_proc_with_timeout_begin _ _) =>
      unfold wait_proc_with_timeout_begin
  | |- emits_none _ (wait_proc_with_timeout_end _) =>
      unfold wait_proc_with_timeout_end
  | |- emits_none _ (set_applet_tooltip _) => unfold set_applet_tooltip
  | |- emits_none _ (on_close _ _) => unfold on_close
  | |- emits_none _ (on_timer _) => unfold on_timer
  | |- emits_none _ (on_wait _ _) => unfold on_wait
  | |- emits_none _ on_applet_added_to_panel => unfold on_applet_added_to_panel
  | |- emits_none _ on_applet_removed_from_panel =>
      unfold on_applet_removed_from_panel
  | |- emits_none _ (on_settings_changed _ _ _) => unfold on_settings_changed
  | |- _ => fail
  end.

(** * The label follows the samples *)

Lemma label_kept_by_others e :
  (forall g l, e <> ERead g (RLine l)) ->
  emits_none is_set_label (handle e) /\ unchanged label (handle e).
Proof.
  intros He.
  assert (heap_blind label) as Hb by (by repeat split).
  destruct e; cbn [handle].
  - split; [none_steps|].
    unfold on_applet_added_to_panel.
    apply unchanged_bind; [by apply unchanged_modify|intros _].
    by apply unchanged_start.
  - split; [none_steps|].
    unfold on_applet_removed_from_panel.
    apply unchanged_bind; [by apply unchanged_modify|intros _].
    by apply unchanged_stop.
  - split; [none_steps|].
    unfold on_settings_changed, set_applet_tooltip.
    apply unchanged_bind; [by apply unchanged_modify|intros _].
    apply unchanged_bind.
    { apply unchanged_bind; [apply unchanged_emit|intros _].
      by apply unchanged_modify. }
    intros _. by apply settings_rest_unchanged.
  - destruct r; [by destruct (He g line)| |];
      (split; [unfold on_read; none_steps|]);
      unfold on_read; apply unchanged_get_bind; intros s;
      destruct (gens s !! g) as [[[] ? ?]|]; try apply unchanged_ret;
      by apply unchanged_enter_finally.
  - split; [none_steps|by apply unchanged_on_close].
  - split; [none_steps|by apply unchanged_on_timer].
  - split; [none_steps|by apply unchanged_on_wait].
Qed.

Lemma read_line_delivers st g x line :
  state_inv st -> gens st !! g = Some x -> pc x = PRead ->
  (step (ERead g (RLine line)) st).2
  = [ALog (LLine line); ADeliver g (parse_line line);
     ASetLabel (label_text (title st) (parse_line line))]
    ++ (if returned x then [ACancelRead g; ACloseStart g] else [AReadStart g])
  /\ label (step (ERead g (RLine line)) st).1
     = label_text (title st) (parse_line line)
  /\ view g (step (ERead g (RLine line)) st).1
     = Some (if returned x then PClose CReturn else PRead).
Proof.
  intros H Hx Hp. destruct x as [p q ret]. cbn [pc returned] in *. subst p.
  pose proof (heap_queue _ _ _ _ (proj2 H) g _ Hx) as Hq.
  cbn [pc returned queue] in Hq.
  rewrite step_eq. cbn [handle fst snd].
  unfold on_read. rewrite bind_eq. cbn [get fst snd]. rewrite Hx.
  rewrite bind_eq. cbn [emit fst snd app].
  unfold on_yield. rewrite bind_eq. cbn [get fst snd app]. rewrite Hx.
  assert (forall s, label (set_gens (<[g := s]> (gens st))
            (set_label (label_text (title st) (parse_line line)) st))
          = label_text (title st) (parse_line line)) as Hlab by done.
  destruct ret.
  - destruct Hq as [pr ->].
    rewrite !bind_eq. cbn [emit fst snd]. rewrite set_ping_val_eq.
    cbn [fst snd set_gen modify app].
    set (st1 := set_gens _ _).
    assert (gens st1 !! g = Some (Gen PRead [RReturn pr; RNext] true)) as E1.
    { subst st1. unfold set_gens. cbn [gens set_label].
      apply list_lookup_insert_eq. by eapply lookup_lt_Some. }
    unfold enter_finally. repeat (rewrite bind_eq; cbn [emit fst snd]).
    rewrite (set_pc_eq _ _ _ _ E1). cbn [fst snd app].
    split; [done|]. split; [done|].
    rewrite view_set_gens_eq; [done|]. by eapply lookup_lt_Some.
  - rewrite Hq.
    rewrite !bind_eq. cbn [emit fst snd]. rewrite set_ping_val_eq.
    cbn [fst snd set_gen modify app emit].
    split; [done|]. split; [done|].
    rewrite view_set_gens_eq; [done|].
    unfold set_label. cbn [gens]. by eapply lookup_lt_Some.
Qed.

Lemma read_ignored st g r :
  view g st <> Some PRead -> step (ERead g r) st = (st, []).
Proof.
  intros Hv. rewrite step_eq. cbn [handle]. unfold on_read.
  rewrite bind_eq. cbn [get fst snd]. unfold view in Hv.
  by destruct (gens st !! g) as [[[] ? ?]|].
Qed.

(** The label is set by the loop body and by nothing else: a line read by
    a session that is suspended in its read is parsed, delivered and
    rendered with the title of that moment, in this order; a result of a
    read for any other session is ignored; and no other event, in
    particular no change of the title, touches the label. *)
Theorem label_follows_samples (t h : option jsstring) (i : N)
    (es : list event) :
  let st := (run_from_start t h i es).1 in
  (forall g x line,
      gens st !! g = Some x -> pc x = PRead ->
      (step (ERead g (RLine line)) st).2
      = [ALog (LLine line); ADeliver g (parse_line line);
         ASetLabel (label_text (title st) (parse_line line))]
        ++ (if returned x then [ACancelRead g; ACloseStart g]
            else [AReadStart g])
      /\ label (step (ERead g (RLine line)) st).1
         = label_text (title st) (parse_line line))
  /\ (forall g r, view g st <> Some PRead -> step (ERead g r) st = (st, []))
  /\ (forall e,
        (forall g line, e <> ERead g (RLine line)) ->
        label (step e st).1 = label st
        /\ List.filter is_set_label (step e st).2 = []).
Proof.
  intros st. pose proof (state_inv_run t h i es) as H. fold st in H.
  split; [|split].
  - intros g x line Hx Hp.
    destruct (read_line_delivers st g x line H Hx Hp) as (H1 & H2 & _).
    by split.
  - intros g r. apply read_ignored.
  - intros e He. destruct (label_kept_by_others e He) as [Hn Hu].
    rewrite step_eq. cbn [fst snd]. split; [apply Hu|apply Hn].
Qed.

Lemma label_follows_samples_witness :
  let st := (run_from_start (Some (lit "dns")) None 5 [EAdded; ERemoved]).1 in
  (gens st !! 0%nat = Some (Gen PRead [RNext; RReturn 1] true)
   /\ label (step (ERead 0 (RLine (lit "time=1.5 ms"))) st).1
      = lit "dns 1.5 ms")
  /\ (view 1 st <> Some PRead /\ step (ERead 1 REof) st = (st, []))
  /\ label (step (ESettings (Some (lit "x")) None 5) st).1 = lit "dns N/A".
Proof.
  intros st.
  pose proof (label_follows_samples (Some (lit "dns")) None 5
                [EAdded; ERemoved]) as (H1 & H2 & H3).
  fold st in H1, H2, H3.
  assert (gens st !! 0%nat = Some (Gen PRead [RNext; RReturn 1] true)) as Hx
    by (vm_compute; reflexivity).
  assert (view 1 st <> Some PRead) as Hv by (vm_compute; discriminate).
  split; [|split].
  - split; [exact Hx|].
    exact (proj2 (H1 0%nat _ (lit "time=1.5 ms") Hx eq_refl)).
  - split; [exact Hv|]. exact (H2 1%nat REof Hv).
  - apply (H3 (ESettings (Some (lit "x")) None 5)). intros g line. discriminate.
Defined.

(** * The request queues and the suspended calls *)

(** In every reachable state the queue of a completed generator is empty;
    a generator that has not completed has exactly one pending [next()], and
    one [return()] besides it exactly when [return()] was called on it:
    behind the [next()] while the loop body is being served, before it once
    a sample was yielded and the finalizer runs.  The promise of a queued
    [return()] is pending. *)
Theorem queue_discipline (t h : option jsstring) (i : N)
    (es : list event) (g : nat) (x : gen) :
  let st := (run_from_start t h i es).1 in
  gens st !! g = Some x ->
  (pc x = PDone -> queue x = [])
  /\ (pc x <> PDone -> returned x = false -> queue x = [RNext])
  /\ (pc x <> PDone -> returned x = true ->
      exists pr,
        (queue x = [RNext; RReturn pr]
         \/ (pc x <> PRead /\ queue x = [RReturn pr; RNext]))
        /\ promises st !! pr = Some PPending).
Proof.
  intros st Hx. pose proof (state_inv_run t h i es) as [_ H]. fold st in H.
  pose proof (heap_queue _ _ _ _ H g x Hx) as Hq.
  pose proof (heap_pending _ _ _ _ H g x) as Hp.
  destruct x as [p q r]. cbn [pc returned queue] in *.
  split; [|split].
  - intros ->. by destruct r.
  - intros Hne ->. by destruct p.
  - intros Hne ->.
    assert (exists pr, q = [RNext; RReturn pr]
                       \/ (p <> PRead /\ q = [RReturn pr; RNext]))
      as [pr Hpr].
    { destruct p; try done; cbn in Hq; destruct Hq as [pr Hq];
        exists pr; try (by left);
        destruct Hq as [Hq|Hq]; (by left) || (by right). }
    exists pr. split; [done|]. apply Hp; [done|].
    destruct Hpr as [->|[_ ->]]; cbn; tauto.
Qed.

Lemma queue_discipline_witness :
  let st := (run_from_start None None 5
               [EAdded; ERemoved; ERead 0 (RLine (lit "x"))]).1 in
  gens st !! 0%nat = Some (Gen (PClose CReturn) [RReturn 1; RNext] true)
  /\ exists pr,
       ([RReturn 1; RNext] = [RNext; RReturn pr]
        \/ (PClose CReturn <> PRead /\ [RReturn 1; RNext] = [RReturn pr; RNext]))
       /\ promises st !! pr = Some PPending.
Proof.
  intros st.
  assert (gens st !! 0%nat
          = Some (Gen (PClose CReturn) [RReturn 1; RNext] true)) as Hx
    by (vm_compute; reflexivity).
  split; [exact Hx|].
  refine (proj2 (proj2 (queue_discipline None None 5
    [EAdded; ERemoved; ERead 0 (RLine (lit "x"))] 0%nat _ Hx)) _ eq_refl).
  discriminate.
Defined.



(** * The panel flag and the sessions spawned *)

Lemma heap_blind_panel : heap_blind _is_in_panel.
Proof. by repeat split. Qed.

Lemma panel_flag_step e st :
  _is_in_panel (step e st).1 = last_panel_event (_is_in_panel st) [e].
Proof.
  destruct e; cbn [last_panel_event].
  - rewrite step_eq. cbn [fst handle]. unfold on_applet_added_to_panel.
    rewrite bind_eq. cbn [modify fst snd].
    by rewrite (unchanged_start _ heap_blind_panel).
  - rewrite step_eq. cbn [fst handle]. unfold on_applet_removed_from_panel.
    rewrite bind_eq. cbn [modify fst snd].
    by rewrite (unchanged_stop _ heap_blind_panel).
  - by rewrite (step_settings_eq _ _ _ _ _ heap_blind_panel).
  - rewrite step_eq. by apply (unchanged_on_read _ heap_blind_panel).
  - rewrite step_eq. by apply (unchanged_on_close _ heap_blind_panel).
  - rewrite step_eq. by apply (unchanged_on_timer _ heap_blind_panel).
  - rewrite step_eq. by apply (unchanged_on_wait _ heap_blind_panel).
Qed.

Lemma panel_flag_run es st :
  _is_in_panel (run es st).1 = last_panel_event (_is_in_panel st) es.
Proof.
  revert st. induction es as [|e es IH]; intros st; [done|].
  rewrite run_cons. cbn [fst]. rewrite IH, panel_flag_step.
  by destruct e.
Qed.

(** [_is_in_panel] tells which callback of the panel came last, whatever
    settings changes and completions of Gio calls came in between; and a
    settings change starts or restarts ping exactly when the applet is in
    the panel by that account. *)
Theorem panel_flag_is_last_callback (t h : option jsstring) (i : N)
    (es : list event) :
  let st := (run_from_start t h i es).1 in
  _is_in_panel st = last_panel_event false es
  /\ forall t' h' i',
       last_panel_event false es = false ->
       step (ESettings t' h' i') st
       = (set_tooltip (host_or_empty h') (set_config t' h' i' st),
          [ASetTooltip (host_or_empty h')]).
Proof.
  intros st.
  assert (_is_in_panel st = last_panel_event false es) as Hp.
  { unfold st, run_from_start. rewrite panel_flag_run. by destruct h. }
  split; [done|]. intros t' h' i' Hl. rewrite Hl in Hp.
  rewrite step_eq. cbn [handle]. unfold on_settings_changed, set_applet_tooltip.
  rewrite !bind_eq. cbn [modify emit get fst snd set_tooltip set_config
                           _is_in_panel].
  by rewrite Hp.
Qed.

Lemma panel_flag_is_last_callback_witness :
  let es := [EAdded; ESettings None None 3; ERemoved; ERead 0 REof] in
  let st := (run_from_start None None 5 es).1 in
  last_panel_event false es = false
  /\ step (ESettings None (Some (lit "h")) 1) st
     = (set_tooltip (lit "h") (set_config None (Some (lit "h")) 1 st),
        [ASetTooltip (lit "h")]).
Proof.
  intros es st. split; [reflexivity|].
  exact (proj2 (panel_flag_is_last_callback None None 5 es)
           None (Some (lit "h")) 1 eq_refl).
Defined.

Lemma spawned_app tr1 tr2 : spawned (tr1 ++ tr2) = spawned tr1 ++ spawned tr2.
Proof. apply omap_app. Qed.

Lemma spawns_ret {A : Type} (x : A) : spawns_in_order (mret x : M A).
Proof. intros st. exists 0%nat. split; [cbn; lia|done]. Qed.

Lemma spawns_bind {A B : Type} (m : M A) (k : A -> M B) :
  spawns_in_order m -> (forall x, spawns_in_order (k x)) ->
  spawns_in_order (m ≫= k).
Proof.
  intros Hm Hk st. rewrite bind_eq. cbn [fst snd].
  destruct (Hm st) as (n1 & Hl1 & Hs1).
  destruct (Hk (m st).1.1 (m st).1.2) as (n2 & Hl2 & Hs2).
  exists (n1 + n2)%nat. split; [lia|].
  by rewrite spawned_app, Hs1, Hs2, Hl1, seq_app.
Qed.

Lemma spawns_emit a : is_spawn a = false -> spawns_in_order (emit a).
Proof.
  intros H st. exists 0%nat. split; [cbn; lia|]. by destruct a.
Qed.

Lemma spawns_modify f :
  (forall st, length (gens (f st)) = length (gens st)) ->
  spawns_in_order (modify f).
Proof. intros H st. exists 0%nat. split; [cbn; rewrite H; lia|done]. Qed.

Lemma spawns_get_bind {B : Type} (k : state -> M B) :
  (forall s, spawns_in_order (k s)) -> spawns_in_order (get ≫= k).
Proof. intros H. apply spawns_bind; [|done]. intros st. by exists 0%nat. Qed.

Lemma spawns_for_each {A : Type} (l : list A) (k : A -> M unit) :
  (forall x, spawns_in_order (k x)) -> spawns_in_order (for_each l k).
Proof.
  intros H. induction l as [|x l IH]; cbn [for_each].
  - apply spawns_ret.
  - apply spawns_bind; [apply H|]. by intros _.
Qed.

Lemma spawns_collect {A B : Type} (l : list A) (k : A -> M (list B)) :
  (forall x, spawns_in_order (k x)) -> spawns_in_order (collect l k).
Proof.
  intros H. induction l as [|x l IH]; cbn [collect].
  - apply spawns_ret.
  - apply spawns_bind; [apply H|]. intros r.
    apply spawns_bind; [apply IH|]. intros rs. apply spawns_ret.
Qed.

Lemma spawns_start : spawns_in_order _start.
Proof.
  intros st. unfold _start. rewrite bind_eq. cbn [get fst snd].
  destruct (_ping st).
  - exists 0%nat. split; [cbn; lia|done].
  - exists 1%nat. rewrite !bind_eq. cbn [modify emit fst snd].
    unfold set_ping, set_gens. cbn [gens].
    split; [by rewrite length_app|done].
Qed.

Ltac spawn_steps :=
  repeat lazymatch goal with
  | |- spawns_in_order (mret _) => apply spawns_ret
  | |- spawns_in_order skip => apply spawns_ret
  | |- spawns_in_order _start => apply spawns_start
  | |- spawns_in_order (emit _) => apply spawns_emit; reflexivity
  | |- spawns_in_order (modify _) => apply spawns_modify; done
  | |- spawns_in_order (set_gen _ _) =>
      apply spawns_modify; intros ?; apply length_insert
  | |- spawns_in_order (get ≫= _) => apply spawns_get_bind; intros ?
  | |- spawns_in_order (_ ≫= _) => apply spawns_bind; [|intros ?]
  | |- spawns_in_order (for_each _ _) => apply spawns_for_each; intros ?
  | |- spawns_in_order (collect _ _) => apply spawns_collect; intros ?
  | |- spawns_in_order (match ?x with _ => _ end) => destruct x
  | |- spawns_in_order (if ?x then _ else _) => destruct x
  | |- spawns_in_order (after_stop _) => unfold after_stop
  | |- spawns_in_order (finish_call _ _) => unfold finish_call
  | |- spawns_in_order (settle _ _) => unfold settle
  | |- spawns_in_order (answer ?r _) => destruct r; cbn [answer]
  | |- spawns_in_order (complete _ _) => unfold complete
  | |- spawns_in_order (set_pc _ _) => unfold set_pc
  | |- spawns_in_order (enter_finally _ _) => unfold enter_finally
  | |- spawns_in_order (await_in_call _) => unfold await_in_call
  | |- spawns_in_order (gen_return _) => unfold gen_return
  | |- spawns_in_order (_stop _) => unfold _stop
  | |- spawns_in_order (_set_ping_val _) =>
      unfold _set_ping_val, set_applet_label
  | |- spawns_in_order (on_yield _ _) => unfold on_yield
  | |- spawns_in_order (wait_proc_with_timeout_begin _ _) =>
      unfold wait_proc_with_timeout_begin
  | |- spawns_in_order (wait_proc_with_timeout_end _) =>
      unfold wait_proc_with_timeout_end
  | |- spawns_in_order (set_applet_tooltip _) => unfold set_applet_tooltip
  | |- _ => fail
  end.

Lemma spawns_handle e : spawns_in_order (handle e).
Proof.
  destruct e; cbn [handle];
    unfold on_applet_added_to_panel, on_applet_removed_from_panel,
      on_settings_changed, on_read, on_close, on_timer, on_wait;
    spawn_steps.
Qed.

(** Every generator object of the heap has had its process spawned,
    once, and the processes are numbered in the order of their creation:
    the [n]-th spawn of a run belongs to generator [n]. *)
Theorem one_spawn_per_session (t h : option jsstring) (i : N)
    (es : list event) :
  spawned (run_from_start t h i es).2
  = seq 0 (length (gens (run_from_start t h i es).1)).
Proof.
  unfold run_from_start.
  induction es as [|e es IH] using rev_ind.
  - by destruct h.
  - rewrite run_snoc, step_eq. cbn [fst snd].
    destruct (spawns_handle e (run es (construct t h i).1).1) as (n & Hl & Hs).
    by rewrite spawned_app, IH, Hs, Hl, seq_app.
Qed.

(** * The update loop ends with its generator *)

Lemma settle_no_loop_stop p o : emits_none is_loop_stopped (settle p o).
Proof. none_steps. Qed.










Ltac prefix_before acts tl :=
  lazymatch acts with
  | tl => constr:(@nil action)
  | ?a :: ?rest => let p := prefix_before rest tl in constr:(a :: p)
  end.








(** * Restarting after a change of the settings *)

Lemma start_idle_eq st :
  _ping st = None ->
  _start st
  = (tt, started st,
     [ASpawn (length (gens st)) (host st) (interval st);
      AReadStart (length (gens st))]).
Proof.
  intros Hp. unfold _start. rewrite bind_eq. cbn [get fst snd]. rewrite Hp.
  by rewrite !bind_eq.
Qed.

Lemma start_busy_eq st : _ping st <> None -> _start st = (tt, st, []).
Proof.
  intros Hp. unfold _start. rewrite bind_eq. cbn [get fst snd].
  by destruct (_ping st).
Qed.

(** The rest of a call of [_stop] only logs. *)
Lemma finish_call_frame c o st :
  (finish_call c o st).1.2 = st /\ spawned (finish_call c o st).2 = [].
Proof. unfold finish_call. by destruct (sc_guarded c), o. Qed.

Lemma finish_call_none c o st :
  sc_then_start c = false -> (finish_call c o st).1.1 = [].
Proof.
  intros Et. unfold finish_call. rewrite Et. by destruct (sc_guarded c), o.
Qed.

Lemma finish_call_some c o st :
  sc_then_start c = true -> sc_guarded c = true ->
  (finish_call c o st).1.1 = [c].
Proof. intros Et Eg. unfold finish_call. rewrite Et, Eg. by destruct o. Qed.

Lemma finish_calls_frame l o st :
  (collect l (fun c => finish_call c o) st).1.2 = st
  /\ spawned (collect l (fun c => finish_call c o) st).2 = [].
Proof.
  revert st. induction l as [|c l IH]; intros st; [done|].
  rewrite collect_cons_eq. cbn [fst snd].
  destruct (finish_call_frame c o st) as [-> Hs].
  destruct (IH st) as [-> Hs'].
  split; [done|]. by rewrite spawned_app, Hs, Hs'.
Qed.

Lemma finish_calls_none l o st :
  (forall c, In c l -> sc_then_start c = false) ->
  (collect l (fun c => finish_call c o) st).1.1 = [].
Proof.
  revert st. induction l as [|c l IH]; intros st Hc; [done|].
  rewrite collect_cons_eq. cbn [fst snd].
  rewrite finish_call_none by (apply Hc; by left).
  rewrite IH; [done|]. intros c' Hc'. apply Hc. by right.
Qed.

Lemma finish_calls_some l o st :
  (forall c, In c l -> sc_then_start c = true -> sc_guarded c = true) ->
  (exists c, In c l /\ sc_then_start c = true) ->
  (collect l (fun c => finish_call c o) st).1.1 <> [].
Proof.
  revert st. induction l as [|c l IH]; intros st Hg (c0 & Hin & Ht).
  { by destruct Hin. }
  rewrite collect_cons_eq. cbn [fst snd].
  destruct (sc_then_start c) eqn:Et.
  - by rewrite finish_call_some by (done || apply Hg; by left || done).
  - rewrite finish_call_none by done. cbn [app].
    apply IH.
    + intros c' Hc'. apply Hg. by right.
    + destruct Hin as [<-|Hin]; [congruence|]. by exists c0.
Qed.

(** Settling a promise spawns nothing by itself. *)
Lemma settle_frame p o st :
  (settle p o st).1.2 = settled p o st /\ spawned (settle p o st).2 = [].
Proof.
  unfold settle. rewrite bind_eq. cbn [get fst snd].
  rewrite bind_eq. cbn [modify fst snd]. rewrite bind_eq. cbn [modify fst snd].
  apply (finish_calls_frame _ o (settled p o st)).
Qed.

Lemma settle_result p o st :
  (settle p o st).1.1
  = (collect (List.filter (awaits p) (stops st))
       (fun c => finish_call c o) (settled p o st)).1.1.
Proof.
  unfold settle. rewrite bind_eq. cbn [get fst snd].
  rewrite bind_eq. cbn [modify fst snd]. by rewrite bind_eq.
Qed.

(** No call of [on_settings_changed] waits on the promise: none goes on. *)
Lemma settle_none p o st :
  (forall c, In c (stops st) -> awaits p c = true -> sc_then_start c = false) ->
  (settle p o st).1.1 = [].
Proof.
  intros Hc. rewrite settle_result. apply finish_calls_none.
  intros c [Hin Ha]%filter_In. by apply Hc.
Qed.

Lemma settle_some p o st :
  (forall c, In c (stops st) -> awaits p c = true ->
     sc_then_start c = true -> sc_guarded c = true) ->
  (exists c, In c (stops st) /\ awaits p c = true /\ sc_then_start c = true) ->
  (settle p o st).1.1 <> [].
Proof.
  intros Hg (c0 & Hin & Ha & Ht). rewrite settle_result.
  apply finish_calls_some.
  - intros c [Hc Hc']%filter_In. by apply Hg.
  - exists c0. split; [|done]. by apply filter_In.
Qed.

(** The calls of [on_settings_changed] that go on: the first one starts a
    session when none is held, and the others find it. *)
Lemma after_stop_busy ks st :
  _ping st <> None ->
  (after_stop ks st).1.2 = st /\ spawned (after_stop ks st).2 = [].
Proof.
  intros Hp. unfold after_stop.
  induction ks as [|k ks IH]; [done|].
  cbn [for_each]. rewrite bind_eq, (start_busy_eq _ Hp). cbn [fst snd app].
  apply IH.
Qed.

Lemma after_stop_idle ks st :
  ks <> [] -> _ping st = None ->
  (after_stop ks st).1.2 = started st
  /\ exists a b,
       one_spawn (length (gens st)) (host st) (interval st)
         (after_stop ks st).2 a b.
Proof.
  intros Hk Hp. destruct ks as [|k ks]; [done|].
  unfold after_stop. cbn [for_each].
  rewrite bind_eq, (start_idle_eq _ Hp). cbn [fst snd app].
  destruct (after_stop_busy ks (started st)) as [E Hs]; [done|].
  unfold after_stop in E, Hs. rewrite E. split; [done|].
  exists [], (AReadStart (length (gens st))
              :: (for_each ks (fun _ => _start) (started st)).2).
  by repeat split.
Qed.

(** The completion of a generator settles at most one promise; the calls
    of [on_settings_changed] go on when its other jobs are done. *)
Lemma complete_cases g c st x :
  state_inv st -> gens st !! g = Some x ->
  let st1 := set_gens (<[g := Gen PDone [] (returned x)]> (gens st)) st in
  exists ks st2 pre,
    (complete g c st).1.2 = (after_stop ks st2).1.2
    /\ (complete g c st).2 = pre ++ (after_stop ks st2).2
    /\ spawned pre = []
    /\ (((forall p, ~ In (RReturn p) (queue x)) /\ st2 = st1 /\ ks = [])
        \/ (exists pr o,
              In (RReturn pr) (queue x)
              /\ st2 = settled pr o st1
              /\ ks = (settle pr o st1).1.1)).
Proof.
  intros H Hx st1. unfold complete. rewrite bind_eq. cbn [get fst snd].
  rewrite Hx. rewrite bind_eq. cbn [set_gen modify fst snd app]. fold st1.
  pose proof (heap_queue _ _ _ _ (proj2 H) g x Hx) as Hq.
  destruct x as [p q r]. cbn [pc returned queue] in *.
  assert (q = [] \/ q = [RNext]
          \/ (exists pr, q = [RNext; RReturn pr])
          \/ (exists pr, q = [RReturn pr; RNext])) as Hcases.
  { destruct p, r; cbn in Hq; try (by left); try (by right; left);
      destruct Hq as [pr Hq]; try destruct Hq as [Hq|Hq];
      first [right; right; left; by exists pr
            |right; right; right; by exists pr]. }
  assert (forall c' s, (answer RNext c' s).1.1 = []
                       /\ (answer RNext c' s).1.2 = s
                       /\ spawned (answer RNext c' s).2 = []) as Hnext
    by (intros c' s; by destruct c').
  destruct Hcases as [->|[->|[[pr ->]|[pr ->]]]].
  - exists [], st1, []. cbn [skip mret M_ret fst snd app].
    split; [done|]. split; [done|]. split; [done|]. left.
    split; [by intros p' []|done].
  - rewrite answers_eq. cbn [collect mret M_ret fst snd].
    destruct (Hnext c st1) as (-> & -> & Hs). cbn [app].
    exists [], st1, (answer RNext c st1).2.
    split; [done|]. split; [done|]. split; [done|]. left.
    split; [|done]. intros p' Hi. cbn in Hi. by intuition discriminate.
  - rewrite answers_eq, collect_cons_eq. cbn [collect mret M_ret fst snd].
    destruct (Hnext c st1) as (-> & -> & Hs). cbn [app answer].
    rewrite !app_nil_r.
    destruct (settle_frame pr Fulfilled st1) as [-> Hs'].
    exists (settle pr Fulfilled st1).1.1, (settled pr Fulfilled st1),
      ((answer RNext c st1).2 ++ (settle pr Fulfilled st1).2).
    split; [done|]. split; [by rewrite <- app_assoc|].
    split; [by rewrite spawned_app, Hs, Hs'|]. right.
    exists pr, Fulfilled. split; [by right; left|done].
  - rewrite answers_eq, collect_cons_eq. cbn [collect mret M_ret fst snd].
    set (o := match c with CReturn => Fulfilled | CThrow => Rejected end).
    change (answer (RReturn pr) c) with (settle pr o).
    destruct (settle_frame pr o st1) as [E Hs']. rewrite E.
    destruct (Hnext CReturn (settled pr o st1)) as (-> & -> & Hs).
    rewrite !app_nil_r.
    exists (settle pr o st1).1.1, (settled pr o st1),
      ((settle pr o st1).2 ++ (answer RNext CReturn (settled pr o st1)).2).
    split; [done|]. split; [by rewrite <- app_assoc|].
    split; [by rewrite spawned_app, Hs, Hs'|]. right.
    exists pr, o. split; [by left|done].
Qed.

Lemma queue_ok_one_return p r q a b :
  queue_ok p r q -> In (RReturn a) q -> In (RReturn b) q -> a = b.
Proof.
  intros H Ha Hb.
  destruct p, r; cbn in H;
    repeat match goal with
           | H : exists _, _ |- _ => destruct H as [? H]
           | H : _ \/ _ |- _ => destruct H as [H|H]
           end; subst q; cbn in Ha, Hb;
    repeat match goal with
           | H : _ \/ _ |- _ => destruct H as [H|H]
           | H : False |- _ => destruct H
           end; congruence.
Qed.

Lemma awaits_true p c : awaits p c = true <-> sc_promise c = p.
Proof. unfold awaits. apply Nat.eqb_eq. Qed.

(** While the old session runs on, the call of [on_settings_changed] goes
    on waiting. *)
Lemma waiting_replace g n p h i st st' g1 x y :
  waiting g n p h i st -> state_inv st' ->
  gens st !! g1 = Some x -> gens st' = <[g1 := y]> (gens st) ->
  (g1 = g -> pc y <> PDone /\ In (RReturn p) (queue y)) ->
  _ping st' = _ping st -> host st' = host st -> interval st' = interval st ->
  stops st' = stops st ->
  waiting g n p h i st'.
Proof.
  intros (_ & Hp & Hc & Hn & (xg & Hxg & Hd & Hq) & Hg & He) H' Hx Hgs Hy
    E1 E2 E3 E4.
  split; [done|]. split; [congruence|]. split; [by rewrite E2, E3|].
  split; [by rewrite Hgs, length_insert|].
  split; [|by rewrite E4].
  rewrite Hgs. destruct (decide (g1 = g)) as [->|Hne].
  - exists y. split; [apply list_lookup_insert_eq; by eapply lookup_lt_Some|].
    by apply Hy.
  - exists xg. by rewrite list_lookup_insert_ne.
Qed.

Lemma waiting_queue g n p h i st x :
  waiting g n p h i st -> gens st !! g = Some x ->
  pc x <> PDone /\ In (RReturn p) (queue x).
Proof.
  intros (_ & _ & _ & _ & (xg & Hxg & Hd & Hq) & _) Hx.
  rewrite Hx in Hxg. by injection Hxg as ->.
Qed.

Lemma waiting_set_pc g n p h i st pre g1 x p' :
  waiting g n p h i st -> gens st !! g1 = Some x ->
  pc x <> PDone -> p' <> PDone -> p' <> PRead -> spawned pre = [] ->
  restart_outcome g n p h i (set_pc g1 p' st).1.2
    (pre ++ (set_pc g1 p' st).2).
Proof.
  intros Hw Hx Hd Hp1 Hp2 Hpre. left.
  pose proof (state_inv_set_pc st g1 x p' (proj1 Hw) Hx Hd Hp1 Hp2) as Hi.
  rewrite (set_pc_eq _ _ _ _ Hx) in *. cbn [fst snd] in *.
  rewrite app_nil_r. split; [|done].
  apply (waiting_replace g n p h i st _ g1 x
           (Gen p' (queue x) (returned x)) Hw Hi Hx); try done.
  intros ->. split; [done|]. by apply (waiting_queue g n p h i st x).
Qed.

Lemma waiting_skip g n p h i st :
  waiting g n p h i st -> restart_outcome g n p h i st [].
Proof. intros Hw. by left. Qed.

Lemma proto_suffix_nil g a b c :
  proto_trace g (a ++ b :: c) = [] -> proto_trace g c = [].
Proof.
  rewrite proto_trace_app. intros [_ H]%app_eq_nil.
  unfold proto_trace in *. cbn [List.filter] in H.
  by destruct (proto g b).
Qed.

Lemma waiting_complete g n p h i st pre g1 x c :
  waiting g n p h i st -> gens st !! g1 = Some x -> spawned pre = [] ->
  restart_outcome g n p h i (complete g1 c st).1.2
    (pre ++ (complete g1 c st).2).
Proof.
  intros Hw Hx Hpre.
  pose proof Hw as (Hi & Hp & [Hh Hiv] & Hn & (xg & Hxg & Hd & Hq) & Hg
                    & (c0 & Hc0 & Ht0)).
  pose proof (state_inv_complete g1 c st x Hi Hx) as Hi'.
  destruct (complete_cases g1 c st x Hi Hx)
    as (ks & st2 & pre' & Es & Ea & Hpre' & Hcase).
  set (st1 := set_gens (<[g1 := Gen PDone [] (returned x)]> (gens st)) st)
    in *.
  destruct Hcase as [(Hno & -> & ->)|(pr & o & Hin & -> & ->)].
  - assert (g1 <> g) as Hne.
    { intros ->. assert (xg = x) by congruence. subst xg. by apply (Hno p). }
    left. split; [|by rewrite Ea, !spawned_app, Hpre, Hpre'].
    rewrite Es in *. cbn [after_stop for_each skip mret M_ret fst snd] in *.
    by apply (waiting_replace g n p h i st _ g1 x
                (Gen PDone [] (returned x)) Hw Hi' Hx).
  - destruct (decide (g1 = g)) as [->|Hne].
    + assert (xg = x) by congruence. subst xg.
      assert (pr = p) as ->.
      { by apply (queue_ok_one_return _ _ _ _ _
                    (heap_queue _ _ _ _ (proj2 Hi) g x Hx)). }
      destruct (after_stop_idle (settle p o st1).1.1 (settled p o st1))
        as [Es' (a & b & Ea' & Ha & Hb)].
      { apply settle_some.
        - intros c' Hc' _ Ht. by apply Hg.
        - exists c0. split; [done|]. split; [|done].
          apply awaits_true. by apply Hg. }
      { done. }
      right. split; [by destruct (complete_view g c st x Hx)|].
      split.
      { rewrite Es, Es'. cbn. by rewrite length_insert, Hn. }
      cbn [settled st1 set_stops set_promises set_gens gens host interval]
        in Ea'.
      rewrite length_insert, Hn, Hh, Hiv in Ea'.
      exists (pre ++ pre' ++ a), b. split.
      * split; [rewrite Ea, Ea'; by rewrite <- !app_assoc|].
        by rewrite !spawned_app, Hpre, Hpre', Ha, Hb.
      * destruct (complete_view g c st x Hx) as [_ Hq'].
        rewrite Ea, Ea' in Hq'.
        apply (proto_suffix_nil g (pre' ++ a) (ASpawn n h i)).
        by rewrite <- !app_assoc in *.
    + assert (pr <> p) as Hpr.
      { intros ->. apply Hne.
        by apply (heap_unique _ _ _ _ (proj2 Hi) g1 g x xg p). }
      rewrite settle_none in Es, Ea.
      2,3: intros c' Hc' Ha'; destruct (sc_then_start c') eqn:Et; [|done];
        apply awaits_true in Ha'; destruct (Hg c' Hc' Et); congruence.
      cbn [after_stop for_each skip mret M_ret fst snd] in Es, Ea.
      left. split; [|by rewrite Ea, !spawned_app, Hpre, Hpre'].
      rewrite Es in *.
      split; [done|]. split; [done|]. split; [done|].
      split; [cbn; by rewrite length_insert|].
      split; [exists xg; cbn; by rewrite list_lookup_insert_ne|].
      split.
      * intros c' [Hc' _]%filter_In. by apply Hg.
      * exists c0. split; [|done]. apply filter_In. split; [done|].
        destruct (awaits pr c0) eqn:Ea0; [|done].
        apply awaits_true in Ea0. destruct (Hg c0 Hc0 Ht0). congruence.
Qed.

Lemma waiting_on_yield g n p h i st pre g1 v :
  waiting g n p h i st -> spawned pre = [] ->
  restart_outcome g n p h i (on_yield g1 v st).1.2
    (pre ++ (on_yield g1 v st).2).
Proof.
  intros Hw Hpre. left.
  pose proof (state_inv_on_yield g1 v st (proj1 Hw)) as Hi'.
  revert Hi'. unfold on_yield. rewrite bind_eq. cbn [get fst snd].
  destruct (gens st !! g1) as [[p0 [|[|pr0] q] ret]|] eqn:Hx;
    try (intros _; cbn; by rewrite app_nil_r).
  pose proof (heap_queue _ _ _ _ (proj2 (proj1 Hw)) g1 _ Hx) as Hq.
  cbn [pc returned queue] in Hq.
  rewrite !bind_eq. cbn [emit fst snd]. rewrite set_ping_val_eq.
  cbn [fst snd set_gen modify].
  destruct (queue_ok_next _ _ _ Hq) as [Hp [[-> ->]|[-> [pr ->]]]].
  - cbn [app emit fst snd]. intros Hi'.
    split; [|by rewrite spawned_app, Hpre].
    apply (waiting_replace g n p h i st _ g1 _ (Gen PRead [RNext] false)
             Hw Hi' Hx); try done.
    intros ->. destruct (waiting_queue g n p h i st _ Hw Hx) as [_ Hin].
    cbn in Hin. by intuition discriminate.
  - cbn [app]. unfold enter_finally.
    repeat (rewrite bind_eq; cbn [emit fst snd]).
    set (st1 := set_gens _ _).
    assert (gens st1 !! g1 = Some (Gen PRead [RReturn pr; RNext] true)) as E1.
    { subst st1. unfold set_gens. cbn [gens set_label].
      apply list_lookup_insert_eq. by eapply lookup_lt_Some. }
    rewrite (set_pc_eq _ _ _ _ E1). cbn [fst snd pc queue returned app].
    intros Hi'. split; [|by rewrite spawned_app, Hpre].
    apply (waiting_replace g n p h i st _ g1 _
             (Gen (PClose CReturn) [RReturn pr; RNext] true) Hw Hi' Hx);
      try done.
    + subst st1. unfold set_gens. cbn [gens set_label].
      by rewrite list_insert_insert_eq.
    + intros ->. destruct (waiting_queue g n p h i st _ Hw Hx) as [_ Hin].
      split; [done|]. cbn in Hin. cbn. by intuition.
Qed.

Ltac restart_last_op Hw Hx :=
  cbn [app];
  first
    [ by apply waiting_skip
    | match goal with
      | |- restart_outcome _ _ _ _ _ (complete ?g ?c ?st).1.2 ?acts =>
          let pre := prefix_before acts (complete g c st).2 in
          change acts with (pre ++ (complete g c st).2);
          by apply (waiting_complete _ _ _ _ _ _ _ _ _ _ Hw Hx)
      | |- restart_outcome _ _ _ _ _ (set_pc ?g ?p ?st).1.2 ?acts =>
          let pre := prefix_before acts (set_pc g p st).2 in
          change acts with (pre ++ (set_pc g p st).2);
          by apply (waiting_set_pc _ _ _ _ _ _ _ _ _ _ Hw Hx)
      | |- restart_outcome _ _ _ _ _ (on_yield ?g ?v ?st).1.2 ?acts =>
          let pre := prefix_before acts (on_yield g v st).2 in
          change acts with (pre ++ (on_yield g v st).2);
          by apply (waiting_on_yield _ _ _ _ _ _ _ _ _ Hw)
      end ].

Lemma on_read_restart g n p h i g1 r st :
  waiting g n p h i st ->
  restart_outcome g n p h i (on_read g1 r st).1.2 (on_read g1 r st).2.
Proof.
  intros Hw. unfold on_read. rewrite bind_eq. cbn [get fst snd app].
  destruct (gens st !! g1) as [[[] q ret]|] eqn:Hx;
    try by apply waiting_skip.
  destruct r; unfold enter_finally; to_last_op; restart_last_op Hw Hx.
Qed.

Lemma on_close_restart g n p h i g1 r st :
  waiting g n p h i st ->
  restart_outcome g n p h i (on_close g1 r st).1.2 (on_close g1 r st).2.
Proof.
  intros Hw. unfold on_close. rewrite bind_eq. cbn [get fst snd app].
  destruct (gens st !! g1) as [[[] q ret]|] eqn:Hx;
    try by apply waiting_skip.
  destruct r as [[pid|]|]; to_last_op; restart_last_op Hw Hx.
Qed.

Lemma on_timer_restart g n p h i g1 st :
  waiting g n p h i st ->
  restart_outcome g n p h i (on_timer g1 st).1.2 (on_timer g1 st).2.
Proof.
  intros Hw. unfold on_timer. rewrite bind_eq. cbn [get fst snd app].
  destruct (gens st !! g1) as [[[| | |? ? []|? []|] q ret]|] eqn:Hx;
    try (by apply waiting_skip); to_last_op; restart_last_op Hw Hx.
Qed.

Lemma on_wait_restart g n p h i g1 w st :
  waiting g n p h i st ->
  restart_outcome g n p h i (on_wait g1 w st).1.2 (on_wait g1 w st).2.
Proof.
  intros Hw. unfold on_wait. rewrite bind_eq. cbn [get fst snd app].
  destruct (gens st !! g1) as [[[| | |? ? []|? []|] q ret]|] eqn:Hx;
    try (by apply waiting_skip); destruct w; to_last_op;
    restart_last_op Hw Hx.
Qed.

(** * While a session is held, the Gio callbacks start none *)

Lemma busy_ret {A : Type} (x : A) : busy_keeps (mret x : M A).
Proof. by intros st _. Qed.

Lemma busy_bind {A B : Type} (m : M A) (k : A -> M B) :
  busy_keeps m -> (forall x, busy_keeps (k x)) -> busy_keeps (m ≫= k).
Proof.
  intros Hm Hk st Hp. rewrite bind_eq. cbn [fst snd].
  destruct (Hm st Hp) as [E1 S1].
  destruct (Hk (m st).1.1 (m st).1.2) as [E2 S2]; [congruence|].
  split; [congruence|]. by rewrite spawned_app, S1, S2.
Qed.

Lemma busy_emit a : is_spawn a = false -> busy_keeps (emit a).
Proof. intros H st _. split; [done|]. by destruct a. Qed.

Lemma busy_modify f :
  (forall st, _ping (f st) = _ping st) -> busy_keeps (modify f).
Proof. intros H st _. split; [apply H|done]. Qed.

Lemma busy_get_bind {B : Type} (k : state -> M B) :
  (forall s, busy_keeps (k s)) -> busy_keeps (get ≫= k).
Proof. intros H. apply busy_bind; [by intros st _|done]. Qed.

Lemma busy_for_each {A : Type} (l : list A) (k : A -> M unit) :
  (forall x, busy_keeps (k x)) -> busy_keeps (for_each l k).
Proof.
  intros H. induction l as [|x l IH]; cbn [for_each].
  - apply busy_ret.
  - apply busy_bind; [apply H|]. by intros _.
Qed.

Lemma busy_collect {A B : Type} (l : list A) (k : A -> M (list B)) :
  (forall x, busy_keeps (k x)) -> busy_keeps (collect l k).
Proof.
  intros H. induction l as [|x l IH]; cbn [collect].
  - apply busy_ret.
  - apply busy_bind; [apply H|]. intros r.
    apply busy_bind; [apply IH|]. intros rs. apply busy_ret.
Qed.

Lemma busy_start : busy_keeps _start.
Proof. intros st Hp. by rewrite (start_busy_eq _ Hp). Qed.

Ltac busy_steps :=
  repeat lazymatch goal with
  | |- busy_keeps (mret _) => apply busy_ret
  | |- busy_keeps skip => apply busy_ret
  | |- busy_keeps (emit _) => apply busy_emit; reflexivity
  | |- busy_keeps (modify _) => apply busy_modify; reflexivity
  | |- busy_keeps (set_gen _ _) => apply busy_modify; reflexivity
  | |- busy_keeps (get ≫= _) => apply busy_get_bind; intros ?
  | |- busy_keeps (_ ≫= _) => apply busy_bind; [|intros ?]
  | |- busy_keeps (for_each _ _) => apply busy_for_each; intros ?
  | |- busy_keeps (collect _ _) => apply busy_collect; intros ?
  | |- busy_keeps (match ?x with _ => _ end) => destruct x
  | |- busy_keeps (if ?x then _ else _) => destruct x
  | |- busy_keeps _start => apply busy_start
  | |- busy_keeps (after_stop _) => unfold after_stop
  | |- busy_keeps (finish_call _ _) => unfold finish_call
  | |- busy_keeps (settle _ _) => unfold settle
  | |- busy_keeps (answer ?r _) => destruct r; cbn [answer]
  | |- busy_keeps (complete _ _) => unfold complete
  | |- busy_keeps (set_pc _ _) => unfold set_pc
  | |- busy_keeps (enter_finally _ _) => unfold enter_finally
  | |- busy_keeps (wait_proc_with_timeout_begin _ _) =>
      unfold wait_proc_with_timeout_begin
  | |- busy_keeps (wait_proc_with_timeout_end _) =>
      unfold wait_proc_with_timeout_end
  | |- busy_keeps (_set_ping_val _) => unfold _set_ping_val
  | |- busy_keeps (set_applet_label _) => unfold set_applet_label
  | |- busy_keeps (on_yield _ _) => unfold on_yield
  | |- busy_keeps (on_read _ _) => unfold on_read
  | |- busy_keeps (on_close _ _) => unfold on_close
  | |- busy_keeps (on_timer _) => unfold on_timer
  | |- busy_keeps (on_wait _ _) => unfold on_wait
  end.

Lemma busy_gio e : is_gio e -> busy_keeps (handle e).
Proof. destruct e; try done; intros _; cbn [handle]; busy_steps. Qed.

Lemma vtrans_done g e v acts :
  vtrans g e (Some PDone) v acts -> v = Some PDone /\ acts = [].
Proof.
  intros H. remember (Some PDone) as v0 eqn:E.
  destruct H as [v| |p p' acts Hg]; [done|done|].
  injection E as ->. by inversion Hg.
Qed.

(** Once the new session is spawned, the Gio callbacks leave things so. *)
Lemma restarted_step g n h i e st tr :
  is_gio e -> restarted g n h i st tr ->
  restarted g n h i (step e st).1 (tr ++ (step e st).2).
Proof.
  intros He (Hv & Hp & a & b & (-> & Ha & Hb) & Hq).
  pose proof (step_vtrans e st g) as Ht. rewrite Hv in Ht.
  apply vtrans_done in Ht as [Hv' Hq'].
  destruct (busy_gio e He st) as [Hp' Hs]; [congruence|].
  rewrite step_eq in *. cbn [fst snd] in *.
  split; [done|]. split; [congruence|].
  exists a, (b ++ (handle e st).2). split.
  - split; [by rewrite <- app_assoc|]. split; [done|].
    by rewrite spawned_app, Hb, Hs.
  - by rewrite proto_trace_app, Hq, Hq'.
Qed.

Lemma waiting_step g n p h i e st :
  is_gio e -> waiting g n p h i st ->
  restart_outcome g n p h i (step e st).1 (step e st).2.
Proof.
  intros He Hw. rewrite step_eq. cbn [fst snd].
  destruct e; try done; cbn [handle].
  - by apply on_read_restart.
  - by apply on_close_restart.
  - by apply on_timer_restart.
  - by apply on_wait_restart.
Qed.

(** The Gio callbacks after the change of the settings: the call of
    [on_settings_changed] waits and nothing is spawned, until the turn
    that completes the old session spawns the new one. *)
Lemma restart_run g n p h i es :
  Forall is_gio es ->
  forall st tr,
    (waiting g n p h i st /\ spawned tr = []) \/ restarted g n h i st tr ->
    (waiting g n p h i (run es st).1 /\ spawned (tr ++ (run es st).2) = [])
    \/ restarted g n h i (run es st).1 (tr ++ (run es st).2).
Proof.
  induction 1 as [|e es He _ IH]; intros st tr Hst.
  - cbn [run fst snd]. by rewrite app_nil_r.
  - rewrite run_cons. cbn [fst snd]. rewrite app_assoc. apply IH.
    destruct Hst as [[Hw Hs]|Hr].
    + destruct (waiting_step g n p h i e st He Hw) as [[Hw' Hs']|Hr'].
      * left. split; [done|]. by rewrite spawned_app, Hs, Hs'.
      * right. destruct Hr' as (Hv & Hp & a & b & (-> & Ha & Hb) & Hq).
        split; [done|]. split; [done|].
        exists (tr ++ a), b. split; [|done].
        split; [by rewrite <- app_assoc|]. split; [|done].
        by rewrite spawned_app, Hs, Ha.
    + right. by apply restarted_step.
Qed.

Lemma settings_changed_busy_eq t h i st g :
  _is_in_panel st = true -> _ping st = Some g ->
  on_settings_changed t h i st
  = (tt,
     (_stop true (set_tooltip (host_or_empty h) (set_config t h i st))).1.2,
     ASetTooltip (host_or_empty h) :: ALog LRestarting
       :: (_stop true
             (set_tooltip (host_or_empty h) (set_config t h i st))).2).
Proof.
  intros Hpan Hp. unfold on_settings_changed, set_applet_tooltip.
  repeat (rewrite bind_eq; cbn [modify emit get fst snd app]).
  cbn [set_tooltip set_config _is_in_panel _ping]. rewrite Hpan, Hp.
  rewrite bind_eq. cbn [emit fst snd app].
  by destruct (_stop true _) as [[[] ?] ?].
Qed.

Lemma stop_busy_eq b st g :
  _ping st = Some g ->
  let st1 := set_ping None (set_calls (S (calls st)) st) in
  let r := gen_return g st1 in
  let w := await_in_call (StopCall (calls st) r.1.1 true b)
             (set_stoppedPromise r.1.1 r.1.2) in
  _stop b st = (tt, w.1.2, r.2 ++ w.2).
Proof.
  intros Hp st1 r w. unfold _stop.
  rewrite bind_eq. cbn [get fst snd]. rewrite Hp.
  repeat (rewrite bind_eq; cbn [modify fst snd app]).
  fold st1. fold r. fold w. by destruct w as [[[] ?] ?].
Qed.

Lemma await_settled c o st :
  promises st !! sc_promise c = Some (PSettled o) ->
  await_in_call c st
  = (tt,
     (after_stop (finish_call c o st).1.1 (finish_call c o st).1.2).1.2,
     (finish_call c o st).2
     ++ (after_stop (finish_call c o st).1.1 (finish_call c o st).1.2).2).
Proof.
  intros H. unfold await_in_call. rewrite bind_eq. cbn [get fst snd].
  rewrite H, bind_eq. cbn [fst snd app].
  by destruct (after_stop _ _) as [[[] ?] ?].
Qed.

Lemma await_pending c st :
  promises st !! sc_promise c = Some PPending ->
  await_in_call c st = (tt, set_stops (stops st ++ [c]) st, []).
Proof.
  intros H. unfold await_in_call. rewrite bind_eq. cbn [get fst snd].
  by rewrite H.
Qed.

Lemma settings_restart g t h i st :
  state_inv st -> _is_in_panel st = true -> _ping st = Some g ->
  (forall c, In c (stops st) -> sc_then_start c = false) ->
  restart_outcome g (length (gens st)) (length (promises st)) h i
    (step (ESettings t h i) st).1 (step (ESettings t h i) st).2.
Proof.
  intros Hi Hpan Hp Hno.
  pose proof (state_inv_step (ESettings t h i) st Hi) as Hi'.
  rewrite step_eq in *. cbn [handle fst snd] in *.
  rewrite (settings_changed_busy_eq t h i st g Hpan Hp) in *.
  cbn [fst snd] in *.
  set (st0 := set_tooltip _ _) in *.
  pose proof (quiet_stop true g st0) as [Hq _].
  assert (_ping st0 = Some g) as Hp0 by done.
  rewrite (stop_busy_eq true st0 g Hp0) in *. cbn [fst snd] in *.
  destruct (proj1 (proj1 Hi g) Hp) as ([p q r] & Hx & Hr).
  cbn [returned] in Hr. subst r.
  set (st1 := set_ping None _) in *.
  assert (gens st1 !! g = Some (Gen p q false)) as Hx1 by done.
  assert (p = PDone \/ p <> PDone) as [->|Hd]
    by (destruct p; (by left) || (by right)).
  - rewrite (gen_return_done _ _ _ _ Hx1) in *. cbn [fst snd app] in *.
    set (c := StopCall _ _ _ _) in *. set (st2 := set_stoppedPromise _ _) in *.
    assert (promises st2 !! sc_promise c = Some (PSettled Fulfilled)) as Hs.
    { cbn. by rewrite lookup_app_r, Nat.sub_diag. }
    rewrite (await_settled c Fulfilled st2 Hs) in *. cbn [fst snd] in *.
    destruct (finish_call_frame c Fulfilled st2) as [Ef Hf].
    rewrite Ef, (finish_call_some c Fulfilled st2) in * by done.
    destruct (after_stop_idle [c] st2) as [Es (a & b & Ea & Ha & Hb)];
      [done..|].
    right. rewrite Es, Ea in *.
    assert (length (gens st2) = length (gens st)) as El
      by (cbn; by rewrite length_insert).
    rewrite El in *.
    split.
    { unfold view. cbn.
      rewrite lookup_app_l by (rewrite length_insert; by eapply lookup_lt_Some).
      rewrite list_lookup_insert_eq by (by eapply lookup_lt_Some). done. }
    split; [by cbn; rewrite length_insert|].
    exists (ASetTooltip (host_or_empty h) :: ALog LRestarting
            :: (finish_call c Fulfilled st2).2 ++ a), b.
    split.
    + split; [cbn [app]; by rewrite app_assoc|]. split; [|done].
      assert (forall l, spawned (ASetTooltip (host_or_empty h)
                                 :: ALog LRestarting :: l) = spawned l)
        as Hc by done.
      by rewrite Hc, spawned_app, Hf, Ha.
    + rewrite app_assoc in Hq. by apply proto_suffix_nil in Hq.
  - rewrite (gen_return_running _ _ _ _ _ Hx1 Hd) in *.
    cbn [fst snd app] in *.
    set (c := StopCall _ _ _ _) in *. set (st2 := set_stoppedPromise _ _) in *.
    assert (promises st2 !! sc_promise c = Some PPending) as Hs.
    { cbn. by rewrite lookup_app_r, Nat.sub_diag. }
    rewrite (await_pending c st2 Hs) in *. cbn [fst snd] in *.
    left. split; [|done].
    split; [done|]. split; [done|]. split; [done|].
    split; [cbn; by rewrite length_insert|].
    split.
    { exists (Gen p (q ++ [RReturn (length (promises st))]) true).
      split; [|split; [done|]].
      - cbn. apply list_lookup_insert_eq. by eapply lookup_lt_Some.
      - cbn. apply in_app_iff. right. by left. }
    split.
    + intros c' [Hc'|[<-|[]]]%in_app_iff Ht; [|done].
      cbn in Hc'. rewrite (Hno c' Hc') in Ht. done.
    + exists c. split; [|done]. cbn. apply in_app_iff. right. by left.
Qed.

(** When the settings change while a session [g] is held, the applet is in
    the panel and no earlier call of [on_settings_changed] is still
    suspended, then through any Gio callbacks that follow: as long as [g]
    has not completed, no process is spawned and [_ping] stays empty; once
    [g] has completed, exactly one process has been spawned, for the new host
    and interval, it is the session in [_ping], and every process-control
    action of [g] came before its spawn. *)
Theorem restart_waits_for_old_session (t0 h0 : option jsstring) (i0 : N)
    (es0 : list event) (g : nat) (t h : option jsstring) (i : N)
    (es : list event) :
  let st := (run_from_start t0 h0 i0 es0).1 in
  let r := run (ESettings t h i :: es) st in
  _is_in_panel st = true -> _ping st = Some g ->
  (forall c, In c (stops st) -> sc_then_start c = false) ->
  Forall is_gio es ->
  ((exists p, view g r.1 = Some p /\ p <> PDone)
   /\ _ping r.1 = None /\ spawned r.2 = [])
  \/ (view g r.1 = Some PDone
      /\ _ping r.1 = Some (length (gens st))
      /\ exists a b,
           r.2 = a ++ ASpawn (length (gens st)) h i :: b
           /\ spawned a = [] /\ spawned b = [] /\ proto_trace g b = []).
Proof.
  intros st r Hpan Hp Hno Hes. subst r. rewrite run_cons. cbn [fst snd].
  pose proof (state_inv_run t0 h0 i0 es0) as Hi. fold st in Hi.
  pose proof (settings_restart g t h i st Hi Hpan Hp Hno) as H0.
  destruct (restart_run g (length (gens st)) (length (promises st)) h i es Hes
              _ _ H0) as [[Hw Hs]|(Hv & Hp' & a & b & (Ea & Ha & Hb) & Hq)].
  - left. destruct Hw as (_ & Hp' & _ & _ & (x & Hx & Hd & _) & _).
    split; [|done]. exists (pc x). by rewrite (view_Some _ _ _ Hx).
  - right. split; [done|]. split; [done|]. by exists a, b.
Qed.

Lemma restart_waits_for_old_session_witness :
  let st := (run_from_start None (Some (lit "a")) 5 [EAdded]).1 in
  let r := run [ESettings None (Some (lit "b")) 7; ERead 0 REof;
                EClose 0 (CloseOk None); EWait 0 WTrue] st in
  (_is_in_panel st = true /\ _ping st = Some 0%nat)
  /\ (((exists p, view 0 r.1 = Some p /\ p <> PDone)
       /\ _ping r.1 = None /\ spawned r.2 = [])
      \/ (view 0 r.1 = Some PDone
          /\ _ping r.1 = Some (length (gens st))
          /\ exists a b,
               r.2 = a ++ ASpawn (length (gens st)) (Some (lit "b")) 7 :: b
               /\ spawned a = [] /\ spawned b = []
               /\ proto_trace 0 b = [])).
Proof.
  intros st r. split; [split; reflexivity|].
  apply (restart_waits_for_old_session None (Some (lit "a")) 5 [EAdded] 0%nat
           None (Some (lit "b")) 7
           [ERead 0 REof; EClose 0 (CloseOk None); EWait 0 WTrue]).
  - reflexivity.
  - reflexivity.
  - intros c Hc. vm_compute in Hc. destruct Hc.
  - repeat constructor.
Defined.

(** * A process is spawned for the settings in force *)

Lemma cfg_ret {A : Type} (x : A) : spawns_for_config (mret x : M A).
Proof. intros st. split; [done|]. by intros g h i []. Qed.

Lemma cfg_bind {A B : Type} (m : M A) (k : A -> M B) :
  spawns_for_config m -> (forall x, spawns_for_config (k x)) ->
  spawns_for_config (m ≫= k).
Proof.
  intros Hm Hk st. rewrite bind_eq. cbn [fst snd].
  destruct (Hm st) as [[E1 E2] S1].
  destruct (Hk (m st).1.1 (m st).1.2) as [[E3 E4] S2].
  split; [split; congruence|].
  intros g h i [Hin|Hin]%in_app_iff; [by apply (S1 g)|].
  destruct (S2 g h i Hin). split; congruence.
Qed.

Lemma cfg_emit a : is_spawn a = false -> spawns_for_config (emit a).
Proof.
  intros H st. split; [done|]. intros g h i [->|[]]. discriminate.
Qed.

Lemma cfg_modify f :
  (forall st, host (f st) = host st /\ interval (f st) = interval st) ->
  spawns_for_config (modify f).
Proof. intros H st. split; [apply H|]. by intros g h i []. Qed.

Lemma cfg_get_bind {B : Type} (k : state -> M B) :
  (forall s, spawns_for_config (k s)) -> spawns_for_config (get ≫= k).
Proof.
  intros H. apply cfg_bind; [|done]. intros st. split; [done|].
  by intros g h i [].
Qed.

Lemma cfg_for_each {A : Type} (l : list A) (k : A -> M unit) :
  (forall x, spawns_for_config (k x)) -> spawns_for_config (for_each l k).
Proof.
  intros H. induction l as [|x l IH]; cbn [for_each].
  - apply cfg_ret.
  - apply cfg_bind; [apply H|]. by intros _.
Qed.

Lemma cfg_collect {A B : Type} (l : list A) (k : A -> M (list B)) :
  (forall x, spawns_for_config (k x)) -> spawns_for_config (collect l k).
Proof.
  intros H. induction l as [|x l IH]; cbn [collect].
  - apply cfg_ret.
  - apply cfg_bind; [apply H|]. intros r.
    apply cfg_bind; [apply IH|]. intros rs. apply cfg_ret.
Qed.

Lemma cfg_start : spawns_for_config _start.
Proof.
  intros st. destruct (_ping st) eqn:Hp.
  - rewrite start_busy_eq by congruence. split; [done|]. by intros g h i [].
  - rewrite (start_idle_eq _ Hp). split; [done|].
    intros g h i [[= _ <- <-]|[[=]|[]]]. done.
Qed.

Ltac cfg_steps :=
  repeat lazymatch goal with
  | |- spawns_for_config (mret _) => apply cfg_ret
  | |- spawns_for_config skip => apply cfg_ret
  | |- spawns_for_config (emit _) => apply cfg_emit; reflexivity
  | |- spawns_for_config (modify _) => apply cfg_modify; by intros ?
  | |- spawns_for_config (set_gen _ _) => apply cfg_modify; by intros ?
  | |- spawns_for_config (get ≫= _) => apply cfg_get_bind; intros ?
  | |- spawns_for_config (_ ≫= _) => apply cfg_bind; [|intros ?]
  | |- spawns_for_config (for_each _ _) => apply cfg_for_each; intros ?
  | |- spawns_for_config (collect _ _) => apply cfg_collect; intros ?
  | |- spawns_for_config (match ?x with _ => _ end) => destruct x
  | |- spawns_for_config (if ?x then _ else _) => destruct x
  | |- spawns_for_config _start => apply cfg_start
  | |- spawns_for_config (after_stop _) => unfold after_stop
  | |- spawns_for_config (finish_call _ _) => unfold finish_call
  | |- spawns_for_config (settle _ _) => unfold settle
  | |- spawns_for_config (answer ?r _) => destruct r; cbn [answer]
  | |- spawns_for_config (complete _ _) => unfold complete
  | |- spawns_for_config (set_pc _ _) => unfold set_pc
  | |- spawns_for_config (enter_finally _ _) => unfold enter_finally
  | |- spawns_for_config (await_in_call _) => unfold await_in_call
  | |- spawns_for_config (gen_return _) => unfold gen_return
  | |- spawns_for_config (_stop _) => unfold _stop
  | |- spawns_for_config (wait_proc_with_timeout_begin _ _) =>
      unfold wait_proc_with_timeout_begin
  | |- spawns_for_config (wait_proc_with_timeout_end _) =>
      unfold wait_proc_with_timeout_end
  | |- spawns_for_config (_set_ping_val _) => unfold _set_ping_val
  | |- spawns_for_config (set_applet_label _) => unfold set_applet_label
  | |- spawns_for_config (set_applet_tooltip _) => unfold set_applet_tooltip
  | |- spawns_for_config (on_yield _ _) => unfold on_yield
  | |- spawns_for_config (on_read _ _) => unfold on_read
  | |- spawns_for_config (on_close _ _) => unfold on_close
  | |- spawns_for_config (on_timer _) => unfold on_timer
  | |- spawns_for_config (on_wait _ _) => unfold on_wait
  | |- spawns_for_config on_applet_added_to_panel =>
      unfold on_applet_added_to_panel
  | |- spawns_for_config on_applet_removed_from_panel =>
      unfold on_applet_removed_from_panel
  end.

(** A process spawned in a turn is spawned for the host and the interval
    that are set when the turn ends. *)
Lemma spawn_step e st g h i :
  In (ASpawn g h i) (step e st).2 ->
  h = host (step e st).1 /\ i = interval (step e st).1.
Proof.
  rewrite step_eq. cbn [fst snd].
  assert (forall (m : M unit) s, spawns_for_config m ->
            In (ASpawn g h i) (m s).2 ->
            h = host (m s).1.2 /\ i = interval (m s).1.2) as Hm.
  { intros m s Hc Hin. destruct (Hc s) as [[E1 E2] Hs].
    destruct (Hs g h i Hin). split; congruence. }
  destruct e as [| |t' h' i'| | | |]; cbn [handle].
  3: { unfold on_settings_changed. rewrite bind_eq. cbn [modify fst snd app].
       apply Hm. cfg_steps. }
  all: apply Hm; cfg_steps.
Qed.

Lemma config_step e st :
  config (step e st).1
  = match e with ESettings t h i => (t, h, i) | _ => config st end.
Proof.
  assert (heap_blind config) as Hb by (by repeat split).
  destruct e;
    try (apply (step_unchanged config _ st Hb); by intros).
  by rewrite (step_settings_eq config t h i st Hb).
Qed.

Lemma config_run es st : config (run es st).1 = last_settings (config st) es.
Proof.
  revert st. induction es as [|e es IH]; intros st; [done|].
  rewrite run_cons. cbn [fst]. rewrite IH, config_step. by destruct e.
Qed.

(** Whenever a ping process is spawned, it is spawned for the host and the
    interval of the last change of the settings up to and including the
    turn that spawns it, or for those the applet was constructed with when
    there was none. *)
Theorem spawn_uses_last_settings (t h : option jsstring) (i : N)
    (es : list event) (e : event) (g : nat) (h1 : option jsstring) (i1 : N) :
  let st := (run_from_start t h i es).1 in
  In (ASpawn g h1 i1) (step e st).2 ->
  h1 = (last_settings (t, h, i) (es ++ [e])).1.2
  /\ i1 = (last_settings (t, h, i) (es ++ [e])).2.
Proof.
  intros st Hin. destruct (spawn_step e st g h1 i1 Hin) as [-> ->].
  assert (config (step e st).1 = last_settings (t, h, i) (es ++ [e])) as <-.
  { subst st. unfold run_from_start.
    transitivity (config (run (es ++ [e]) (construct t h i).1).1);
      [by rewrite run_snoc|].
    by rewrite config_run. }
  done.
Qed.

Lemma spawn_uses_last_settings_witness :
  let st := (run_from_start None (Some (lit "a")) 5
               [ESettings None (Some (lit "b")) 7]).1 in
  In (ASpawn 0 (Some (lit "b")) 7) (step EAdded st).2
  /\ Some (lit "b")
     = (last_settings (None, Some (lit "a"), 5)
          ([ESettings None (Some (lit "b")) 7] ++ [EAdded])).1.2
  /\ 7 = (last_settings (None, Some (lit "a"), 5)
            ([ESettings None (Some (lit "b")) 7] ++ [EAdded])).2.
Proof.
  intros st.
  assert (In (ASpawn 0 (Some (lit "b")) 7) (step EAdded st).2) as Hin
    by (vm_compute; auto).
  split; [exact Hin|].
  exact (spawn_uses_last_settings None (Some (lit "a")) 5
           [ESettings None (Some (lit "b")) 7] EAdded 0%nat
           (Some (lit "b")) 7 Hin).
Defined.
